(** * Repliear: the versioned store, the mutation transaction, the pull
      handler and the client reducer

    A shallow embedding of the synchronisation layer of the issue tracker:

    - [Data]        the SQL helpers of the backend data module
                    ([getEntry], [putEntries], [delEntries],
                    [getChangedEntries], [getCookie], ...);
    - [Transaction] the class [ReplicacheTransaction] (an overlay cache on
                    top of the store, written back by [flush]);
    - [Seed]        [initSpace] of the backend data module, which seeds
                    the sample space through a transaction;
    - [Pull]        the handler of [pages/api/replicache-pull.ts], from
                    the database that [initSpace] leaves;
    - [Endpoint]    the same handler with its call of [initSpace];
    - [Lodash]      [sortBy] and [sortedIndexBy];
    - [App]         the function [reducer] of [frontend/app.tsx];
    - [AppView]     [getFilters] and the counts that [App] hands on;
    - [IssueList]   [itemKey] of [frontend/issue-list.tsx];
    - [TopFilter]   the handlers of the filter menu.

    Tables with a unique index are finite maps from the indexed columns to
    the remaining ones; a statement that violates such an index returns an
    error instead of a new database. *)

From Stdlib Require Import ZArith List Lia Permutation Sorted.
From stdpp Require Import base option list gmap fin_maps strings.
From Stdlib Require Import String Ascii DecimalString OrderedTypeEx.
From Stdlib Require Import DecimalFacts DecimalPos DecimalN DecimalZ.

Local Open Scope string_scope.
Local Open Scope list_scope.

(** ** JSON values and results *)

#[local] Set Warnings "-register-all".

(** [JSONValue] of the replicache package.  The JavaScript value
    [undefined] is not a JSON value; an optional value is an [option]. *)
Inductive JSONValue : Type :=
| JNull
| JBool (b : bool)
| JNumber (n : Z)
| JString (s : string)
| JArray (items : list JSONValue)
| JObject (fields : list (string * JSONValue)).

(** ** Issues

    The declarations of [frontend/issue] are not among the sources.  The
    enumerations have the members the sources name, and an issue has the
    fields the sources read. *)

Inductive Status : Type := BACKLOG | TODO | IN_PROGRESS.
Inductive Priority : Type := NONE | LOW | MEDIUM | HIGH | URGENT.
Inductive Order : Type := CREATED | MODIFIED.

#[global] Instance Status_eq_dec : EqDecision Status.
Proof. solve_decision. Defined.
#[global] Instance Priority_eq_dec : EqDecision Priority.
Proof. solve_decision. Defined.
#[global] Instance Order_eq_dec : EqDecision Order.
Proof. solve_decision. Defined.

(** Time stamps are the integers that [Date.now()] produces. *)
Record Issue : Type := mkIssue {
  id : string;
  title : string;
  priority : Priority;
  status : Status;
  modified : Z;
  created : Z
}.

(** What a SQL statement can raise in this model. *)
Inductive SqlError : Type :=
| UniqueViolation      (* insert of an existing primary/unique key *)
| CardinalityViolation (* on-conflict update hitting one row twice *).

Inductive Result (A : Type) : Type :=
| Ok (a : A)
| Err (e : SqlError).
Arguments Ok {A} a.
Arguments Err {A} e.

Definition bindR {A B} (r : Result A) (k : A -> Result B) : Result B :=
  match r with
  | Ok a => k a
  | Err e => Err e
  end.

Notation "'let*' x := r 'in' k" := (bindR r (fun x => k))
  (at level 10, x name, r at level 100, k at level 200).

(** ** The backend data module *)

Module Data.

(** Row of [space]: [id] is the primary key. *)
Record SpaceRow : Type := mkSpaceRow {
  space_version : Z;
  space_lastmodified : Z
}.

(** Row of [client]: [id] is the primary key. *)
Record ClientRow : Type := mkClientRow {
  lastmutationid : Z;
  client_lastmodified : Z
}.

(** Row of [entry]: [(spaceid, key)] carries the unique index.  The column
    [value] holds [JSON.stringify] of a JSON value and is only ever read
    back through [JSON.parse]; the row keeps the JSON value itself. *)
Record EntryRow : Type := mkEntryRow {
  value : JSONValue;
  deleted : bool;
  version : Z;
  lastmodified : Z
}.

(** What an [Executor] gives access to: the three tables, and the value
    of SQL [now()], which is fixed for the length of a transaction. *)
Record DB : Type := mkDB {
  space : gmap string SpaceRow;
  client : gmap string ClientRow;
  entry : gmap (string * string) EntryRow;
  now : Z
}.

Definition withEntry (db : DB) (e : gmap (string * string) EntryRow) : DB :=
  {| space := space db; client := client db; entry := e; now := now db |}.

Definition withSpace (db : DB) (s : gmap string SpaceRow) : DB :=
  {| space := s; client := client db; entry := entry db; now := now db |}.

Definition withClient (db : DB) (c : gmap string ClientRow) : DB :=
  {| space := space db; client := c; entry := entry db; now := now db |}.

(** [select value from entry where spaceid = $1 and key = $2 and
    deleted = false] *)
Definition getEntry (db : DB) (spaceID key : string) : option JSONValue :=
  match entry db !! (spaceID, key) with
  | Some row => if deleted row then None else Some (value row)
  | None => None
  end.

(** The row an upsert writes. *)
Definition putRow (v : JSONValue) (ver nowv : Z) : EntryRow :=
  {| value := v; deleted := false; version := ver; lastmodified := nowv |}.

(** One row of [insert into entry ... values (...) on conflict (spaceid,
    key) do update set value, deleted = false, version, lastmodified]. *)
Definition upsertEntry (spaceID : string) (ver nowv : Z)
    (e : gmap (string * string) EntryRow) (kv : string * JSONValue)
    : gmap (string * string) EntryRow :=
  <[(spaceID, kv.1) := putRow kv.2 ver nowv]> e.

(** [putEntries]: nothing on an empty batch; otherwise one upsert
    statement.  Postgres refuses an on-conflict update that would touch
    the same row twice, so a batch with a repeated key is an error. *)
Definition putEntries (db : DB) (spaceID : string)
    (entries : list (string * JSONValue)) (ver : Z) : Result DB :=
  match entries with
  | [] => Ok db
  | _ :: _ =>
      if decide (NoDup (entries.*1)) then
        Ok (withEntry db
              (fold_left (upsertEntry spaceID ver (now db)) entries
                 (entry db)))
      else Err CardinalityViolation
  end.

(** What a soft delete makes of a row. *)
Definition softDelete (ver : Z) (row : EntryRow) : EntryRow :=
  {| value := value row; deleted := true; version := ver;
     lastmodified := lastmodified row |}.

(** [delEntries]: nothing on an empty batch; otherwise [update entry set
    deleted = true, version = $2 where spaceid = $1 and key in (...)].
    An update only touches rows that exist. *)
Definition delEntries (db : DB) (spaceID : string) (keys : list string)
    (ver : Z) : Result DB :=
  match keys with
  | [] => Ok db
  | _ :: _ =>
      Ok (withEntry db
            (fold_left (fun e k => alter (softDelete ver) (spaceID, k) e)
               keys (entry db)))
  end.

(** [select key, value, deleted from entry where spaceid = $1 and
    version > $2], in the order the table is scanned. *)
Definition getChangedEntries (db : DB) (spaceID : string) (prevVersion : Z)
    : list (string * JSONValue * bool) :=
  omap (fun kr : (string * string) * EntryRow =>
          if decide (kr.1.1 = spaceID) then
            if (prevVersion <? version kr.2)%Z
            then Some (kr.1.2, value kr.2, deleted kr.2)
            else None
          else None)
       (map_to_list (entry db)).

Definition getCookie (db : DB) (spaceID : string) : option Z :=
  space_version <$> space db !! spaceID.

(** [update space set version = $2, lastmodified = now() where id = $1] *)
Definition setCookie (db : DB) (spaceID : string) (ver : Z) : DB :=
  withSpace db
    (alter (fun _ => {| space_version := ver;
                        space_lastmodified := now db |})
           spaceID (space db)).

Definition getLastMutationID (db : DB) (clientID : string) : option Z :=
  lastmutationid <$> client db !! clientID.

(** [insert into client ... on conflict (id) do update ...] *)
Definition setLastMutationID (db : DB) (clientID : string)
    (lastMutationID : Z) : DB :=
  withClient db
    (<[clientID := {| lastmutationid := lastMutationID;
                      client_lastmodified := now db |}]> (client db)).

(** [insert into space (id, version, lastmodified) values ($1, $2,
    now())]: a plain insert, refused when the id exists. *)
Definition insertSpace (db : DB) (spaceID : string) (ver : Z) : Result DB :=
  match space db !! spaceID with
  | Some _ => Err UniqueViolation
  | None =>
      Ok (withSpace db
            (<[spaceID := {| space_version := ver;
                             space_lastmodified := now db |}]> (space db)))
  end.

(** The rows of one space, by key. *)
Definition spaceEntries (e : gmap (string * string) EntryRow)
    (spaceID : string) : gmap string EntryRow :=
  default ∅ (map_curry (M1 := gmap string) (M2 := gmap string) e !! spaceID).

(** [insert into entry (...) select $1, key, value, deleted, version,
    lastmodified from entry where spaceid = $2]: a plain insert of the
    selected rows under the new space id, refused as a whole when one of
    them exists already. *)
Definition copyEntries (db : DB) (spaceID fromSpaceID : string) : Result DB :=
  let rows := spaceEntries (entry db) fromSpaceID in
  if decide (map_Forall (fun k _ => entry db !! (spaceID, k) = None) rows)
  then Ok (withEntry db (kmap (pair spaceID) rows ∪ entry db))
  else Err UniqueViolation.

End Data.

(** ** The class [ReplicacheTransaction] *)

Module Transaction.

Record CacheEntry : Type := mkCacheEntry {
  value : option JSONValue;
  dirty : bool
}.

(** The executor is not a field here: the methods that query it take the
    database as an argument, and [flush] returns the new one. *)
Record ReplicacheTransaction : Type := mkTx {
  _spaceID : string;
  _clientID : string;
  _version : Z;
  _cache : gmap string CacheEntry
}.

Definition new (spaceID clientID : string) (version : Z)
    : ReplicacheTransaction :=
  {| _spaceID := spaceID; _clientID := clientID; _version := version;
     _cache := ∅ |}.

(** [this._cache.set(key, entry)] *)
Definition cacheSet (tx : ReplicacheTransaction) (key : string)
    (e : CacheEntry) : ReplicacheTransaction :=
  {| _spaceID := _spaceID tx; _clientID := _clientID tx;
     _version := _version tx; _cache := <[key := e]> (_cache tx) |}.

Definition put (tx : ReplicacheTransaction) (key : string) (v : JSONValue)
    : ReplicacheTransaction :=
  cacheSet tx key {| value := Some v; dirty := true |}.

Definition get (db : Data.DB) (tx : ReplicacheTransaction) (key : string)
    : option JSONValue * ReplicacheTransaction :=
  match _cache tx !! key with
  | Some e => (value e, tx)
  | None =>
      let v := Data.getEntry db (_spaceID tx) key in
      (v, cacheSet tx key {| value := v; dirty := false |})
  end.

Definition has (db : Data.DB) (tx : ReplicacheTransaction) (key : string)
    : bool * ReplicacheTransaction :=
  let '(val, tx1) := get db tx key in
  (match val with Some _ => true | None => false end, tx1).

Definition del (db : Data.DB) (tx : ReplicacheTransaction) (key : string)
    : bool * ReplicacheTransaction :=
  let '(had, tx1) := has db tx key in
  (had, cacheSet tx1 key {| value := None; dirty := true |}).

Definition dirtyEntries (tx : ReplicacheTransaction)
    : list (string * CacheEntry) :=
  List.filter (fun ke => dirty ke.2) (map_to_list (_cache tx)).

Definition entriesToPut (tx : ReplicacheTransaction)
    : list (string * JSONValue) :=
  omap (fun ke : string * CacheEntry =>
          match value ke.2 with
          | Some v => Some (ke.1, v)
          | None => None
          end)
       (dirtyEntries tx).

Definition keysToDel (tx : ReplicacheTransaction) : list string :=
  (List.filter (fun ke : string * CacheEntry =>
                  match value ke.2 with Some _ => false | None => true end)
               (dirtyEntries tx)).*1.

(** [Promise.all([delEntries(...), putEntries(...)])]: the two statements
    are sent to the one connection in this order. *)
Definition flush (db : Data.DB) (tx : ReplicacheTransaction)
    : Result Data.DB :=
  let* db1 := Data.delEntries db (_spaceID tx) (keysToDel tx) (_version tx) in
  Data.putEntries db1 (_spaceID tx) (entriesToPut tx) (_version tx).

(** A script of calls on one transaction. *)
Inductive Call : Type :=
| CallPut (key : string) (v : JSONValue)
| CallDel (key : string)
| CallGet (key : string)
| CallHas (key : string).

Definition isWrite (c : Call) : bool :=
  match c with
  | CallPut _ _ | CallDel _ => true
  | CallGet _ | CallHas _ => false
  end.

Definition call (db : Data.DB) (tx : ReplicacheTransaction) (c : Call)
    : ReplicacheTransaction :=
  match c with
  | CallPut k v => put tx k v
  | CallDel k => (del db tx k).2
  | CallGet k => (get db tx k).2
  | CallHas k => (has db tx k).2
  end.

Definition calls (db : Data.DB) (tx : ReplicacheTransaction)
    (cs : list Call) : ReplicacheTransaction :=
  fold_left (call db) cs tx.

(** The value the last write of [cs] to [key] leaves in the overlay:
    [None] without such a write, [Some None] after a delete. *)
Fixpoint lastWrite (key : string) (cs : list Call)
    : option (option JSONValue) :=
  match cs with
  | [] => None
  | c :: cs' =>
      match lastWrite key cs' with
      | Some w => Some w
      | None =>
          match c with
          | CallPut k v => if decide (k = key) then Some (Some v) else None
          | CallDel k => if decide (k = key) then Some None else None
          | _ => None
          end
      end
  end.

(** An overlay slot after a call that does not write it: as before, or
    filled by a read with a clean entry. *)
Definition sameOrClean (before after : option CacheEntry) : Prop :=
  after = before \/
  (before = None /\ exists v, after = Some {| value := v; dirty := false |}).

Definition written (w : option JSONValue) : CacheEntry :=
  {| value := w; dirty := true |}.

(** The row that [flush] leaves for a key, from the key's overlay slot
    and the row it had. *)
Definition flushedRow (ver nowv : Z) (slot : option CacheEntry)
    (old : option Data.EntryRow) : option Data.EntryRow :=
  match slot with
  | Some e =>
      if dirty e then
        match value e with
        | Some v => Some (Data.putRow v ver nowv)
        | None => Data.softDelete ver <$> old
        end
      else old
  | None => old
  end.

End Transaction.

(** ** [initSpace] of the backend data module *)

Module Seed.
Import Transaction.

Definition sampleSpaceID : string := "sampleSpaceID".
Definition initialVersion : Z := 1%Z.

Section InitSpace.
(** [putIssue] of [frontend/issue] is not among the sources: it is
    taken as the calls it makes on the transaction it is handed. *)
Variable putIssue : Issue -> list Call.

Definition seedSampleSpace (db : Data.DB) (getSampleIssues : list Issue)
    : Result Data.DB :=
  let* db1 := Data.insertSpace db sampleSpaceID initialVersion in
  let tx := new sampleSpaceID "fake-client-id-for-server-init"
                initialVersion in
  let tx1 :=
    fold_left (fun tx issue => calls db1 tx (putIssue issue))
              getSampleIssues tx in
  flush db1 tx1.

Definition initSpace (db : Data.DB) (spaceID : string)
    (getSampleIssues : list Issue) : Result Data.DB :=
  match Data.space db !! spaceID with
  | Some _ => Ok db
  | None =>
      let* db1 :=
        match Data.space db !! sampleSpaceID with
        | None => seedSampleSpace db getSampleIssues
        | Some _ => Ok db
        end in
      let* db2 := Data.insertSpace db1 spaceID initialVersion in
      Data.copyEntries db2 spaceID sampleSpaceID
  end.
End InitSpace.

End Seed.

(** ** The pull handler, [pages/api/replicache-pull.ts] *)

Module Pull.

Record Cookie : Type := mkCookie {
  version : Z;
  endKey : option string
}.

Record PullRequest : Type := mkPullRequest {
  clientID : string;
  cookie : option Cookie
}.

(** [[key, value, deleted?]] *)
Definition Entry : Type := string * JSONValue * option bool.

Inductive PatchOperation : Type :=
| PatchPut (key : string) (value : JSONValue)
| PatchDel (key : string).

Definition patchKey (op : PatchOperation) : string :=
  match op with
  | PatchPut k _ | PatchDel k => k
  end.

Record PullResponse : Type := mkPullResponse {
  lastMutationID : Z;
  responseCookie : Cookie;
  patch : list PatchOperation
}.

Definition controlKey : string := "control/partialSync".
Definition limit : nat := 3000.

(** The object [{ endKey: responseEndKey }]; a property that is
    [undefined] is left out when the response is serialised. *)
Definition partialSyncValue (responseEndKey : option string) : JSONValue :=
  JObject match responseEndKey with
          | Some k => [("endKey", JString k)]
          | None => []
          end.

(** The loop that fills [resp.patch]; [if (deleted)] holds for [true]
    only. *)
Definition patchOf (e : Entry) : PatchOperation :=
  match e with
  | (key, value, Some true) => PatchDel key
  | (key, value, _) => PatchPut key value
  end.

Section Handler.
(** Three queries of the data module that the handler imports are not
    among the sources; they are taken as they are called. *)
Variable getIssueMeta : Data.DB -> string -> list Entry.
Variable getNonIssueMetaEntries :
  Data.DB -> string -> string -> nat -> list Entry.
Variable getVersion : Data.DB -> string -> Z.

(** The body of the [transact] callback, from the database that
    [createDatabase] and [initSpace] leave. *)
Definition pullTransaction (db : Data.DB) (spaceID : string)
    (pull : PullRequest) : list Entry * option Z * Cookie :=
  match cookie pull with
  | None =>
      let lastMutationID := Data.getLastMutationID db (clientID pull) in
      let entries := getIssueMeta db spaceID in
      let version := getVersion db spaceID in
      (entries, lastMutationID, {| version := version; endKey := Some "" |})
  | Some requestCookie =>
      let lastMutationID := Data.getLastMutationID db (clientID pull) in
      let entries : list Entry :=
        (fun kvd : string * JSONValue * bool =>
           (kvd.1.1, kvd.1.2, Some kvd.2))
          <$> Data.getChangedEntries db spaceID (version requestCookie) in
      let '(entries, responseEndKey) :=
        match endKey requestCookie with
        | Some requestEndKey =>
            let incrementalEntries :=
              getNonIssueMetaEntries db spaceID requestEndKey limit in
            let entries := entries ++ incrementalEntries in
            let initialSyncDone :=
              (List.length incrementalEntries <? limit)%nat in
            let responseEndKey :=
              if initialSyncDone then None
              else (fun e : Entry => e.1.1) <$> last incrementalEntries in
            (entries ++
               [(controlKey, partialSyncValue responseEndKey, None)],
             responseEndKey)
        | None => (entries, None)
        end in
      let version := getVersion db spaceID in
      (entries, lastMutationID,
       {| version := version; endKey := responseEndKey |})
  end.

(** [responseCookie] is always an object, so the fallback of
    [responseCookie ?? 0] is never taken. *)
Definition pull (db : Data.DB) (spaceID : string) (req : PullRequest)
    : PullResponse :=
  let '(entries, lastMutationID, responseCookie) :=
    pullTransaction db spaceID req in
  {| lastMutationID := default 0%Z lastMutationID;
     responseCookie := responseCookie;
     patch := patchOf <$> entries |}.

(** The patch sent for the rows changed since the cursor. *)
Definition changedPatch (db : Data.DB) (spaceID : string) (ver : Z)
    : list PatchOperation :=
  (fun kvd : string * JSONValue * bool =>
     patchOf (kvd.1.1, kvd.1.2, Some kvd.2))
    <$> Data.getChangedEntries db spaceID ver.

End Handler.

End Pull.

(** ** lodash

    [sortBy] and [sortedIndexBy] come from the lodash package.  The keys
    that [frontend/app.tsx] hands them are strings, which JavaScript
    compares code unit by code unit. *)

Module Lodash.

Section WithKey.
Context {A : Type}.
Variable iteratee : A -> string.

(** [sortBy] is a stable sort: elements with equal keys keep their
    relative order.  The result of a stable sort is determined by its
    input, whichever algorithm computes it; here it is an insertion
    sort that puts an element before the first one whose key is not
    smaller. *)
Fixpoint insertBy (x : A) (l : list A) : list A :=
  match l with
  | [] => [x]
  | y :: l' =>
      if String.ltb (iteratee y) (iteratee x)
      then y :: insertBy x l'
      else x :: y :: l'
  end.

Definition sortBy (collection : list A) : list A :=
  foldr insertBy [] collection.

(** The loop of [baseSortedIndexBy]: [mid] is the floor of the mean, a
    key below [value] moves [low] past [mid], any other key moves
    [high] to [mid].  [fuel] bounds the number of rounds. *)
Fixpoint sortedIndexLoop (array : list A) (value : string)
    (fuel low high : nat) : nat :=
  match fuel with
  | O => high
  | S fuel' =>
      if (low <? high)%nat then
        let mid := ((low + high) / 2)%nat in
        match array !! mid with
        | Some a =>
            if String.ltb (iteratee a) value
            then sortedIndexLoop array value fuel' (S mid) high
            else sortedIndexLoop array value fuel' low mid
        | None => high
        end
      else high
  end.

(** The length of the array is more rounds than the search needs (see
    [sortedIndexLoop_fuel]).  lodash caps the result at the largest array
    index, which no index of an array exceeds. *)
Definition sortedIndexBy (array : list A) (value : A) : nat :=
  sortedIndexLoop array (iteratee value)
    (List.length array) 0 (List.length array).

(** [keyLe x y]: the key of [y] is not below the key of [x]. *)
Definition keyLe (x y : A) : Prop :=
  String.ltb (iteratee y) (iteratee x) = false.

Definition keyLt (x y : A) : Prop :=
  String.ltb (iteratee x) (iteratee y) = true.

(** The number of leading elements whose key is below [v]. *)
Fixpoint lowerBound (l : list A) (v : string) : nat :=
  match l with
  | [] => 0
  | y :: l' => if String.ltb (iteratee y) v then S (lowerBound l' v) else 0
  end.

End WithKey.

(** [array.splice(index, 0, x)] and [array.splice(index, 1)] *)
Definition spliceIn {A} (array : list A) (index : nat) (x : A) : list A :=
  take index array ++ x :: drop index array.

Definition spliceOut {A} (array : list A) (index : nat) : list A :=
  take index array ++ drop (S index) array.

End Lodash.

(** ** The reducer of [frontend/app.tsx] *)

Module App.
Import Lodash.

(** [class Filter]: an absent set puts no constraint. *)
Record Filter : Type := mkFilter {
  filter_status : option (list Status);
  filter_priority : option (list Priority)
}.

Definition Filter_filter (f : Filter) (issue : Issue) : bool :=
  let statusOut :=
    match filter_status f with
    | Some s => negb (bool_decide (status issue ∈ s))
    | None => false
    end in
  let priorityOut :=
    match filter_priority f with
    | Some p => negb (bool_decide (priority issue ∈ p))
    | None => false
    end in
  if statusOut then false
  else if priorityOut then false
  else true.

Definition Filter_hasConstraints (f : Filter) : bool :=
  match filter_status f, filter_priority f with
  | None, None => false
  | _, _ => true
  end.

(** [class Filters] *)
Record Filters : Type := mkFilters {
  viewFilter : Filter;
  additionalFilter : Filter
}.

Definition Filters_filter (f : Filters) (issue : Issue) : bool :=
  Filter_filter (viewFilter f) issue
  && Filter_filter (additionalFilter f) issue.

Record State : Type := mkState {
  allIssuesMap : gmap string Issue;
  viewIssueCount : Z;
  filteredIssues : list Issue;
  filters : Filters;
  issueOrder : Order
}.

(** [DiffOperation] of the replicache package. *)
Inductive DiffOperation : Type :=
| DiffAdd (key : string) (newValue : JSONValue)
| DiffDel (key : string) (oldValue : JSONValue)
| DiffChange (key : string) (oldValue newValue : JSONValue).

Inductive Action : Type :=
| ActInit (allIssuesMap : gmap string Issue)
| ActDiff (diff : list DiffOperation)
| ActSetFilters (filters : Filters)
| ActSetIssueOrder (issueOrder : Order).

Definition MAX_SAFE_INTEGER : Z := 9007199254740991%Z.

(** How JavaScript prints an integer when it is concatenated to a
    string: in decimal, with a minus sign when it is negative. *)
Definition numberToString (n : Z) : string :=
  NilZero.string_of_int (Z.to_int n).

(** The inner function [order]: [orderValue] is the local that its
    [switch] sets. *)
Definition orderValue (issueOrder : Order) (issue : Issue) : Z :=
  match issueOrder with
  | CREATED => created issue
  | MODIFIED => modified issue
  end.

Definition order (issueOrder : Order) (issue : Issue) : string :=
  (numberToString (MAX_SAFE_INTEGER - orderValue issueOrder issue)
   ++ "-" ++ id issue)%string.

(** The inner function [filterAndSort]. *)
Definition filterAndSort (filters : Filters) (issueOrder : Order)
    (issues : list Issue) : list Issue :=
  sortBy (order issueOrder) (List.filter (Filters_filter filters) issues).

(** The inner function [countViewIssues]. *)
Definition countViewIssues (filters : Filters) (issues : list Issue) : Z :=
  fold_left
    (fun count issue =>
       if Filter_filter (viewFilter filters) issue then (count + 1)%Z
       else count)
    issues 0%Z.

(** [[...map.values()]]; the order of the values only shows in the
    result of [sortBy] when two of them have the same key. *)
Definition values (m : gmap string Issue) : list Issue :=
  (map_to_list m).*2.

(** The three locals that the [diff] case updates. *)
Record DiffLocals : Type := mkDiffLocals {
  newAllIssuesMap : gmap string Issue;
  newViewIssueCount : Z;
  newFilteredIssues : list Issue
}.

Section Reducer.
(** [issueFromKeyAndValue] of [frontend/issue] is not among the
    sources. *)
Variable issueFromKeyAndValue : string -> JSONValue -> Issue.

Section DiffCase.
Variable filters : Filters.
Variable issueOrder : Order.

(** The part that [add] and [change] share: store the new issue,
    count it, and splice it in at its sorted index. *)
Definition addIssue (acc : DiffLocals) (key : string)
    (newValue : JSONValue) : DiffLocals :=
  let newIssue := issueFromKeyAndValue key newValue in
  {| newAllIssuesMap := <[key := newIssue]> (newAllIssuesMap acc);
     newViewIssueCount :=
       if Filter_filter (viewFilter filters) newIssue
       then (newViewIssueCount acc + 1)%Z
       else newViewIssueCount acc;
     newFilteredIssues :=
       if Filters_filter filters newIssue
       then spliceIn (newFilteredIssues acc)
              (sortedIndexBy (order issueOrder)
                 (newFilteredIssues acc) newIssue)
              newIssue
       else newFilteredIssues acc |}.

(** The part that [del] and [change] share, the map apart: uncount
    the old issue and splice out the element at its sorted index
    when that element has the issue's id. *)
Definition removeIssue (acc : DiffLocals) (key : string)
    (oldValue : JSONValue) : DiffLocals :=
  let oldIssue := issueFromKeyAndValue key oldValue in
  let index :=
    sortedIndexBy (order issueOrder) (newFilteredIssues acc) oldIssue in
  {| newAllIssuesMap := newAllIssuesMap acc;
     newViewIssueCount :=
       if Filter_filter (viewFilter filters) oldIssue
       then (newViewIssueCount acc - 1)%Z
       else newViewIssueCount acc;
     newFilteredIssues :=
       match newFilteredIssues acc !! index with
       | Some found =>
           if decide (id found = id oldIssue)
           then spliceOut (newFilteredIssues acc) index
           else newFilteredIssues acc
       | None => newFilteredIssues acc
       end |}.

Definition deleteKey (acc : DiffLocals) (key : string) : DiffLocals :=
  {| newAllIssuesMap := delete key (newAllIssuesMap acc);
     newViewIssueCount := newViewIssueCount acc;
     newFilteredIssues := newFilteredIssues acc |}.

Definition applyDiffOp (acc : DiffLocals) (diffOp : DiffOperation)
    : DiffLocals :=
  match diffOp with
  | DiffAdd key newValue => addIssue acc key newValue
  | DiffDel key oldValue => deleteKey (removeIssue acc key oldValue) key
  | DiffChange key oldValue newValue =>
      addIssue (removeIssue acc key oldValue) key newValue
  end.
End DiffCase.

Definition reducer (state : State) (action : Action) : State :=
  let filters :=
    match action with
    | ActSetFilters f => f
    | _ => filters state
    end in
  let issueOrder :=
    match action with
    | ActSetIssueOrder o => o
    | _ => issueOrder state
    end in
  match action with
  | ActInit m =>
      let allIssues := values m in
      {| allIssuesMap := m;
         viewIssueCount := countViewIssues filters allIssues;
         filteredIssues := filterAndSort filters issueOrder (values m);
         filters := App.filters state;
         issueOrder := App.issueOrder state |}
  | ActDiff diff =>
      let acc :=
        fold_left (applyDiffOp filters issueOrder) diff
          {| newAllIssuesMap := allIssuesMap state;
             newViewIssueCount := viewIssueCount state;
             newFilteredIssues := filteredIssues state |} in
      {| allIssuesMap := newAllIssuesMap acc;
         viewIssueCount := newViewIssueCount acc;
         filteredIssues := newFilteredIssues acc;
         filters := App.filters state;
         issueOrder := App.issueOrder state |}
  | ActSetFilters f =>
      let allIssues := values (allIssuesMap state) in
      {| allIssuesMap := allIssuesMap state;
         viewIssueCount := countViewIssues filters allIssues;
         filteredIssues := filterAndSort filters issueOrder allIssues;
         filters := f;
         issueOrder := App.issueOrder state |}
  | ActSetIssueOrder o =>
      {| allIssuesMap := allIssuesMap state;
         viewIssueCount := viewIssueCount state;
         filteredIssues := sortBy (order issueOrder) (filteredIssues state);
         filters := App.filters state;
         issueOrder := o |}
  end.

(** [issuePrefix] of [frontend/issue] is not among the sources.  The
    reducer is handed the diffs of [rep.watch(..., { prefix: issuePrefix })]:
    their keys start with it. *)
Variable issuePrefix : string.

Definition isIssueKey (k : string) : Prop :=
  String.prefix issuePrefix k = true.

(** Every key of the map is the key of an issue, and holds an issue that
    was built from it, as the [diff] case stores them. *)
Definition wellKeyed (m : gmap string Issue) : Prop :=
  forall k i,
    m !! k = Some i ->
    isIssueKey k /\ exists v, i = issueFromKeyAndValue k v.

(** A diff operation fits the map: an [add] is for an absent key, a [del]
    and a [change] carry the value that is stored. *)
Definition wfOp (m : gmap string Issue) (op : DiffOperation) : Prop :=
  match op with
  | DiffAdd k _ => isIssueKey k /\ m !! k = None
  | DiffDel k oldValue => m !! k = Some (issueFromKeyAndValue k oldValue)
  | DiffChange k oldValue _ =>
      m !! k = Some (issueFromKeyAndValue k oldValue)
  end.

(** The map after one operation of the [diff] case. *)
Definition mapAfter (m : gmap string Issue) (op : DiffOperation)
    : gmap string Issue :=
  match op with
  | DiffAdd k newValue => <[k := issueFromKeyAndValue k newValue]> m
  | DiffDel k _ => delete k m
  | DiffChange k _ newValue => <[k := issueFromKeyAndValue k newValue]> m
  end.

Fixpoint wfDiff (m : gmap string Issue) (diff : list DiffOperation) : Prop :=
  match diff with
  | [] => True
  | op :: diff' => wfOp m op /\ wfDiff (mapAfter m op) diff'
  end.

(** The states that an [init] and then well-formed [diff]s lead to;
    the filters and the order may change in between. *)
Inductive reachable : State -> Prop :=
| reach_init s0 m :
    wellKeyed m ->
    reachable (reducer s0 (ActInit m))
| reach_diff s diff :
    reachable s -> wfDiff (allIssuesMap s) diff ->
    reachable (reducer s (ActDiff diff))
| reach_setFilters s f :
    reachable s -> reachable (reducer s (ActSetFilters f))
| reach_setIssueOrder s o :
    reachable s -> reachable (reducer s (ActSetIssueOrder o)).

(** [l] lists the issues of [m] that pass the filters, in strictly
    increasing order of their keys. *)
Definition viewOf (f : Filters) (o : Order) (m : gmap string Issue)
    (l : list Issue) : Prop :=
  StronglySorted (keyLt (order o)) l /\
  Permutation l (List.filter (Filters_filter f) (values m)).

End Reducer.

#[global] Instance Issue_eq_dec : EqDecision Issue.
Proof. solve_decision. Defined.

(** What the order key is meant to say: [a] is listed before [b] when it
    is the more recent of the two, or as recent with the smaller id. *)
Definition listedBefore (o : Order) (a b : Issue) : Prop :=
  (orderValue o b < orderValue o a)%Z \/
  (orderValue o a = orderValue o b /\ String.ltb (id a) (id b) = true).

(** The time stamps for which [MAX_SAFE_INTEGER - orderValue] has sixteen
    digits: from 1970 to beyond the year 250000. *)
Definition plainTime (t : Z) : Prop := (0 <= t <= 8007199254740991)%Z.

(** The value of a decimal numeral, most significant digit first. *)
Fixpoint hval (u : Decimal.uint) (acc : N) : N :=
  match u with
  | Decimal.Nil => acc
  | Decimal.D0 d => hval d (10 * acc)
  | Decimal.D1 d => hval d (10 * acc + 1)
  | Decimal.D2 d => hval d (10 * acc + 2)
  | Decimal.D3 d => hval d (10 * acc + 3)
  | Decimal.D4 d => hval d (10 * acc + 4)
  | Decimal.D5 d => hval d (10 * acc + 5)
  | Decimal.D6 d => hval d (10 * acc + 6)
  | Decimal.D7 d => hval d (10 * acc + 7)
  | Decimal.D8 d => hval d (10 * acc + 8)
  | Decimal.D9 d => hval d (10 * acc + 9)
  end%N.

Definition headDigit (u : Decimal.uint) : N :=
  match u with
  | Decimal.Nil | Decimal.D0 _ => 0
  | Decimal.D1 _ => 1 | Decimal.D2 _ => 2 | Decimal.D3 _ => 3
  | Decimal.D4 _ => 4 | Decimal.D5 _ => 5 | Decimal.D6 _ => 6
  | Decimal.D7 _ => 7 | Decimal.D8 _ => 8 | Decimal.D9 _ => 9
  end%N.

Definition tailDigits (u : Decimal.uint) : Decimal.uint :=
  match u with
  | Decimal.Nil => Decimal.Nil
  | Decimal.D0 d | Decimal.D1 d | Decimal.D2 d | Decimal.D3 d | Decimal.D4 d
  | Decimal.D5 d | Decimal.D6 d | Decimal.D7 d | Decimal.D8 d
  | Decimal.D9 d => d
  end.

Definition digitChar (k : N) : ascii := ascii_of_N (48 + k).

(** The characters of a printed number. *)
Definition isDigit (c : ascii) : bool :=
  (48 <=? nat_of_ascii c)%nat && (nat_of_ascii c <=? 57)%nat.

Fixpoint allDigits (s : string) : bool :=
  match s with
  | EmptyString => true
  | String c s' => isDigit c && allDigits s'
  end.

End App.

(** ** Instances for the examples

    A database, the queries and the two functions of [frontend/issue]
    that the examples below run the definitions on. *)

Module Examples.

Fixpoint field (name : string) (fields : list (string * JSONValue))
    : option JSONValue :=
  match fields with
  | [] => None
  | (k, v) :: fields' =>
      if String.eqb k name then Some v else field name fields'
  end.

Definition numberField (name : string) (v : JSONValue) : Z :=
  match v with
  | JObject fields =>
      match field name fields with
      | Some (JNumber n) => n
      | _ => 0%Z
      end
  | _ => 0%Z
  end.

Definition stringField (name : string) (v : JSONValue) : string :=
  match v with
  | JObject fields =>
      match field name fields with
      | Some (JString t) => t
      | _ => ""
      end
  | _ => ""
  end.

Definition issuePrefix : string := "issue/".

(** [key] without the leading [p]. *)
Fixpoint dropPrefix (p key : string) : string :=
  match p, key with
  | String a p', String b key' =>
      if Ascii.eqb a b then dropPrefix p' key' else key
  | _, _ => key
  end.

(** An [issueFromKeyAndValue]: the id is the key without the prefix, the
    other fields are read from the value. *)
Definition issueFromKeyAndValue (key : string) (v : JSONValue) : Issue :=
  {| id := dropPrefix issuePrefix key;
     title := stringField "title" v;
     priority := NONE;
     status := if String.eqb (stringField "status" v) "TODO" then TODO
               else BACKLOG;
     modified := numberField "modified" v;
     created := numberField "created" v |}.

Definition issueValue (t st : string) (m c : Z) : JSONValue :=
  JObject [("title", JString t); ("status", JString st);
           ("modified", JNumber m); ("created", JNumber c)].

(** A [putIssue]: one [put] under the key of the issue. *)
Definition putIssue (issue : Issue) : list Transaction.Call :=
  [Transaction.CallPut ("issue/" ++ id issue)%string
     (issueValue (title issue) "TODO" (modified issue) (created issue))].

Definition emptyDB : Data.DB :=
  {| Data.space := ∅; Data.client := ∅; Data.entry := ∅;
     Data.now := 1000 |}.

Definition sampleIssue : Issue :=
  {| id := "1"; title := "First"; priority := NONE; status := TODO;
     modified := 20; created := 10 |}.

(** A database with one space and one live entry. *)
Definition oneEntryDB : Data.DB :=
  {| Data.space := {[ "s1" := {| Data.space_version := 4;
                                 Data.space_lastmodified := 900 |} ]};
     Data.client := ∅;
     Data.entry := {[ ("s1", "issue/1") :=
                        {| Data.value := issueValue "First" "TODO" 20 10;
                           Data.deleted := false; Data.version := 2;
                           Data.lastmodified := 800 |} ]};
     Data.now := 1000 |}.

Definition noEntries : Data.DB -> string -> list Pull.Entry :=
  fun _ _ => [].
Definition noPage : Data.DB -> string -> string -> nat -> list Pull.Entry :=
  fun _ _ _ _ => [].
Definition versionOf (db : Data.DB) (spaceID : string) : Z :=
  default 0%Z (Data.getCookie db spaceID).

(** Two issues, one at the start of 1970 and one far beyond the plain
    time stamps. *)
Definition epochIssue : Issue :=
  {| id := "a"; title := "Epoch"; priority := NONE; status := TODO;
     modified := 0; created := 0 |}.

Definition farIssue : Issue :=
  {| id := "b"; title := "Far"; priority := NONE; status := TODO;
     modified := 8007199254740992; created := 0 |}.

Definition noFilter : App.Filter :=
  {| App.filter_status := None; App.filter_priority := None |}.

Definition state0 : App.State :=
  {| App.allIssuesMap := ∅; App.viewIssueCount := 0; App.filteredIssues := [];
     App.filters := {| App.viewFilter := noFilter;
                       App.additionalFilter := noFilter |};
     App.issueOrder := MODIFIED |}.

Definition value1 : JSONValue := issueValue "First" "TODO" 20 10.
Definition value1' : JSONValue := issueValue "First, edited" "TODO" 45 10.
Definition value2 : JSONValue := issueValue "Second" "BACKLOG" 30 30.
Definition value3 : JSONValue := issueValue "Third" "TODO" 40 40.

Definition initMap : gmap string Issue :=
  <["issue/1" := issueFromKeyAndValue "issue/1" value1]>
    (<["issue/2" := issueFromKeyAndValue "issue/2" value2]> ∅).

Definition someDiff : list App.DiffOperation :=
  [App.DiffAdd "issue/3" value3;
   App.DiffChange "issue/1" value1 value1';
   App.DiffDel "issue/2" value2].

Definition initialised : App.State :=
  App.reducer issueFromKeyAndValue state0 (App.ActInit initMap).

Definition reached : App.State :=
  App.reducer issueFromKeyAndValue initialised (App.ActDiff someDiff).

(** The same [add] once and twice, for a key that the map has with the
    same value. *)
Definition addAgain : App.Action := App.ActDiff [App.DiffAdd "issue/1" value1].

Definition addedOnce : App.State :=
  App.reducer issueFromKeyAndValue initialised addAgain.

Definition addedTwice : App.State :=
  App.reducer issueFromKeyAndValue addedOnce addAgain.

End Examples.

(** ** JavaScript sets

    A [Set] of enumeration members, as the list of its members in the
    order of their insertion. *)

Module JsSet.

Section WithEq.
Context {A : Type} `{EqDecision A}.

(** [set.add(x)] *)
Definition add (set : list A) (x : A) : list A :=
  if decide (x ∈ set) then set else set ++ [x].

(** [new Set(iterable)] *)
Definition new (iterable : list A) : list A :=
  fold_left add iterable [].

End WithEq.

End JsSet.

(** ** The query parameters and the props of [frontend/app.tsx] *)

Module AppView.
Import App.

(** [s.split(sep)] for a separator of one character. *)
Fixpoint split (sep : ascii) (s : string) : list string :=
  match s with
  | EmptyString => [EmptyString]
  | String c s' =>
      if Ascii.eqb c sep then EmptyString :: split sep s'
      else match split sep s' with
           | piece :: pieces => String c piece :: pieces
           | [] => [String c EmptyString]
           end
  end.

Section GetFilters.
(** [String.prototype.toLowerCase] is the platform's.  The two schemas
    come from [frontend/issue], which is not among the sources: each is
    taken as its [safeParse], with the parsed member on success. *)
Variable toLowerCase : string -> string.
Variable statusEnumSchema : string -> option Status.
Variable priorityEnumSchema : string -> option Priority.

(** A parameter that is [null] or the empty string is falsy. *)
Definition getFilters (view priorityFilter statusFilter : option string)
    : Filters :=
  let viewFilter :=
    match toLowerCase <$> view with
    | Some v =>
        if decide (v = "active")
        then {| filter_status := Some (JsSet.new [IN_PROGRESS; TODO]);
                filter_priority := None |}
        else if decide (v = "backlog")
        then {| filter_status := Some (JsSet.new [BACKLOG]);
                filter_priority := None |}
        else {| filter_status := None; filter_priority := None |}
    | None => {| filter_status := None; filter_priority := None |}
    end in
  let status :=
    match statusFilter with
    | Some statusFilter =>
        if decide (statusFilter = "") then None
        else
          Some (fold_left
                  (fun status s =>
                     match statusEnumSchema s with
                     | Some data =>
                         if match filter_status viewFilter with
                            | None => true
                            | Some allowed => bool_decide (data ∈ allowed)
                            end
                         then JsSet.add status data
                         else status
                     | None => status
                     end)
                  (split "," statusFilter) [])
    | None => None
    end in
  let priority :=
    match priorityFilter with
    | Some priorityFilter =>
        if decide (priorityFilter = "") then None
        else
          match fold_left
                  (fun priority p =>
                     match priorityEnumSchema p with
                     | Some data => JsSet.add priority data
                     | None => priority
                     end)
                  (split "," priorityFilter) [] with
          | [] => None
          | priority => Some priority
          end
    | None => None
    end in
  {| viewFilter := viewFilter;
     additionalFilter :=
       {| filter_status := status; filter_priority := priority |} |}.

End GetFilters.

(** The props [filteredIssuesCount] and [issuesCount] that [App] hands
    [TopFilter]. *)
Definition filteredIssuesCount (state : State) : option nat :=
  if Filter_hasConstraints (additionalFilter (filters state))
  then Some (List.length (filteredIssues state))
  else None.

Definition issuesCount (state : State) : Z := viewIssueCount state.

End AppView.

(** ** [frontend/issue-list.tsx] *)

Module IssueList.

(** [ListData]; the two handlers that it also carries are not read by
    [itemKey]. *)
Record ListData : Type := mkListData {
  issues : list Issue
}.

(** [data.issues[index].id], which throws when the index is not one of
    the array. *)
Definition itemKey (index : nat) (data : ListData) : option string :=
  id <$> issues data !! index.

(** The props [itemCount] and [itemData] that [IssueList] hands
    [FixedSizeList]. *)
Definition itemCount (issues : list Issue) : nat := List.length issues.

Definition itemData (issues : list Issue) : ListData :=
  {| IssueList.issues := issues |}.

End IssueList.

(** ** The filter menu handlers of [TopFilter] *)

Module TopFilter.

(** The array that [onSelectPriority] hands [setPriorityFilterByParam]. *)
Definition onSelectPriority (priorityFilters : option (list Priority))
    (priority : Priority) : list Priority :=
  JsSet.new (default [] priorityFilters ++ [priority]).

(** The array that [onSelectStatus] hands [setStatusFilterByParam]. *)
Definition onSelectStatus (statusFilters : option (list Status))
    (status : Status) : list Status :=
  JsSet.new (default [] statusFilters ++ [status]).

End TopFilter.

(** ** The pull request as a whole, [pages/api/replicache-pull.ts] 37-93 *)

Module Endpoint.

Section Handler.
Variable putIssue : Issue -> list Transaction.Call.
Variable getIssueMeta : Data.DB -> string -> list Pull.Entry.
Variable getNonIssueMetaEntries :
  Data.DB -> string -> string -> nat -> list Pull.Entry.
Variable getVersion : Data.DB -> string -> Z.

(** The callback that the handler passes to [transact], and the response
    that is built from what it returns.  [initSpace] runs before the
    cookie of the request is looked at; when it throws, the callback has
    no result, the destructuring of line 37 has nothing to bind, and no
    response is built.  [createDatabase] comes before [initSpace]: the
    tables of [Data.DB] are the schema that it leaves.  The handler hands
    a second list, of sample comments, to [initSpace]; the function of the
    data module takes the sample issues only. *)
Definition pull (db : Data.DB) (spaceID : string)
    (getSampleIssues : list Issue) (req : Pull.PullRequest)
    : Result (Data.DB * Pull.PullResponse) :=
  let* db1 := Seed.initSpace putIssue db spaceID getSampleIssues in
  Ok (db1,
      Pull.pull getIssueMeta getNonIssueMetaEntries getVersion
        db1 spaceID req).
End Handler.

End Endpoint.

(** ** More instances for the examples *)

Module MoreExamples.

(** [Examples.oneEntryDB] after its entry is deleted at version 5, and
    after the same key is then put at version 6. *)
Definition deletedDB : Data.DB :=
  {| Data.space := {[ "s1" := {| Data.space_version := 4;
                                 Data.space_lastmodified := 900 |} ]};
     Data.client := ∅;
     Data.entry := {[ ("s1", "issue/1") :=
                        {| Data.value := Examples.value1;
                           Data.deleted := true; Data.version := 5;
                           Data.lastmodified := 800 |} ]};
     Data.now := 1000 |}.

Definition writtenAgainDB : Data.DB :=
  {| Data.space := {[ "s1" := {| Data.space_version := 4;
                                 Data.space_lastmodified := 900 |} ]};
     Data.client := ∅;
     Data.entry := {[ ("s1", "issue/1") :=
                        {| Data.value := Examples.value1';
                           Data.deleted := false; Data.version := 6;
                           Data.lastmodified := 1000 |} ]};
     Data.now := 1000 |}.

(** A database in which the sample space is seeded: one live entry and
    one deleted one. *)
Definition seededDB : Data.DB :=
  {| Data.space :=
       {[ "sampleSpaceID" := {| Data.space_version := 1;
                                Data.space_lastmodified := 900 |} ]};
     Data.client := ∅;
     Data.entry :=
       <[("sampleSpaceID", "issue/1") :=
           {| Data.value := Examples.value1; Data.deleted := false;
              Data.version := 1; Data.lastmodified := 900 |}]>
         {[ ("sampleSpaceID", "issue/2") :=
              {| Data.value := Examples.value2; Data.deleted := true;
                 Data.version := 3; Data.lastmodified := 900 |} ]};
     Data.now := 1000 |}.

(** A script that writes two keys, and an incremental pull request. *)
Definition writes : list Transaction.Call :=
  [Transaction.CallPut "issue/2" Examples.value2;
   Transaction.CallDel "issue/1"].

Definition incremental : Pull.PullRequest :=
  {| Pull.clientID := "c2";
     Pull.cookie := Some {| Pull.version := 3; Pull.endKey := None |} |}.

(** The filters of the view [active]. *)
Definition activeFilters : App.Filters :=
  {| App.viewFilter :=
       {| App.filter_status := Some [IN_PROGRESS; TODO];
          App.filter_priority := None |};
     App.additionalFilter := Examples.noFilter |}.

(** Lower case for the letters of ASCII. *)
Definition lowerChar (c : ascii) : ascii :=
  let n := nat_of_ascii c in
  if ((65 <=? n) && (n <=? 90))%nat then ascii_of_nat (n + 32) else c.

Fixpoint toLowerCase (s : string) : string :=
  match s with
  | EmptyString => EmptyString
  | String c s' => String (lowerChar c) (toLowerCase s')
  end.

(** Schemas whose members are spelled as the enumerations are. *)
Definition statusEnumSchema (s : string) : option Status :=
  if decide (s = "BACKLOG") then Some BACKLOG
  else if decide (s = "TODO") then Some TODO
  else if decide (s = "IN_PROGRESS") then Some IN_PROGRESS
  else None.

Definition priorityEnumSchema (s : string) : option Priority :=
  if decide (s = "NONE") then Some NONE
  else if decide (s = "LOW") then Some LOW
  else if decide (s = "MEDIUM") then Some MEDIUM
  else if decide (s = "HIGH") then Some HIGH
  else if decide (s = "URGENT") then Some URGENT
  else None.

Definition parsedFilters (view priorityFilter statusFilter : option string)
    : App.Filters :=
  AppView.getFilters toLowerCase statusEnumSchema priorityEnumSchema
    view priorityFilter statusFilter.

End MoreExamples.

(** * Properties *)

(** ** The SQL helpers *)

Module DataFacts.
Import Data.

Lemma softDelete_idem ver row :
  softDelete ver (softDelete ver row) = softDelete ver row.
Proof. reflexivity. Qed.

(** The rows an upsert statement leaves. *)
Lemma upsert_other_space sid ver nowv entries :
  forall (e : gmap (string * string) EntryRow) (s k : string),
  s <> sid ->
  fold_left (upsertEntry sid ver nowv) entries e !! (s, k) = e !! (s, k).
Proof.
  induction entries as [|[k0 v0] entries IH]; intros e s k Hs; simpl;
    [reflexivity|].
  rewrite IH by assumption. unfold upsertEntry; simpl.
  apply lookup_insert_ne. congruence.
Qed.

Lemma upsert_other_key sid ver nowv entries :
  forall (e : gmap (string * string) EntryRow) (k : string),
  k ∉ entries.*1 ->
  fold_left (upsertEntry sid ver nowv) entries e !! (sid, k) = e !! (sid, k).
Proof.
  induction entries as [|[k0 v0] entries IH]; intros e k Hk; simpl;
    [reflexivity|].
  simpl in Hk. apply not_elem_of_cons in Hk as [Hne Hk].
  rewrite IH by assumption. unfold upsertEntry; simpl.
  apply lookup_insert_ne. congruence.
Qed.

Lemma upsert_this_key sid ver nowv entries :
  forall (e : gmap (string * string) EntryRow) (k : string) v,
  NoDup (entries.*1) -> (k, v) ∈ entries ->
  fold_left (upsertEntry sid ver nowv) entries e !! (sid, k)
  = Some (putRow v ver nowv).
Proof.
  induction entries as [|[k0 v0] entries IH]; intros e k v Hnd Hin.
  - apply elem_of_nil in Hin as [].
  - simpl in Hnd. apply NoDup_cons in Hnd as [Hfresh Hnd].
    apply elem_of_cons in Hin as [Heq|Hin]; simpl.
    + inversion Heq; subst k0 v0.
      rewrite upsert_other_key by assumption.
      unfold upsertEntry; simpl. apply lookup_insert_eq.
    + apply IH; assumption.
Qed.

(** The rows a soft-delete statement leaves. *)
Lemma softDelete_fold_lookup sid ver (keys : list string) :
  forall (e : gmap (string * string) EntryRow) (s k : string),
  fold_left (fun e k => alter (softDelete ver) (sid, k) e) keys e !! (s, k)
  = if decide (s = sid /\ k ∈ keys)
    then softDelete ver <$> e !! (s, k)
    else e !! (s, k).
Proof.
  induction keys as [|k0 keys IH]; intros e s k; simpl.
  - destruct (decide _) as [[_ H]|]; [|reflexivity].
    apply elem_of_nil in H as [].
  - rewrite IH, lookup_alter.
    destruct (decide ((sid, k0) = (s, k))) as [Heq|Hne].
    + injection Heq as <- <-.
      rewrite (decide_True (P := sid = sid /\ k0 ∈ k0 :: keys))
        by (split; [reflexivity | left]).
      destruct (decide (sid = sid /\ k0 ∈ keys));
        [destruct (e !! (sid, k0))|]; reflexivity.
    + destruct (decide (s = sid /\ k ∈ keys)) as [[Hs Hin]|Hn].
      * rewrite decide_True by (split; [assumption | right; assumption]).
        reflexivity.
      * rewrite decide_False; [reflexivity|].
        intros [Hs Hin]. apply elem_of_cons in Hin as [Hk|Hin];
          [apply Hne; congruence | apply Hn; split; assumption].
Qed.

Lemma putEntries_empty db sid ver : putEntries db sid [] ver = Ok db.
Proof. reflexivity. Qed.

Lemma delEntries_empty db sid ver : delEntries db sid [] ver = Ok db.
Proof. reflexivity. Qed.

Lemma withEntry_id db : withEntry db (entry db) = db.
Proof. destruct db; reflexivity. Qed.

Lemma delEntries_Ok db sid keys ver :
  delEntries db sid keys ver
  = Ok (withEntry db
          (fold_left (fun e k => alter (softDelete ver) (sid, k) e)
                     keys (entry db))).
Proof. destruct keys; simpl; [rewrite withEntry_id|]; reflexivity. Qed.

Lemma putEntries_Ok db sid entries ver :
  NoDup (entries.*1) ->
  putEntries db sid entries ver
  = Ok (withEntry db
          (fold_left (upsertEntry sid ver (now db)) entries (entry db))).
Proof.
  intros Hnd. destruct entries as [|e entries].
  - simpl. rewrite withEntry_id. reflexivity.
  - unfold putEntries. rewrite decide_True by assumption. reflexivity.
Qed.

End DataFacts.

(** ** The mutation transaction *)

Module TransactionFacts.
Import Transaction.

Lemma spaceID_call db tx c : _spaceID (call db tx c) = _spaceID tx.
Proof.
  destruct c; simpl; unfold del, has, get; simpl;
    try destruct (_cache tx !! key); reflexivity.
Qed.

Lemma version_call db tx c : _version (call db tx c) = _version tx.
Proof.
  destruct c; simpl; unfold del, has, get; simpl;
    try destruct (_cache tx !! key); reflexivity.
Qed.

Lemma spaceID_calls db cs : forall tx, _spaceID (calls db tx cs) = _spaceID tx.
Proof.
  induction cs as [|c cs IH]; intros tx; [reflexivity|].
  change (calls db tx (c :: cs)) with (calls db (call db tx c) cs).
  rewrite IH. apply spaceID_call.
Qed.

Lemma version_calls db cs : forall tx, _version (calls db tx cs) = _version tx.
Proof.
  induction cs as [|c cs IH]; intros tx; [reflexivity|].
  change (calls db tx (c :: cs)) with (calls db (call db tx c) cs).
  rewrite IH. apply version_call.
Qed.

(** What [get] answers, and what it leaves in the overlay. *)
Lemma get_value db tx key :
  (get db tx key).1 =
    match _cache tx !! key with
    | Some e => value e
    | None => Data.getEntry db (_spaceID tx) key
    end.
Proof. unfold get. destruct (_cache tx !! key); reflexivity. Qed.

Lemma get_cache db tx key k :
  _cache (get db tx key).2 !! k =
    match _cache tx !! k with
    | Some e => Some e
    | None =>
        if decide (key = k)
        then Some {| value := Data.getEntry db (_spaceID tx) key;
                     dirty := false |}
        else None
    end.
Proof.
  unfold get. destruct (_cache tx !! key) eqn:E; simpl.
  - destruct (_cache tx !! k) eqn:E'; [reflexivity|].
    destruct (decide (key = k)); [congruence | reflexivity].
  - rewrite lookup_insert. destruct (decide (key = k)) as [->|].
    + rewrite E. reflexivity.
    + destruct (_cache tx !! k); reflexivity.
Qed.

Lemma has_cache db tx key : (has db tx key).2 = (get db tx key).2.
Proof. unfold has. destruct (get db tx key). reflexivity. Qed.

Lemma has_value db tx key :
  (has db tx key).1 = bool_decide (is_Some (get db tx key).1).
Proof.
  unfold has. destruct (get db tx key) as [[v|] tx']; reflexivity.
Qed.

Lemma del_value db tx key : (del db tx key).1 = (has db tx key).1.
Proof. unfold del. destruct (has db tx key). reflexivity. Qed.

Lemma del_cache db tx key k :
  _cache (del db tx key).2 !! k =
    if decide (key = k) then Some {| value := None; dirty := true |}
    else _cache tx !! k.
Proof.
  unfold del. pose proof (has_cache db tx key) as Hh.
  destruct (has db tx key) as [b tx1]; simpl in *. subst tx1.
  rewrite lookup_insert. destruct (decide (key = k)) as [->|Hne];
    [reflexivity|].
  rewrite get_cache. destruct (_cache tx !! k); [reflexivity|].
  destruct (decide (key = k)); [contradiction | reflexivity].
Qed.

Lemma put_cache tx key v k :
  _cache (put tx key v) !! k =
    if decide (key = k) then Some {| value := Some v; dirty := true |}
    else _cache tx !! k.
Proof. unfold put; simpl. apply lookup_insert. Qed.

Lemma sameOrClean_trans a b c :
  sameOrClean a b -> sameOrClean b c -> sameOrClean a c.
Proof.
  intros [->|[-> [v ->]]] [->|[Hb [w ->]]]; unfold sameOrClean; eauto.
Qed.

Lemma call_cache db tx c k :
  match lastWrite k [c] with
  | Some w => _cache (call db tx c) !! k = Some (written w)
  | None => sameOrClean (_cache tx !! k) (_cache (call db tx c) !! k)
  end.
Proof.
  destruct c as [key v|key|key|key]; cbn [lastWrite call].
  - rewrite put_cache. destruct (decide (key = k)); [reflexivity|].
    left; reflexivity.
  - rewrite del_cache. destruct (decide (key = k)); [reflexivity|].
    left; reflexivity.
  - rewrite get_cache. destruct (_cache tx !! k); [left; reflexivity|].
    destruct (decide (key = k)); [right; eauto | left; reflexivity].
  - rewrite has_cache, get_cache.
    destruct (_cache tx !! k); [left; reflexivity|].
    destruct (decide (key = k)); [right; eauto | left; reflexivity].
Qed.

(** Last writer wins in the overlay. *)
Lemma calls_cache db cs k : forall tx,
  match lastWrite k cs with
  | Some w => _cache (calls db tx cs) !! k = Some (written w)
  | None => sameOrClean (_cache tx !! k) (_cache (calls db tx cs) !! k)
  end.
Proof.
  induction cs as [|c cs IH]; intros tx.
  - simpl. left; reflexivity.
  - change (calls db tx (c :: cs)) with (calls db (call db tx c) cs).
    specialize (IH (call db tx c)).
    pose proof (call_cache db tx c k) as Hc.
    change (lastWrite k (c :: cs)) with
      (match lastWrite k cs with
       | Some w => Some w
       | None => lastWrite k [c]
       end).
    destruct (lastWrite k cs) as [w|]; [exact IH|].
    destruct (lastWrite k [c]) as [w|].
    + destruct IH as [->|[Hn _]]; [exact Hc | congruence].
    + eapply sameOrClean_trans; eassumption.
Qed.

(** What [flush] selects from the overlay. *)
Lemma elem_of_dirtyEntries tx k e :
  (k, e) ∈ dirtyEntries tx <-> _cache tx !! k = Some e /\ dirty e = true.
Proof.
  unfold dirtyEntries. rewrite list_elem_of_In, filter_In, <- list_elem_of_In.
  rewrite elem_of_map_to_list. reflexivity.
Qed.

Lemma elem_of_entriesToPut tx k v :
  (k, v) ∈ entriesToPut tx <-> _cache tx !! k = Some (written (Some v)).
Proof.
  unfold entriesToPut. rewrite list_elem_of_omap. split.
  - intros [[k' [w d]] [Hin Hf]]. apply elem_of_dirtyEntries in Hin as [Hc Hd].
    simpl in *. destruct w; [|discriminate]. inversion Hf; subst. exact Hc.
  - intros Hc. exists (k, written (Some v)). split; [|reflexivity].
    apply elem_of_dirtyEntries. split; [assumption | reflexivity].
Qed.

Lemma elem_of_keysToDel tx k :
  k ∈ keysToDel tx <-> _cache tx !! k = Some (written None).
Proof.
  unfold keysToDel. rewrite list_elem_of_fmap. split.
  - intros [[k' [w d]] [-> Hin]].
    apply list_elem_of_In, filter_In in Hin as [Hin Hv].
    apply list_elem_of_In, elem_of_dirtyEntries in Hin as [Hc Hd].
    simpl in *. destruct w; [discriminate|]. subst d. exact Hc.
  - intros Hc. exists (k, written None). split; [reflexivity|].
    apply list_elem_of_In, filter_In. split; [|reflexivity].
    apply list_elem_of_In, elem_of_dirtyEntries.
    split; [assumption | reflexivity].
Qed.

Lemma elem_of_entriesToPut_keys tx k :
  k ∈ (entriesToPut tx).*1 <->
  exists v, _cache tx !! k = Some (written (Some v)).
Proof.
  rewrite list_elem_of_fmap. split.
  - intros [[k' v] [-> Hin]]. exists v. apply elem_of_entriesToPut, Hin.
  - intros [v Hc]. exists (k, v). split; [reflexivity|].
    apply elem_of_entriesToPut, Hc.
Qed.

Lemma putSelection_keys (l : list (string * CacheEntry)) k :
  k ∈ (omap (fun ke : string * CacheEntry =>
               match value ke.2 with
               | Some v => Some (ke.1, v)
               | None => None
               end)
            (List.filter (fun ke => dirty ke.2) l)).*1 ->
  k ∈ l.*1.
Proof.
  induction l as [|[k0 [w d]] l IH]; simpl; [trivial|].
  destruct d; simpl.
  - destruct w; simpl.
    + intros [->|H]%elem_of_cons; [left | right; auto].
    + intros H. right; auto.
  - intros H. right; auto.
Qed.

Lemma entriesToPut_NoDup tx : NoDup (entriesToPut tx).*1.
Proof.
  unfold entriesToPut, dirtyEntries.
  pose proof (NoDup_fst_map_to_list (_cache tx)) as Hnd.
  induction (map_to_list (_cache tx)) as [|[k0 [w d]] l IH]; simpl.
  - constructor.
  - simpl in Hnd. apply NoDup_cons in Hnd as [Hfresh Hnd].
    destruct d; simpl; [|auto].
    destruct w; simpl; [|auto].
    apply NoDup_cons. split; [|auto].
    intros Hin. apply Hfresh. apply putSelection_keys, Hin.
Qed.

(** The database [flush] returns, row by row. *)
Lemma flush_rows db tx :
  exists db',
    flush db tx = Ok db' /\
    Data.space db' = Data.space db /\
    Data.client db' = Data.client db /\
    Data.now db' = Data.now db /\
    forall s k,
      Data.entry db' !! (s, k) =
        if decide (s = _spaceID tx)
        then flushedRow (_version tx) (Data.now db) (_cache tx !! k)
               (Data.entry db !! (s, k))
        else Data.entry db !! (s, k).
Proof.
  unfold flush. rewrite DataFacts.delEntries_Ok. cbn [bindR].
  rewrite DataFacts.putEntries_Ok by apply entriesToPut_NoDup.
  eexists. split; [reflexivity|]. cbn [Data.withEntry Data.space
    Data.client Data.now Data.entry].
  repeat (split; [reflexivity|]).
  intros s k. destruct (decide (s = _spaceID tx)) as [->|Hs].
  - unfold flushedRow.
    destruct (_cache tx !! k) as [[w d]|] eqn:Hc; cbn [dirty value].
    + destruct d.
      * destruct w as [v|].
        -- apply DataFacts.upsert_this_key;
             [apply entriesToPut_NoDup | apply elem_of_entriesToPut, Hc].
        -- rewrite DataFacts.upsert_other_key.
           2:{ rewrite elem_of_entriesToPut_keys. intros [v Hv].
               rewrite Hc in Hv. discriminate. }
           rewrite DataFacts.softDelete_fold_lookup.
           rewrite decide_True; [reflexivity|].
           split; [reflexivity | apply elem_of_keysToDel, Hc].
      * rewrite DataFacts.upsert_other_key.
        2:{ rewrite elem_of_entriesToPut_keys. intros [v Hv].
            rewrite Hc in Hv. discriminate. }
        rewrite DataFacts.softDelete_fold_lookup.
        rewrite decide_False; [reflexivity|].
        intros [_ Hin]. apply elem_of_keysToDel in Hin.
        rewrite Hc in Hin. discriminate.
    + rewrite DataFacts.upsert_other_key.
      2:{ rewrite elem_of_entriesToPut_keys. intros [v Hv].
          rewrite Hc in Hv. discriminate. }
      rewrite DataFacts.softDelete_fold_lookup.
      rewrite decide_False; [reflexivity|].
      intros [_ Hin]. apply elem_of_keysToDel in Hin.
      rewrite Hc in Hin. discriminate.
  - rewrite DataFacts.upsert_other_space by assumption.
    rewrite DataFacts.softDelete_fold_lookup.
    rewrite decide_False; [reflexivity|]. intros [? _]. contradiction.
Qed.

Lemma lastWrite_reads k cs :
  Forall (fun c => isWrite c = false) cs -> lastWrite k cs = None.
Proof.
  induction 1 as [|c cs Hc _ IH]; simpl; [reflexivity|].
  rewrite IH. destruct c; simpl in Hc; try discriminate; reflexivity.
Qed.

Lemma filter_none {A} (f : A -> bool) (l : list A) :
  (forall x, x ∈ l -> f x = false) -> List.filter f l = [].
Proof.
  induction l as [|x l IH]; intros H; simpl; [reflexivity|].
  rewrite (H x) by left. apply IH. intros y Hy. apply H. right; exact Hy.
Qed.

(** C9: [del(key)] returns [true] exactly when [get(key)] just before it
    returns a value, where [get] answers from the key's overlay slot when
    there is one and from the live stored row otherwise.  After the
    delete the slot of the key is dirty and holds no value, so that
    [get] and [has] answer [undefined] and [false], from the overlay
    alone. *)
Theorem del_reports_presence_and_hides_key db tx key :
  let had := (del db tx key).1 in
  let tx' := (del db tx key).2 in
  (had = true <-> is_Some (get db tx key).1) /\
  (get db tx key).1 =
    match _cache tx !! key with
    | Some e => value e
    | None => Data.getEntry db (_spaceID tx) key
    end /\
  _cache tx' !! key = Some {| value := None; dirty := true |} /\
  (get db tx' key).1 = None /\
  (has db tx' key).1 = false /\
  (get db tx' key).2 = tx' /\
  (has db tx' key).2 = tx'.
Proof.
  intros had tx'.
  assert (Hslot : _cache tx' !! key = Some {| value := None; dirty := true |}).
  { subst tx'. rewrite del_cache, decide_True by reflexivity. reflexivity. }
  assert (Hget : get db tx' key = (None, tx')).
  { unfold get. rewrite Hslot. reflexivity. }
  split; [|split; [apply get_value|split; [exact Hslot|]]].
  - subst had. rewrite del_value, has_value. apply bool_decide_eq_true.
  - unfold has. rewrite Hget. simpl. repeat split; reflexivity.
Qed.

(** C10: a transaction that has only served [get] and [has] holds clean
    overlay entries only; [flush] then selects nothing, hands empty
    batches to [delEntries] and [putEntries], which return at once, and
    the database is the one it started from. *)
Theorem read_only_flush_leaves_store db sid cid ver cs :
  Forall (fun c => isWrite c = false) cs ->
  let tx := calls db (new sid cid ver) cs in
  map_Forall (fun _ e => dirty e = false) (_cache tx) /\
  dirtyEntries tx = [] /\
  keysToDel tx = [] /\
  entriesToPut tx = [] /\
  Data.delEntries db sid (keysToDel tx) ver = Ok db /\
  Data.putEntries db sid (entriesToPut tx) ver = Ok db /\
  flush db tx = Ok db.
Proof.
  intros Hreads tx.
  assert (Hclean : map_Forall (fun _ e => dirty e = false) (_cache tx)).
  { intros k e Hk.
    pose proof (calls_cache db cs k (new sid cid ver)) as H.
    rewrite (lastWrite_reads k cs Hreads) in H. fold tx in H.
    rewrite Hk in H. destruct H as [H|[_ [v H]]].
    - simpl in H. rewrite lookup_empty in H. discriminate.
    - inversion H. reflexivity. }
  assert (Hdirty : dirtyEntries tx = []).
  { unfold dirtyEntries. apply filter_none. intros [k e] Hin.
    apply elem_of_map_to_list in Hin. exact (Hclean k e Hin). }
  assert (Hdel : keysToDel tx = []).
  { unfold keysToDel. rewrite Hdirty. reflexivity. }
  assert (Hput : entriesToPut tx = []).
  { unfold entriesToPut. rewrite Hdirty. reflexivity. }
  repeat (split; [assumption|]).
  unfold flush. rewrite Hdel, Hput. repeat split; reflexivity.
Qed.


Lemma read_only_flush_leaves_store_witness :
  Forall (fun c => isWrite c = false) [CallGet "issue/1"; CallHas "issue/9"] /\
  flush Examples.oneEntryDB
    (calls Examples.oneEntryDB (new "s1" "c" 5)
       [CallGet "issue/1"; CallHas "issue/9"])
  = Ok Examples.oneEntryDB.
Proof.
  assert (H : Forall (fun c => isWrite c = false)
                [CallGet "issue/1"; CallHas "issue/9"])
    by (repeat constructor).
  split; [exact H|].
  exact (proj2 (proj2 (proj2 (proj2 (proj2 (proj2
           (read_only_flush_leaves_store Examples.oneEntryDB "s1" "c" 5
              [CallGet "issue/1"; CallHas "issue/9"] H))))))).
Defined.

End TransactionFacts.

(** ** Space initialisation *)

Module SeedFacts.
Import Transaction Seed.

Lemma spaceEntries_lookup (e : gmap (string * string) Data.EntryRow)
    (s k : string) :
  Data.spaceEntries e s !! k = e !! (s, k).
Proof.
  unfold Data.spaceEntries.
  rewrite <- (lookup_map_curry (M1 := gmap string) (M2 := gmap string) e s k).
  destruct (map_curry e !! s); simpl; [reflexivity | apply lookup_empty].
Qed.

Lemma insertSpace_Ok db sid ver db1 :
  Data.insertSpace db sid ver = Ok db1 ->
  Data.space db !! sid = None /\
  db1 = Data.withSpace db
          (<[sid := {| Data.space_version := ver;
                       Data.space_lastmodified := Data.now db |}]>
             (Data.space db)).
Proof.
  unfold Data.insertSpace. destruct (Data.space db !! sid); [discriminate|].
  intros H; inversion H. split; reflexivity.
Qed.

Lemma copyEntries_Ok db sid from db1 :
  Data.copyEntries db sid from = Ok db1 ->
  Data.space db1 = Data.space db /\
  Data.client db1 = Data.client db /\
  forall s k,
    Data.entry db1 !! (s, k) =
      if decide (s = sid)
      then match Data.entry db !! (from, k) with
           | Some row => Some row
           | None => Data.entry db !! (s, k)
           end
      else Data.entry db !! (s, k).
Proof.
  unfold Data.copyEntries. destruct (decide _) as [Hfree|]; [|discriminate].
  intros H; inversion H; subst db1; clear H. simpl.
  repeat (split; [reflexivity|]). intros s k.
  rewrite lookup_union. destruct (decide (s = sid)) as [->|Hne].
  - rewrite (lookup_kmap (pair sid)), spaceEntries_lookup.
    destruct (Data.entry db !! (from, k)) as [row|] eqn:Hrow.
    + rewrite (Hfree k row); [reflexivity|].
      rewrite spaceEntries_lookup. exact Hrow.
    + destruct (Data.entry db !! (sid, k)); reflexivity.
  - assert (Hnone : kmap (M2 := gmap (string * string)) (pair sid)
                      (Data.spaceEntries (Data.entry db) from) !! (s, k)
                    = None).
    { apply lookup_kmap_None; [apply _|]. intros i Hi. congruence. }
    rewrite Hnone. destruct (Data.entry db !! (s, k)); reflexivity.
Qed.

Section WithPutIssue.
Variable putIssue : Issue -> list Call.

Lemma spaceID_seed_calls db issues : forall tx,
  _spaceID (fold_left (fun tx issue => calls db tx (putIssue issue))
                      issues tx) = _spaceID tx.
Proof.
  induction issues as [|i issues IH]; intros tx; simpl; [reflexivity|].
  rewrite IH. apply TransactionFacts.spaceID_calls.
Qed.

(** Seeding the sample space succeeds when it has no row, and only
    writes the sample space. *)
Lemma seedSampleSpace_Ok db issues :
  Data.space db !! sampleSpaceID = None ->
  exists db1,
    seedSampleSpace putIssue db issues = Ok db1 /\
    Data.space db1 =
      <[sampleSpaceID := {| Data.space_version := initialVersion;
                            Data.space_lastmodified := Data.now db |}]>
        (Data.space db) /\
    Data.now db1 = Data.now db /\
    forall s k, s <> sampleSpaceID ->
      Data.entry db1 !! (s, k) = Data.entry db !! (s, k).
Proof.
  intros Habs. unfold seedSampleSpace, Data.insertSpace. rewrite Habs.
  cbn [bindR].
  match goal with |- context [flush ?d ?t] =>
    destruct (TransactionFacts.flush_rows d t)
      as (db1 & Hf & Hsp & _ & Hnow & Hrows);
    pose proof (spaceID_seed_calls d issues
                  (new sampleSpaceID "fake-client-id-for-server-init"
                       initialVersion)) as Hsid
  end.
  exists db1. split; [exact Hf|]. split; [exact Hsp|].
  split; [exact Hnow|]. intros s k Hs. rewrite Hrows.
  rewrite Hsid. simpl. rewrite decide_False by assumption. reflexivity.
Qed.

(** The existence check: an initialised space is left alone. *)
Lemma initSpace_existing db sid issues :
  is_Some (Data.space db !! sid) -> initSpace putIssue db sid issues = Ok db.
Proof. intros [row H]. unfold initSpace. rewrite H. reflexivity. Qed.

Lemma initSpace_space_row db sid issues db1 :
  initSpace putIssue db sid issues = Ok db1 ->
  is_Some (Data.space db1 !! sid).
Proof.
  unfold initSpace. destruct (Data.space db !! sid) as [row|] eqn:Hsid.
  - intros H; inversion H; subst. rewrite Hsid. eauto.
  - destruct (match Data.space db !! sampleSpaceID with
              | Some _ => Ok db
              | None => seedSampleSpace putIssue db issues
              end) as [d1|]; cbn [bindR]; [|discriminate].
    destruct (Data.insertSpace d1 sid initialVersion) as [d2|] eqn:Hins;
      cbn [bindR]; [|discriminate].
    intros Hcopy. apply copyEntries_Ok in Hcopy as (Hsp & _).
    apply insertSpace_Ok in Hins as [_ ->]. rewrite Hsp. simpl.
    rewrite lookup_insert_eq. eauto.
Qed.

(** Running [initSpace] a second time changes nothing, whatever the
    first run did: after a run that completed the space has its row and
    the second run returns at the existence check; a run that failed
    fails again. *)
Lemma initSpace_idempotent db sid issues :
  (let* db1 := initSpace putIssue db sid issues in
   initSpace putIssue db1 sid issues)
  = initSpace putIssue db sid issues.
Proof.
  destruct (initSpace putIssue db sid issues) as [db1|e] eqn:H;
    cbn [bindR]; [|reflexivity].
  apply initSpace_existing. eapply initSpace_space_row, H.
Qed.

(** A space other than the sample space, without row and without
    entries: the run completes, the space gets one row at the initial
    version, and its entries are those of the sample space. *)
Lemma initSpace_fresh db sid issues :
  sid <> sampleSpaceID ->
  Data.space db !! sid = None ->
  (forall k, Data.entry db !! (sid, k) = None) ->
  exists db1,
    initSpace putIssue db sid issues = Ok db1 /\
    Data.space db1 !! sid =
      Some {| Data.space_version := initialVersion;
              Data.space_lastmodified := Data.now db |} /\
    is_Some (Data.space db1 !! sampleSpaceID) /\
    forall k,
      Data.entry db1 !! (sid, k) = Data.entry db1 !! (sampleSpaceID, k).
Proof.
  intros Hne Hsid Hrows. unfold initSpace. rewrite Hsid.
  assert (exists d1,
             match Data.space db !! sampleSpaceID with
             | Some _ => Ok db
             | None => seedSampleSpace putIssue db issues
             end = Ok d1 /\
             Data.space d1 !! sid = None /\
             is_Some (Data.space d1 !! sampleSpaceID) /\
             Data.now d1 = Data.now db /\
             forall k, Data.entry d1 !! (sid, k) = None)
    as (d1 & -> & Hsid1 & Hsample1 & Hnow1 & Hrows1).
  { destruct (Data.space db !! sampleSpaceID) as [row|] eqn:Hs.
    - exists db. rewrite Hs. eauto 6.
    - destruct (seedSampleSpace_Ok db issues Hs)
        as (d1 & Hseed & Hsp & Hnow & Hent).
      exists d1. split; [exact Hseed|]. rewrite Hsp.
      rewrite lookup_insert_ne by congruence.
      rewrite lookup_insert_eq. split; [exact Hsid|].
      split; [eauto|]. split; [exact Hnow|].
      intros k. rewrite Hent by assumption. apply Hrows. }
  cbn [bindR]. unfold Data.insertSpace. rewrite Hsid1. cbn [bindR].
  unfold Data.copyEntries. rewrite decide_True.
  2:{ intros k row _. simpl. apply Hrows1. }
  eexists. split; [reflexivity|]. simpl.
  rewrite lookup_insert_eq, Hnow1. split; [reflexivity|].
  split.
  { rewrite lookup_insert_ne by congruence. exact Hsample1. }
  intros k. rewrite !lookup_union.
  rewrite (lookup_kmap (pair sid)), spaceEntries_lookup.
  assert (Hnone : kmap (M2 := gmap (string * string)) (pair sid)
                    (Data.spaceEntries (Data.entry d1) sampleSpaceID)
                    !! (sampleSpaceID, k) = None).
  { apply lookup_kmap_None; [apply _|]. intros i Hi. congruence. }
  rewrite Hnone, Hrows1.
  destruct (Data.entry d1 !! (sampleSpaceID, k)); reflexivity.
Qed.

(** The sample space itself cannot be initialised on a database that
    does not have it: the seeding branch inserts its row, and the
    insert of the row of the requested space then repeats it. *)
Lemma initSpace_sample_fails db issues :
  Data.space db !! sampleSpaceID = None ->
  initSpace putIssue db sampleSpaceID issues = Err UniqueViolation.
Proof.
  intros Habs. unfold initSpace. rewrite Habs.
  destruct (seedSampleSpace_Ok db issues Habs) as (d1 & -> & Hsp & _).
  cbn [bindR]. unfold Data.insertSpace. rewrite Hsp, lookup_insert_eq.
  reflexivity.
Qed.
End WithPutIssue.

(** C5, at the space id that the code reserves for the sample space: on
    a database that has no space yet, [initSpace] for ["sampleSpaceID"]
    does not complete.  The seeding branch inserts the row of the sample
    space and the insert of the row of the requested space repeats it, so
    the space gets neither its row nor a copy of the seed entries, however
    often the call is made.  Any other space id is initialised by the
    same call. *)
Theorem initSpace_of_sample_space_fails :
  Data.space Examples.emptyDB !! sampleSpaceID = None /\
  initSpace Examples.putIssue Examples.emptyDB "sampleSpaceID"
    [Examples.sampleIssue] = Err UniqueViolation /\
  (let* db1 := initSpace Examples.putIssue Examples.emptyDB "sampleSpaceID"
                 [Examples.sampleIssue] in
   initSpace Examples.putIssue db1 "sampleSpaceID" [Examples.sampleIssue])
  = Err UniqueViolation /\
  exists db1,
    initSpace Examples.putIssue Examples.emptyDB "s1" [Examples.sampleIssue]
    = Ok db1.
Proof.
  split; [reflexivity|]. split; [|split].
  - apply initSpace_sample_fails. reflexivity.
  - rewrite initSpace_sample_fails by reflexivity. reflexivity.
  - destruct (initSpace_fresh Examples.putIssue Examples.emptyDB "s1"
                [Examples.sampleIssue]) as (db1 & H & _).
    + discriminate.
    + reflexivity.
    + intros k. apply lookup_empty.
    + exists db1. exact H.
Qed.

End SeedFacts.

(** ** The pull handler *)

Module PullFacts.
Import Pull.

Lemma elem_of_getChangedEntries db sid prev k v d :
  (k, v, d) ∈ Data.getChangedEntries db sid prev <->
  exists row,
    Data.entry db !! (sid, k) = Some row /\
    (prev < Data.version row)%Z /\
    v = Data.value row /\ d = Data.deleted row.
Proof.
  unfold Data.getChangedEntries. rewrite list_elem_of_omap. split.
  - intros [[[s k'] row] [Hin Hsel]].
    apply elem_of_map_to_list in Hin. simpl in Hsel.
    destruct (decide (s = sid)) as [->|]; [|discriminate].
    destruct (prev <? Data.version row)%Z eqn:Hlt; [|discriminate].
    inversion Hsel; subst. exists row.
    apply Z.ltb_lt in Hlt. auto.
  - intros (row & Hrow & Hlt & -> & ->).
    exists ((sid, k), row). split; [apply elem_of_map_to_list, Hrow|].
    simpl. rewrite decide_True by reflexivity.
    apply Z.ltb_lt in Hlt. rewrite Hlt. reflexivity.
Qed.

Section Handler.
Variable getIssueMeta : Data.DB -> string -> list Entry.
Variable getNonIssueMetaEntries :
  Data.DB -> string -> string -> nat -> list Entry.
Variable getVersion : Data.DB -> string -> Z.

Abbreviation pull :=
  (Pull.pull getIssueMeta getNonIssueMetaEntries getVersion).

(** C1, as the handler has it: for a cursor with an [endKey], a page
    of fewer than 3000 rows ends the full sync and the response cookie
    has no [endKey]; a full page makes the key of its last row the
    [endKey] of the response cookie.  In both cases the patch is the
    changed rows, then the page, then one put of
    [control/partialSync] that carries the [endKey] of the response
    cookie. *)
Theorem pull_page_cookie_and_control db spaceID cid ver requestEndKey :
  let page := getNonIssueMetaEntries db spaceID requestEndKey limit in
  let resp :=
    pull db spaceID
      {| clientID := cid;
         cookie := Some {| version := ver;
                           endKey := Some requestEndKey |} |} in
  ((List.length page < 3000)%nat /\
     endKey (responseCookie resp) = None
   \/
   (3000 <= List.length page)%nat /\
     exists e, last page = Some e /\
               endKey (responseCookie resp) = Some e.1.1) /\
  patch resp =
    changedPatch db spaceID ver ++ (patchOf <$> page) ++
    [PatchPut "control/partialSync"
       (partialSyncValue (endKey (responseCookie resp)))].
Proof.
  intros page resp. subst resp. unfold Pull.pull, pullTransaction.
  cbn [cookie endKey version clientID]. fold page.
  destruct (List.length page <? limit)%nat eqn:Hlen;
    cbn [responseCookie patch endKey].
  - split.
    + left. apply Nat.ltb_lt in Hlen. split; [exact Hlen | reflexivity].
    + rewrite !fmap_app, <- list_fmap_compose, <- app_assoc. reflexivity.
  - split.
    + right. apply Nat.ltb_ge in Hlen. split; [exact Hlen|].
      destruct (last page) as [e|] eqn:Hlast; [eauto|].
      apply last_None in Hlast. rewrite Hlast in Hlen.
      unfold limit in Hlen. simpl in Hlen. lia.
    + rewrite !fmap_app, <- list_fmap_compose, <- app_assoc. reflexivity.
Qed.

(** What the handler does with the results of [getIssueMeta] and
    [getVersion] when the request has no cookie: the patch is one
    operation for each row, in the same order and under the same key,
    with nothing appended, and the response cookie has the version that
    [getVersion] gives and the empty [endKey]. *)
Lemma pull_without_cookie db spaceID cid :
  let resp := pull db spaceID {| clientID := cid; cookie := None |} in
  patch resp = patchOf <$> getIssueMeta db spaceID /\
  patchKey <$> patch resp =
    (fun e : Entry => e.1.1) <$> getIssueMeta db spaceID /\
  Forall (fun op =>
            patchKey op
            ∈ (fun e : Entry => e.1.1) <$> getIssueMeta db spaceID)
         (patch resp) /\
  responseCookie resp =
    {| version := getVersion db spaceID; endKey := Some "" |}.
Proof.
  intros resp. subst resp. unfold Pull.pull, pullTransaction.
  cbn [cookie responseCookie patch].
  assert (Hkeys : patchKey <$> (patchOf <$> getIssueMeta db spaceID) =
                  (fun e : Entry => e.1.1) <$> getIssueMeta db spaceID).
  { rewrite <- list_fmap_compose. apply list_fmap_ext.
    intros _ [[k v] [[]|]] _; reflexivity. }
  split; [reflexivity|]. split; [exact Hkeys|]. split; [|reflexivity].
  rewrite <- Hkeys. apply Forall_forall. intros op Hop.
  apply list_elem_of_fmap. exists op. split; [reflexivity | exact Hop].
Qed.

End Handler.

(** The claim C1 as stated fails on a short page: the page is empty, the
    response cookie has no [endKey], and the patch still ends with the
    control entry. *)
Lemma short_page_still_has_control_entry :
  let page := Examples.noPage Examples.oneEntryDB "s1" "" limit in
  let resp :=
    pull Examples.noEntries Examples.noPage Examples.versionOf
      Examples.oneEntryDB "s1"
      {| clientID := "c";
         cookie := Some {| version := 1; endKey := Some "" |} |} in
  (List.length page < 3000)%nat /\
  endKey (responseCookie resp) = None /\
  last (patch resp) = Some (PatchPut "control/partialSync" (JObject [])) /\
  ~ (PatchPut "control/partialSync" (JObject []) ∈ patch resp ->
     (3000 <= List.length page)%nat).
Proof.
  vm_compute. split; [repeat constructor|]. split; [reflexivity|].
  split; [reflexivity|]. intros H.
  assert (Hle : (3000 <= 0)%nat); [|inversion Hle].
  apply H. right. left.
Qed.

End PullFacts.

(** ** The order of strings *)

Module StringOrder.

Lemma ltb_lt (a b : string) : String.ltb a b = true <-> String_as_OT.lt a b.
Proof.
  unfold String.ltb. rewrite <- String_as_OT.cmp_lt. unfold String_as_OT.cmp.
  destruct (String.compare a b); split; congruence.
Qed.

Lemma ltb_irrefl (a : string) : String.ltb a a = false.
Proof.
  unfold String.ltb.
  assert (H : String.compare a a = Eq)
    by (apply String_as_OT.cmp_eq; reflexivity).
  rewrite H. reflexivity.
Qed.

Lemma ltb_trans (a b c : string) :
  String.ltb a b = true -> String.ltb b c = true -> String.ltb a c = true.
Proof.
  rewrite !ltb_lt. apply String_as_OT.lt_trans.
Qed.

Lemma ltb_asym (a b : string) :
  String.ltb a b = true -> String.ltb b a = false.
Proof.
  intros Hab. destruct (String.ltb b a) eqn:Hba; [|reflexivity].
  pose proof (ltb_trans a b a Hab Hba) as H. rewrite ltb_irrefl in H.
  discriminate.
Qed.

(** Two strings neither of which is below the other are the same. *)
Lemma ltb_total (a b : string) :
  String.ltb a b = false -> String.ltb b a = false -> a = b.
Proof.
  unfold String.ltb. rewrite (String.compare_antisym b a).
  destruct (String.compare a b) eqn:H; simpl; try discriminate.
  intros _ _. apply String.compare_eq_iff, H.
Qed.

Lemma ltb_le_trans (a b c : string) :
  String.ltb a b = true -> String.ltb c b = false -> String.ltb a c = true.
Proof.
  intros Hab Hcb. destruct (String.ltb a c) eqn:Hac; [reflexivity|].
  destruct (String.ltb c a) eqn:Hca.
  - rewrite (ltb_trans c a b Hca Hab) in Hcb. discriminate.
  - pose proof (ltb_total a c Hac Hca) as Heq. subst c. congruence.
Qed.

Lemma le_ltb_trans (a b c : string) :
  String.ltb b a = false -> String.ltb b c = true -> String.ltb a c = true.
Proof.
  intros Hba Hbc. destruct (String.ltb a b) eqn:Hab.
  - exact (ltb_trans a b c Hab Hbc).
  - rewrite (ltb_total a b Hab Hba). exact Hbc.
Qed.

Lemma le_trans (a b c : string) :
  String.ltb b a = false -> String.ltb c b = false -> String.ltb c a = false.
Proof.
  intros Hba Hcb. destruct (String.ltb c a) eqn:Hca; [|reflexivity].
  rewrite (ltb_le_trans c a b Hca Hba) in Hcb. discriminate.
Qed.

End StringOrder.

(** ** [sortBy], [sortedIndexBy] and [splice] *)

Module LodashFacts.
Import Lodash.

Section WithKey.
Context {A : Type}.
Variable key : A -> string.

Lemma keyLt_keyLe x y : keyLt key x y -> keyLe key x y.
Proof. apply StringOrder.ltb_asym. Qed.

Lemma insertBy_perm x l : Permutation (insertBy key x l) (x :: l).
Proof.
  induction l as [|y l IH]; simpl; [reflexivity|].
  destruct (String.ltb (key y) (key x)); [|reflexivity].
  rewrite IH. apply perm_swap.
Qed.

Lemma sortBy_perm l : Permutation (sortBy key l) l.
Proof.
  induction l as [|x l IH]; simpl; [reflexivity|].
  rewrite insertBy_perm. constructor. exact IH.
Qed.

Lemma insertBy_sorted x l :
  StronglySorted (keyLe key) l -> StronglySorted (keyLe key) (insertBy key x l).
Proof.
  induction 1 as [|y l Hl IH Hy]; simpl.
  - repeat constructor.
  - destruct (String.ltb (key y) (key x)) eqn:Hyx.
    + constructor; [exact IH|].
      eapply Permutation_Forall; [symmetry; apply insertBy_perm|].
      constructor; [|exact Hy]. apply StringOrder.ltb_asym, Hyx.
    + constructor; [constructor; assumption|].
      constructor; [exact Hyx|].
      eapply Forall_impl; [exact Hy|]. intros z Hz.
      unfold keyLe in *. eapply StringOrder.le_trans; eassumption.
Qed.

Lemma sortBy_sorted l : StronglySorted (keyLe key) (sortBy key l).
Proof.
  induction l as [|x l IH]; simpl; [constructor|].
  apply insertBy_sorted, IH.
Qed.

(** Splicing at the lower bound is the insertion of [sortBy]. *)
Lemma spliceIn_lowerBound x l :
  spliceIn l (lowerBound key l (key x)) x = insertBy key x l.
Proof.
  induction l as [|y l IH]; simpl; [reflexivity|].
  destruct (String.ltb (key y) (key x)); [|reflexivity].
  unfold spliceIn in *. simpl. rewrite IH. reflexivity.
Qed.

Lemma lowerBound_le l v : lowerBound key l v <= List.length l.
Proof.
  induction l as [|y l IH]; simpl; [lia|].
  destruct (String.ltb (key y) v); simpl; lia.
Qed.

Lemma lowerBound_below l v : forall j a,
  j < lowerBound key l v -> l !! j = Some a -> String.ltb (key a) v = true.
Proof.
  induction l as [|y l IH]; intros j a Hj Hl; simpl in *; [lia|].
  destruct (String.ltb (key y) v) eqn:Hy; [|lia].
  destruct j as [|j]; simpl in Hl.
  - inversion Hl; subst. exact Hy.
  - apply (IH j); [lia | exact Hl].
Qed.

Lemma lowerBound_above l v :
  StronglySorted (keyLe key) l ->
  forall j a,
    lowerBound key l v <= j -> l !! j = Some a -> String.ltb (key a) v = false.
Proof.
  induction 1 as [|y l Hl IH Hy]; intros j a Hj Hlk; simpl in *;
    [discriminate|].
  destruct (String.ltb (key y) v) eqn:Hyv.
  - destruct j as [|j]; [lia|]. apply (IH j); [lia | exact Hlk].
  - destruct j as [|j]; simpl in Hlk.
    + inversion Hlk; subst. exact Hyv.
    + assert (Ha : keyLe key y a).
      { rewrite Forall_forall in Hy. apply Hy.
        eapply list_elem_of_lookup_2, Hlk. }
      unfold keyLe in Ha. eapply StringOrder.le_trans; eassumption.
Qed.

(** The binary search finds the lower bound of a sorted array. *)
Lemma sortedIndexLoop_sorted l v :
  StronglySorted (keyLe key) l ->
  forall fuel low high,
    low <= lowerBound key l v <= high -> high <= List.length l ->
    high - low <= fuel ->
    sortedIndexLoop key l v fuel low high = lowerBound key l v.
Proof.
  intros Hs. induction fuel as [|fuel IH]; intros low high Hlb Hhi Hfuel.
  - cbn [sortedIndexLoop]. lia.
  - cbn [sortedIndexLoop]. destruct (low <? high)%nat eqn:Hlt.
    2:{ apply Nat.ltb_ge in Hlt. lia. }
    apply Nat.ltb_lt in Hlt.
    assert (Hmid : low <= (low + high) / 2 < high).
    { pose proof (Nat.div_mod_eq (low + high) 2).
      pose proof (Nat.mod_upper_bound (low + high) 2). lia. }
    destruct (lookup_lt_is_Some_2 l ((low + high) / 2)) as [a Ha]; [lia|].
    rewrite Ha. destruct (String.ltb (key a) v) eqn:Hav.
    + apply IH; [|lia|lia].
      destruct (le_lt_dec (lowerBound key l v) ((low + high) / 2)) as [Hle|Hgt];
        [|lia].
      rewrite (lowerBound_above l v Hs _ a Hle Ha) in Hav. discriminate.
    + apply IH; [|lia|lia].
      destruct (le_lt_dec (lowerBound key l v) ((low + high) / 2)) as [Hle|Hgt];
        [lia|].
      rewrite (lowerBound_below l v _ a Hgt Ha) in Hav. discriminate.
Qed.

Lemma sortedIndexBy_sorted l x :
  StronglySorted (keyLe key) l ->
  sortedIndexBy key l x = lowerBound key l (key x).
Proof.
  intros Hs. unfold sortedIndexBy. apply sortedIndexLoop_sorted.
  - exact Hs.
  - pose proof (lowerBound_le l (key x)). lia.
  - lia.
  - lia.
Qed.

(** The rounds that [sortedIndexBy] allows are enough on every array,
    sorted or not: more fuel does not change the index. *)
Lemma sortedIndexLoop_fuel l v : forall fuel fuel' low high,
  high - low <= fuel -> high - low <= fuel' -> high <= List.length l ->
  sortedIndexLoop key l v fuel low high
  = sortedIndexLoop key l v fuel' low high.
Proof.
  induction fuel as [|fuel IH]; intros fuel' low high H1 H2 Hhi.
  - destruct fuel'; cbn [sortedIndexLoop]; [reflexivity|].
    destruct (low <? high)%nat eqn:Hlt; [|reflexivity].
    apply Nat.ltb_lt in Hlt. lia.
  - destruct fuel' as [|fuel']; cbn [sortedIndexLoop].
    + destruct (low <? high)%nat eqn:Hlt; [|reflexivity].
      apply Nat.ltb_lt in Hlt. lia.
    + destruct (low <? high)%nat eqn:Hlt; [|reflexivity].
      apply Nat.ltb_lt in Hlt.
      assert (Hmid : low <= (low + high) / 2 < high).
      { pose proof (Nat.div_mod_eq (low + high) 2).
        pose proof (Nat.mod_upper_bound (low + high) 2). lia. }
      destruct (l !! ((low + high) / 2)); [|reflexivity].
      destruct (String.ltb (key a) v); apply IH; lia.
Qed.

(** Strictly sorted lists. *)
Lemma sorted_strict l :
  StronglySorted (keyLe key) l -> NoDup (key <$> l) ->
  StronglySorted (keyLt key) l.
Proof.
  induction 1 as [|y l Hl IH Hy]; intros Hnd; [constructor|].
  simpl in Hnd. apply NoDup_cons in Hnd as [Hfresh Hnd].
  constructor; [apply IH, Hnd|].
  rewrite Forall_forall in Hy |- *. intros z Hz. specialize (Hy z Hz).
  unfold keyLe, keyLt in *.
  destruct (String.ltb (key y) (key z)) eqn:Hyz; [reflexivity|].
  exfalso. apply Hfresh. rewrite (StringOrder.ltb_total _ _ Hyz Hy).
  apply list_elem_of_fmap. exists z. split; [reflexivity | exact Hz].
Qed.

Lemma strict_sorted_le l :
  StronglySorted (keyLt key) l -> StronglySorted (keyLe key) l.
Proof.
  induction 1 as [|y l Hl IH Hy]; constructor; [exact IH|].
  eapply Forall_impl; [exact Hy|]. intros z. apply keyLt_keyLe.
Qed.

Lemma strict_NoDup l : StronglySorted (keyLt key) l -> NoDup (key <$> l).
Proof.
  induction 1 as [|y l Hl IH Hy]; simpl; constructor; [|exact IH].
  intros Hin. apply list_elem_of_fmap in Hin as [z [Hk Hz]].
  rewrite Forall_forall in Hy. specialize (Hy z Hz). unfold keyLt in Hy.
  rewrite Hk, StringOrder.ltb_irrefl in Hy. discriminate.
Qed.

(** A strictly sorted list is determined by its elements. *)
Lemma strict_unique l1 : forall l2,
  StronglySorted (keyLt key) l1 -> StronglySorted (keyLt key) l2 ->
  Permutation l1 l2 -> l1 = l2.
Proof.
  induction l1 as [|x l1 IH]; intros l2 H1 H2 Hp.
  - apply Permutation_nil in Hp. congruence.
  - destruct l2 as [|y l2].
    { symmetry in Hp. apply Permutation_nil in Hp. discriminate. }
    inversion H1 as [|? ? H1' Hx]; inversion H2 as [|? ? H2' Hy]; subst.
    assert (Hxy : x = y).
    { assert (Hx2 : x ∈ y :: l2) by (rewrite <- Hp; left).
      assert (Hy1 : y ∈ x :: l1) by (rewrite Hp; left).
      apply elem_of_cons in Hx2 as [?|Hx2]; [assumption|].
      apply elem_of_cons in Hy1 as [?|Hy1]; [congruence|].
      rewrite Forall_forall in Hx, Hy.
      specialize (Hx y Hy1). specialize (Hy x Hx2). unfold keyLt in *.
      rewrite (StringOrder.ltb_asym _ _ Hx) in Hy. discriminate. }
    subst y. f_equal. apply IH; [assumption..|].
    eapply Permutation_cons_inv, Hp.
Qed.

Lemma insertBy_strict x l :
  StronglySorted (keyLt key) l -> key x ∉ key <$> l ->
  StronglySorted (keyLt key) (insertBy key x l).
Proof.
  intros Hs Hfresh. apply sorted_strict.
  - apply insertBy_sorted, strict_sorted_le, Hs.
  - rewrite insertBy_perm. simpl. apply NoDup_cons.
    split; [exact Hfresh | apply strict_NoDup, Hs].
Qed.

(** An element of a strictly sorted list sits at its lower bound. *)
Lemma lowerBound_found l x :
  StronglySorted (keyLt key) l -> x ∈ l ->
  l !! lowerBound key l (key x) = Some x.
Proof.
  induction 1 as [|y l Hl IH Hy]; intros Hin.
  - apply elem_of_nil in Hin as [].
  - simpl. apply elem_of_cons in Hin as [->|Hin].
    + rewrite StringOrder.ltb_irrefl. reflexivity.
    + rewrite Forall_forall in Hy. specialize (Hy x Hin). unfold keyLt in Hy.
      rewrite Hy. simpl. apply IH, Hin.
Qed.

Lemma spliceOut_perm (l : list A) i x :
  l !! i = Some x -> Permutation l (x :: spliceOut l i).
Proof.
  intros Hl. unfold spliceOut.
  rewrite <- (take_drop_middle l i x Hl) at 1.
  symmetry. apply Permutation_middle.
Qed.

Lemma spliceOut_sorted (R : A -> A -> Prop) (l : list A) : forall i,
  StronglySorted R l -> StronglySorted R (spliceOut l i).
Proof.
  induction l as [|y l IH]; intros i Hs.
  - unfold spliceOut. rewrite take_nil, drop_nil. constructor.
  - inversion Hs as [|? ? Hl Hy]; subst. destruct i as [|i].
    + unfold spliceOut. simpl. rewrite drop_0. exact Hl.
    + unfold spliceOut in *. simpl. constructor; [apply IH, Hl|].
      apply Forall_app. split; [apply Forall_take | apply Forall_drop];
        exact Hy.
Qed.
End WithKey.

End LodashFacts.

(** ** The order key of the reducer *)

Module OrderKeyFacts.
Import Decimal App.

Lemma of_uint_acc_hval d : forall acc,
  Npos (Pos.of_uint_acc d acc) = hval d (Npos acc).
Proof.
  induction d; intros acc; simpl; try reflexivity; rewrite IHd; f_equal; lia.
Qed.

Lemma of_uint_hval d : Pos.of_uint d = hval d 0.
Proof.
  induction d; simpl; try reflexivity; try exact IHd;
    rewrite of_uint_acc_hval; reflexivity.
Qed.

Lemma hval_split d : forall acc,
  hval d acc = (acc * 10 ^ N.of_nat (nb_digits d) + hval d 0)%N.
Proof.
  induction d; intros acc; cbn [hval nb_digits];
    try (rewrite N.pow_0_r; lia);
    match goal with
    | |- hval d ?a = (_ + hval d ?b)%N => rewrite (IHd a), (IHd b)
    end;
    rewrite Nat2N.inj_succ, N.pow_succ_r'; lia.
Qed.

Lemma hval_bound d : (hval d 0 < 10 ^ N.of_nat (nb_digits d))%N.
Proof.
  induction d; cbn [hval nb_digits];
    try (rewrite N.pow_0_r; lia);
    rewrite hval_split, Nat2N.inj_succ, N.pow_succ_r' by lia; lia.
Qed.

(** A numeral that is not [Nil], as its first digit and the rest. *)
Lemma uint_view u :
  u <> Nil ->
  (headDigit u < 10)%N /\
  NilEmpty.string_of_uint u =
    String (digitChar (headDigit u)) (NilEmpty.string_of_uint (tailDigits u)) /\
  (forall acc, hval u acc = hval (tailDigits u) (10 * acc + headDigit u)) /\
  nb_digits u = S (nb_digits (tailDigits u)).
Proof.
  destruct u; intros H; try congruence;
    (split; [reflexivity|]); (split; [reflexivity|]);
    (split; [|reflexivity]); intros acc; cbn [hval tailDigits headDigit];
    f_equal; lia.
Qed.

Lemma N_compare_add_l (a b c : N) :
  N.compare (a + b) (a + c) = N.compare b c.
Proof.
  destruct (N.compare_spec b c) as [E|L|G].
  - subst. apply N.compare_refl.
  - apply N.compare_lt_iff. lia.
  - apply N.compare_gt_iff. lia.
Qed.

Lemma digitChar_compare k j :
  (k < 10)%N -> (j < 10)%N ->
  Ascii.compare (digitChar k) (digitChar j) = N.compare k j.
Proof.
  intros Hk Hj. unfold Ascii.compare, digitChar.
  rewrite !N_ascii_embedding by lia.
  apply N_compare_add_l.
Qed.

Lemma string_of_uint_length u :
  String.length (NilEmpty.string_of_uint u) = nb_digits u.
Proof. induction u; simpl; congruence. Qed.

(** Numerals with as many digits compare as their values do. *)
Lemma string_of_uint_compare n : forall u v,
  nb_digits u = n -> nb_digits v = n ->
  String.compare (NilEmpty.string_of_uint u) (NilEmpty.string_of_uint v)
  = N.compare (hval u 0) (hval v 0).
Proof.
  induction n as [|n IH]; intros u v Hu Hv.
  - apply nb_digits_0 in Hu, Hv. subst. reflexivity.
  - assert (Hun : u <> Nil) by (apply nb_digits_n0; lia).
    assert (Hvn : v <> Nil) by (apply nb_digits_n0; lia).
    destruct (uint_view u Hun) as (Hk & -> & Hhu & Hlu).
    destruct (uint_view v Hvn) as (Hj & -> & Hhv & Hlv).
    cbn [String.compare]. rewrite digitChar_compare by assumption.
    rewrite Hhu, Hhv, (hval_split (tailDigits u)), (hval_split (tailDigits v)).
    assert (Hnu : nb_digits (tailDigits u) = n) by lia.
    assert (Hnv : nb_digits (tailDigits v) = n) by lia.
    rewrite (IH _ _ Hnu Hnv), Hnu, Hnv.
    pose proof (hval_bound (tailDigits u)) as Bu.
    pose proof (hval_bound (tailDigits v)) as Bv.
    rewrite Hnu in Bu. rewrite Hnv in Bv.
    set (P := (10 ^ N.of_nat n)%N) in *.
    set (x := hval (tailDigits u) 0) in *.
    set (y := hval (tailDigits v) 0) in *.
    destruct (N.compare_spec (headDigit u) (headDigit v)) as [E|L|G].
    + rewrite E. symmetry. apply N_compare_add_l.
    + symmetry. apply N.compare_lt_iff. nia.
    + symmetry. apply N.compare_gt_iff. nia.
Qed.

Lemma compare_refl (s : string) : String.compare s s = Eq.
Proof. apply String_as_OT.cmp_eq. reflexivity. Qed.

(** Strings that start with runs of the same length are ordered by the
    runs and, when these are the same, by what follows them. *)
Lemma compare_app (s1 : string) : forall s2 r1 r2,
  String.length s1 = String.length s2 ->
  String.compare (s1 ++ r1) (s2 ++ r2) =
    match String.compare s1 s2 with
    | Eq => String.compare r1 r2
    | c => c
    end.
Proof.
  induction s1 as [|c1 s1 IH]; intros [|c2 s2] r1 r2 Hlen;
    simpl in Hlen; try discriminate.
  - reflexivity.
  - change (String.compare (String c1 (s1 ++ r1)) (String c2 (s2 ++ r2)) =
            match String.compare (String c1 s1) (String c2 s2) with
            | Eq => String.compare r1 r2
            | c => c
            end).
    cbn [String.compare]. destruct (Ascii.compare c1 c2); [|reflexivity..].
    apply IH. lia.
Qed.

(** Printed numbers of sixteen digits. *)
Lemma to_uint_head p : headDigit (Pos.to_uint p) <> 0%N.
Proof.
  pose proof (DecimalPos.Unsigned.to_uint_nonnil p) as Hnil.
  pose proof (DecimalPos.Unsigned.to_uint_nonzero p) as Hzero.
  pose proof (DecimalPos.Unsigned.to_of (Pos.to_uint p)) as Hn.
  rewrite DecimalPos.Unsigned.of_to in Hn. simpl in Hn.
  destruct (Pos.to_uint p) as [|d| | | | | | | | |] eqn:E;
    try discriminate; try congruence.
  exfalso. unfold unorm in Hn. rewrite nzhead_D0 in Hn.
  destruct (nzhead d) eqn:Hd; try (inversion Hn; subst; congruence).
  all: pose proof (nzhead_nonzero d d) as Hnz; congruence.
Qed.

Lemma to_uint_value p : hval (Pos.to_uint p) 0 = Npos p.
Proof. rewrite <- of_uint_hval. apply DecimalPos.Unsigned.of_to. Qed.

Lemma to_uint_sixteen p :
  (10 ^ 15 <= Npos p < 10 ^ 16)%N -> nb_digits (Pos.to_uint p) = 16%nat.
Proof.
  intros [Hlo Hhi].
  pose proof (hval_bound (Pos.to_uint p)) as Hup.
  rewrite to_uint_value in Hup.
  destruct (uint_view (Pos.to_uint p) (DecimalPos.Unsigned.to_uint_nonnil p))
    as (Hk & _ & Hh & Hl).
  pose proof (to_uint_head p) as Hk0.
  pose proof (Hh 0%N) as Hv. rewrite to_uint_value, hval_split in Hv.
  set (n := nb_digits (tailDigits (Pos.to_uint p))) in *.
  assert (Hlow : (10 ^ N.of_nat n <= Npos p)%N) by nia.
  assert (H1 : (15 < N.of_nat (nb_digits (Pos.to_uint p)))%N).
  { apply (N.pow_lt_mono_r_iff 10); lia. }
  assert (H2 : (N.of_nat n < 16)%N).
  { apply (N.pow_lt_mono_r_iff 10); lia. }
  lia.
Qed.

Lemma numberToString_pos p :
  numberToString (Zpos p) = NilEmpty.string_of_uint (Pos.to_uint p).
Proof.
  unfold numberToString, Z.to_int, NilZero.string_of_int,
    NilZero.string_of_uint.
  pose proof (DecimalPos.Unsigned.to_uint_nonnil p) as H.
  destruct (Pos.to_uint p); [congruence | reflexivity..].
Qed.

Lemma numberToString_compare (na nb : Z) (ra rb : string) :
  (10 ^ 15 <= na < 10 ^ 16)%Z -> (10 ^ 15 <= nb < 10 ^ 16)%Z ->
  String.compare (numberToString na ++ "-" ++ ra)
                 (numberToString nb ++ "-" ++ rb)
  = match Z.compare na nb with
    | Eq => String.compare ra rb
    | c => c
    end.
Proof.
  intros Ha Hb.
  destruct na as [|pa|pa]; try lia. destruct nb as [|pb|pb]; try lia.
  rewrite !numberToString_pos.
  assert (Hla : nb_digits (Pos.to_uint pa) = 16%nat)
    by (apply to_uint_sixteen; lia).
  assert (Hlb : nb_digits (Pos.to_uint pb) = 16%nat)
    by (apply to_uint_sixteen; lia).
  rewrite compare_app by (rewrite !string_of_uint_length; congruence).
  rewrite (string_of_uint_compare 16 _ _ Hla Hlb), !to_uint_value.
  change (N.compare (Npos pa) (Npos pb)) with (Z.compare (Zpos pa) (Zpos pb)).
  destruct (Z.compare (Zpos pa) (Zpos pb)); [|reflexivity..].
  change ("-" ++ ra)%string with (String "-" ra).
  change ("-" ++ rb)%string with (String "-" rb).
  cbn [String.compare].
  replace (Ascii.compare "-" "-") with Eq by reflexivity. reflexivity.
Qed.

(** Within the plain time stamps the order key says what it is meant to
    say: the more recent issue first, and of two as recent the one with
    the smaller id. *)
Lemma order_listedBefore o a b :
  plainTime (orderValue o a) -> plainTime (orderValue o b) ->
  String.ltb (order o a) (order o b) = true <-> listedBefore o a b.
Proof.
  unfold plainTime, listedBefore, order, String.ltb. intros Ha Hb.
  rewrite numberToString_compare by (unfold MAX_SAFE_INTEGER; lia).
  destruct (Z.compare_spec (MAX_SAFE_INTEGER - orderValue o a)
                           (MAX_SAFE_INTEGER - orderValue o b)) as [E|L|G].
  - destruct (String.compare (id a) (id b)); split; intros H;
      try discriminate; try reflexivity;
      try (right; split; [lia | reflexivity]);
      destruct H as [H|[_ H]]; try lia; discriminate.
  - split; [intros _; left; lia | reflexivity].
  - split; [discriminate|]. intros [H|[H _]]; lia.
Qed.

(** Beyond the plain time stamps the printed number loses a digit and the
    order of the keys is no longer the order of the times: the key of the
    older issue is the smaller one. *)
Example order_beyond_plain_times :
  order MODIFIED Examples.epochIssue = "9007199254740991-a" /\
  order MODIFIED Examples.farIssue = "999999999999999-b" /\
  String.ltb (order MODIFIED Examples.epochIssue)
             (order MODIFIED Examples.farIssue) = true /\
  ~ listedBefore MODIFIED Examples.epochIssue Examples.farIssue.
Proof.
  split; [reflexivity|]. split; [reflexivity|]. split; [reflexivity|].
  unfold listedBefore. simpl. intros [H|[H _]]; lia.
Qed.

End OrderKeyFacts.

(** ** The reducer *)

Module AppFacts.
Import Lodash App LodashFacts.

(** *** The sort key *)

Lemma string_of_uint_digits u : allDigits (NilEmpty.string_of_uint u) = true.
Proof. induction u; simpl; auto. Qed.

Lemma string_of_uint_nonempty u :
  NilZero.string_of_uint u <> EmptyString.
Proof. destruct u; discriminate. Qed.

Lemma NilZero_string_of_uint_digits u :
  allDigits (NilZero.string_of_uint u) = true.
Proof.
  destruct u; try reflexivity;
    apply (string_of_uint_digits (_ _)) || apply string_of_uint_digits.
Qed.

(** A printed number is a non-empty run of digits, after a minus sign
    when it is negative. *)
Lemma numberToString_shape n :
  exists d, d <> EmptyString /\ allDigits d = true /\
            (numberToString n = d \/ numberToString n = String "-" d).
Proof.
  unfold numberToString. destruct (Z.to_int n) as [u|u]; simpl;
    exists (NilZero.string_of_uint u);
    (split; [apply string_of_uint_nonempty|]);
    (split; [apply NilZero_string_of_uint_digits|]); auto.
Qed.

Lemma append_nil_l (s : string) : (EmptyString ++ s)%string = s.
Proof. reflexivity. Qed.

Lemma append_cons_l c (s t : string) :
  (String c s ++ t)%string = String c (s ++ t)%string.
Proof. reflexivity. Qed.

Lemma digits_dash_inj d1 : forall d2 r1 r2,
  allDigits d1 = true -> allDigits d2 = true ->
  (d1 ++ "-" ++ r1)%string = (d2 ++ "-" ++ r2)%string -> r1 = r2.
Proof.
  induction d1 as [|c d1 IH]; intros [|c2 d2] r1 r2 H1 H2 Heq;
    repeat first [rewrite append_nil_l in Heq | rewrite append_cons_l in Heq];
    simpl in H1, H2.
  - inversion Heq. reflexivity.
  - inversion Heq; subst c2. discriminate.
  - inversion Heq; subst c. discriminate.
  - inversion Heq; subst.
    apply andb_prop in H1 as [_ H1]. apply andb_prop in H2 as [_ H2].
    eapply IH; eassumption.
Qed.

(** Issues with the same sort key have the same id. *)
Lemma order_id o a b : order o a = order o b -> id a = id b.
Proof.
  unfold order.
  set (na := (MAX_SAFE_INTEGER - _)%Z). set (nb := (MAX_SAFE_INTEGER - _)%Z).
  destruct (numberToString_shape na) as (da & Hna & Hda & [->| ->]);
    destruct (numberToString_shape nb) as (db & Hnb & Hdb & [->| ->]);
    intros Heq.
  - apply (digits_dash_inj da db _ _ Hda Hdb Heq).
  - destruct da as [|c da]; [congruence|].
    rewrite !append_cons_l in Heq. simpl in Hda.
    inversion Heq; subst c. discriminate.
  - destruct db as [|c db]; [congruence|].
    rewrite !append_cons_l in Heq. simpl in Hdb.
    inversion Heq; subst c. discriminate.
  - rewrite !append_cons_l in Heq. inversion Heq as [Heq'].
    apply (digits_dash_inj da db _ _ Hda Hdb Heq').
Qed.

(** *** Lists *)

Lemma filter_perm {A} (f : A -> bool) (l1 l2 : list A) :
  Permutation l1 l2 -> Permutation (List.filter f l1) (List.filter f l2).
Proof.
  induction 1 as [|x l1 l2 _ IH|x y l|l1 l2 l3 _ IH1 _ IH2]; simpl.
  - reflexivity.
  - destruct (f x); [constructor|]; exact IH.
  - destruct (f x), (f y); try reflexivity. apply perm_swap.
  - etransitivity; eassumption.
Qed.

Lemma elem_of_filter {A} (f : A -> bool) (l : list A) x :
  x ∈ List.filter f l <-> x ∈ l /\ f x = true.
Proof. rewrite !list_elem_of_In. apply filter_In. Qed.

Lemma spliceIn_perm {A} (l : list A) i x :
  Permutation (spliceIn l i x) (x :: l).
Proof.
  unfold spliceIn. rewrite <- (take_drop i l) at 3.
  symmetry. apply Permutation_middle.
Qed.

Lemma StronglySorted_among {A} (R R' : A -> A -> Prop) (l : list A) :
  (forall a b, a ∈ l -> b ∈ l -> R a b -> R' a b) ->
  StronglySorted R l -> StronglySorted R' l.
Proof.
  intros Himp Hs. induction Hs as [|x l Hl IH Hx]; constructor.
  - apply IH. intros a b Ha Hb. apply Himp; right; assumption.
  - rewrite Forall_forall in Hx |- *. intros y Hy.
    apply Himp; [left | right; exact Hy | apply Hx, Hy].
Qed.

Lemma NoDup_fmap_filter {A B} (g : A -> B) (f : A -> bool) (l : list A) :
  NoDup (g <$> l) -> NoDup (g <$> List.filter f l).
Proof.
  induction l as [|x l IH]; simpl; [auto|].
  intros [Hx Hl]%NoDup_cons. destruct (f x); simpl; [|auto].
  apply NoDup_cons. split; [|auto].
  intros Hin. apply Hx. apply list_elem_of_fmap in Hin as [y [-> Hy]].
  apply list_elem_of_fmap. exists y. split; [reflexivity|].
  apply elem_of_filter in Hy as [Hy _]. exact Hy.
Qed.

Lemma NoDup_fmap_coarser {A B C} (f : A -> B) (g : A -> C) (l : list A) :
  (forall p q, p ∈ l -> q ∈ l -> g p = g q -> f p = f q) ->
  NoDup (f <$> l) -> NoDup (g <$> l).
Proof.
  induction l as [|x l IH]; intros Hfg; simpl; [intros _; constructor|].
  intros [Hx Hl]%NoDup_cons. apply NoDup_cons. split.
  - intros Hin. apply Hx. apply list_elem_of_fmap in Hin as [y [Hg Hy]].
    apply list_elem_of_fmap. exists y. split; [|exact Hy].
    apply Hfg; [left | right; exact Hy | exact Hg].
  - apply IH; [|exact Hl]. intros p q Hp Hq. apply Hfg; right; assumption.
Qed.

(** *** The values of the map *)

Lemma elem_of_values (m : gmap string Issue) i :
  i ∈ values m <-> exists k, m !! k = Some i.
Proof.
  unfold values. rewrite list_elem_of_fmap. split.
  - intros [[k j] [-> H]]. exists k. apply elem_of_map_to_list, H.
  - intros [k H]. exists (k, i). split; [reflexivity|].
    apply elem_of_map_to_list, H.
Qed.

Lemma values_insert (m : gmap string Issue) k i :
  m !! k = None -> Permutation (values (<[k := i]> m)) (i :: values m).
Proof.
  intros H. unfold values.
  rewrite (map_to_list_insert m k i H). reflexivity.
Qed.

Lemma values_delete (m : gmap string Issue) k i :
  m !! k = Some i -> Permutation (values m) (i :: values (delete k m)).
Proof.
  intros H. unfold values.
  rewrite <- (map_to_list_delete m k i H). reflexivity.
Qed.

(** *** The view that the diff case maintains *)

Section ReducerFacts.
Variable issueFromKeyAndValue : string -> JSONValue -> Issue.
Variable issuePrefix : string.

Lemma applyDiffOp_map f o acc op :
  newAllIssuesMap (applyDiffOp issueFromKeyAndValue f o acc op)
  = mapAfter issueFromKeyAndValue (newAllIssuesMap acc) op.
Proof. destruct op; reflexivity. Qed.

Lemma wellKeyed_insert m k v :
  isIssueKey issuePrefix k ->
  wellKeyed issueFromKeyAndValue issuePrefix m ->
  wellKeyed issueFromKeyAndValue issuePrefix
    (<[k := issueFromKeyAndValue k v]> m).
Proof.
  intros Hk Hm k' i. rewrite lookup_insert.
  destruct (decide (k = k')) as [->|]; [|apply Hm].
  intros H; inversion H. eauto.
Qed.

Lemma wellKeyed_delete m k :
  wellKeyed issueFromKeyAndValue issuePrefix m ->
  wellKeyed issueFromKeyAndValue issuePrefix (delete k m).
Proof.
  intros Hm k' i. rewrite lookup_delete.
  destruct (decide (k = k')); [discriminate | apply Hm].
Qed.

Lemma wellKeyed_mapAfter m op :
  wellKeyed issueFromKeyAndValue issuePrefix m ->
  wfOp issueFromKeyAndValue issuePrefix m op ->
  wellKeyed issueFromKeyAndValue issuePrefix
    (mapAfter issueFromKeyAndValue m op).
Proof.
  intros Hm Hop. destruct op as [k nv|k ov|k ov nv]; simpl in *.
  - apply wellKeyed_insert; [apply Hop | exact Hm].
  - apply wellKeyed_delete, Hm.
  - apply wellKeyed_insert; [apply (Hm _ _ Hop) | exact Hm].
Qed.

(** C8: [setIssueOrder] replaces [filteredIssues] by the list that
    [sortBy] makes of it under the new order key: the same issues, each as
    often as before, with keys that never decrease.  The map, the view
    count and the filters stay as they are, and the order is recorded. *)
Theorem setIssueOrder_resorts s o :
  let s' := reducer issueFromKeyAndValue s (ActSetIssueOrder o) in
  filteredIssues s' = sortBy (order o) (filteredIssues s) /\
  Permutation (filteredIssues s') (filteredIssues s) /\
  StronglySorted (keyLe (order o)) (filteredIssues s') /\
  allIssuesMap s' = allIssuesMap s /\
  viewIssueCount s' = viewIssueCount s /\
  filters s' = filters s /\
  issueOrder s' = o.
Proof.
  simpl. split; [reflexivity|]. split; [apply sortBy_perm|].
  split; [apply sortBy_sorted|]. repeat split; reflexivity.
Qed.

(** C3, as the reducer has it: the [add] case does not look whether the
    key is in the map.  Applying the same [add] a second time leaves the
    map as the first application left it, but counts the issue once more
    when it passes the view filter and splices one more copy of it into
    [filteredIssues] when it passes both filters.  The count is the count
    after one application exactly when the issue fails the view filter,
    and the list is the list after one application exactly when the issue
    fails one of the filters. *)
Theorem add_again_adds_again s key v :
  let issue := issueFromKeyAndValue key v in
  let once := reducer issueFromKeyAndValue s (ActDiff [DiffAdd key v]) in
  let twice := reducer issueFromKeyAndValue once (ActDiff [DiffAdd key v]) in
  allIssuesMap twice = allIssuesMap once /\
  viewIssueCount twice =
    (viewIssueCount once +
     if Filter_filter (viewFilter (filters s)) issue then 1 else 0)%Z /\
  Permutation (filteredIssues twice)
    (if Filters_filter (filters s) issue
     then issue :: filteredIssues once
     else filteredIssues once) /\
  (viewIssueCount twice = viewIssueCount once <->
   Filter_filter (viewFilter (filters s)) issue = false) /\
  (filteredIssues twice = filteredIssues once <->
   Filters_filter (filters s) issue = false).
Proof.
  intros issue once twice. subst once twice.
  cbn [reducer fold_left applyDiffOp addIssue allIssuesMap viewIssueCount
       filteredIssues filters issueOrder newAllIssuesMap newViewIssueCount
       newFilteredIssues].
  fold issue. split; [apply insert_insert_eq|].
  destruct (Filter_filter (viewFilter (filters s)) issue) eqn:Hv;
    destruct (Filters_filter (filters s) issue) eqn:Hf.
  - split; [reflexivity|]. split; [apply spliceIn_perm|].
    split; [split; [lia | discriminate]|]. split; [|discriminate].
    intros H. apply (f_equal (@List.length Issue)) in H.
    rewrite (Permutation_length (spliceIn_perm _ _ _)) in H.
    simpl in H. lia.
  - split; [reflexivity|]. split; [reflexivity|].
    split; [split; [lia | discriminate]|]. split; reflexivity.
  - split; [lia|]. split; [apply spliceIn_perm|].
    split; [split; reflexivity|]. split; [|discriminate].
    intros H. apply (f_equal (@List.length Issue)) in H.
    rewrite (Permutation_length (spliceIn_perm _ _ _)) in H.
    simpl in H. lia.
  - split; [lia|]. split; [reflexivity|]. repeat split; reflexivity.
Qed.

Section UniqueIds.
(** Issues built from different issue keys have different ids. *)
Hypothesis issue_id_inj : forall k1 v1 k2 v2,
  isIssueKey issuePrefix k1 -> isIssueKey issuePrefix k2 ->
  id (issueFromKeyAndValue k1 v1) = id (issueFromKeyAndValue k2 v2) ->
  k1 = k2.

Lemma wellKeyed_same_id m k1 k2 i1 i2 :
  wellKeyed issueFromKeyAndValue issuePrefix m ->
  m !! k1 = Some i1 -> m !! k2 = Some i2 ->
  id i1 = id i2 -> k1 = k2 /\ i1 = i2.
Proof.
  intros Hm H1 H2 Hid.
  destruct (Hm k1 i1 H1) as [P1 [v1 E1]].
  destruct (Hm k2 i2 H2) as [P2 [v2 E2]].
  assert (k1 = k2) by (subst i1 i2; eapply issue_id_inj; eassumption).
  subst k2. split; [reflexivity | congruence].
Qed.

Lemma values_keys_NoDup o m :
  wellKeyed issueFromKeyAndValue issuePrefix m -> NoDup (order o <$> values m).
Proof.
  intros Hm. unfold values. rewrite <- list_fmap_compose.
  apply (NoDup_fmap_coarser fst); [|apply NoDup_fst_map_to_list].
  intros [k1 i1] [k2 i2] H1%elem_of_map_to_list H2%elem_of_map_to_list Hk.
  simpl in *. apply order_id in Hk.
  apply (wellKeyed_same_id m k1 k2 i1 i2 Hm H1 H2 Hk).
Qed.

(** A list that is a view is what [filterAndSort] computes. *)
Lemma viewOf_filterAndSort f o m l :
  viewOf f o m l -> l = filterAndSort f o (values m).
Proof.
  intros [Hs Hp]. unfold filterAndSort.
  apply (strict_unique (order o)); [exact Hs| |].
  - apply sorted_strict; [apply sortBy_sorted|].
    rewrite sortBy_perm, <- Hp. apply strict_NoDup, Hs.
  - rewrite sortBy_perm. exact Hp.
Qed.

Lemma filterAndSort_viewOf f o m :
  wellKeyed issueFromKeyAndValue issuePrefix m ->
  viewOf f o m (filterAndSort f o (values m)).
Proof.
  intros Hm. unfold filterAndSort. split.
  - apply sorted_strict; [apply sortBy_sorted|].
    rewrite sortBy_perm. apply NoDup_fmap_filter, values_keys_NoDup, Hm.
  - apply sortBy_perm.
Qed.

(** Sorting a view under another order key gives the view for that
    order. *)
Lemma sortBy_view f o o' m l :
  wellKeyed issueFromKeyAndValue issuePrefix m ->
  viewOf f o m l -> viewOf f o' m (sortBy (order o') l).
Proof.
  intros Hm [_ Hp]. split.
  - apply sorted_strict; [apply sortBy_sorted|].
    rewrite sortBy_perm, Hp.
    apply NoDup_fmap_filter, values_keys_NoDup, Hm.
  - rewrite sortBy_perm. exact Hp.
Qed.

Lemma addIssue_view f o m c l k newValue :
  wellKeyed issueFromKeyAndValue issuePrefix m ->
  isIssueKey issuePrefix k -> m !! k = None -> viewOf f o m l ->
  viewOf f o (<[k := issueFromKeyAndValue k newValue]> m)
    (newFilteredIssues
       (addIssue issueFromKeyAndValue f o
          {| newAllIssuesMap := m; newViewIssueCount := c;
             newFilteredIssues := l |} k newValue)).
Proof.
  intros Hm Hkey Hk [Hs Hp]. unfold addIssue; cbn [newFilteredIssues].
  set (n := issueFromKeyAndValue k newValue).
  assert (Hvals : Permutation
                    (List.filter (Filters_filter f) (values (<[k := n]> m)))
                    (List.filter (Filters_filter f) (n :: values m))).
  { apply filter_perm, values_insert, Hk. }
  simpl in Hvals. destruct (Filters_filter f n) eqn:Hf.
  - rewrite (sortedIndexBy_sorted (order o))
      by (apply strict_sorted_le, Hs).
    rewrite spliceIn_lowerBound. split.
    + apply insertBy_strict; [exact Hs|].
      intros Hin. apply list_elem_of_fmap in Hin as [y [Hy Hin]].
      rewrite Hp in Hin. apply elem_of_filter in Hin as [Hin _].
      apply elem_of_values in Hin as [k' Hk'].
      destruct (Hm k' y Hk') as [Hkey' [v' ->]].
      apply order_id, issue_id_inj in Hy; [|assumption..].
      subst k'. congruence.
    + rewrite insertBy_perm, Hvals. constructor. exact Hp.
  - split; [exact Hs|]. rewrite Hvals. exact Hp.
Qed.

Lemma removeIssue_view f o m c l k oldValue :
  wellKeyed issueFromKeyAndValue issuePrefix m ->
  m !! k = Some (issueFromKeyAndValue k oldValue) ->
  viewOf f o m l ->
  viewOf f o (delete k m)
    (newFilteredIssues
       (removeIssue issueFromKeyAndValue f o
          {| newAllIssuesMap := m; newViewIssueCount := c;
             newFilteredIssues := l |} k oldValue)).
Proof.
  intros Hm Hk [Hs Hp]. unfold removeIssue; cbn [newFilteredIssues].
  set (old := issueFromKeyAndValue k oldValue) in *.
  assert (Hvals : Permutation
                    (List.filter (Filters_filter f) (values m))
                    (List.filter (Filters_filter f)
                       (old :: values (delete k m)))).
  { apply filter_perm, values_delete, Hk. }
  simpl in Hvals.
  rewrite (sortedIndexBy_sorted (order o)) by (apply strict_sorted_le, Hs).
  destruct (decide (old ∈ l)) as [Hin|Hout].
  - rewrite (lowerBound_found (order o) l old Hs Hin).
    rewrite decide_True by reflexivity.
    assert (Hf : Filters_filter f old = true).
    { rewrite Hp in Hin. apply elem_of_filter in Hin as [_ ?]. assumption. }
    rewrite Hf in Hvals. split; [apply spliceOut_sorted, Hs|].
    apply (Permutation_cons_inv (a := old)).
    rewrite <- Hvals, <- Hp. symmetry.
    apply spliceOut_perm, (lowerBound_found (order o)); assumption.
  - assert (Hf : Filters_filter f old = false).
    { destruct (Filters_filter f old) eqn:Hf; [|reflexivity].
      exfalso. apply Hout. rewrite Hp. apply elem_of_filter.
      split; [|exact Hf]. apply elem_of_values. eauto. }
    rewrite Hf in Hvals.
    assert (Hkeep : match l !! lowerBound (order o) l (order o old) with
                    | Some found =>
                        if decide (id found = id old)
                        then spliceOut l
                               (lowerBound (order o) l (order o old))
                        else l
                    | None => l
                    end = l).
    { destruct (l !! lowerBound (order o) l (order o old)) as [y|] eqn:Hy;
        [|reflexivity].
      destruct (decide (id y = id old)) as [Hid|]; [|reflexivity].
      exfalso. apply Hout.
      assert (Hyl : y ∈ l) by (eapply list_elem_of_lookup_2, Hy).
      pose proof Hyl as Hyv. rewrite Hp in Hyv.
      apply elem_of_filter in Hyv as [Hyv _].
      apply elem_of_values in Hyv as [k' Hk'].
      destruct (wellKeyed_same_id m k' k y old Hm Hk' Hk Hid) as [_ <-].
      exact Hyl. }
    rewrite Hkeep. split; [exact Hs|]. rewrite Hp. exact Hvals.
Qed.

Lemma applyDiffOp_view f o acc op :
  wellKeyed issueFromKeyAndValue issuePrefix (newAllIssuesMap acc) ->
  wfOp issueFromKeyAndValue issuePrefix (newAllIssuesMap acc) op ->
  viewOf f o (newAllIssuesMap acc) (newFilteredIssues acc) ->
  viewOf f o (mapAfter issueFromKeyAndValue (newAllIssuesMap acc) op)
    (newFilteredIssues (applyDiffOp issueFromKeyAndValue f o acc op)).
Proof.
  destruct acc as [m c l]. cbn [newAllIssuesMap newFilteredIssues].
  intros Hm Hop Hv. destruct op as [k nv|k ov|k ov nv]; simpl in Hop.
  - destruct Hop. apply addIssue_view; assumption.
  - apply (removeIssue_view f o m c l k ov); assumption.
  - cbn [applyDiffOp mapAfter].
    pose proof (removeIssue_view f o m c l k ov Hm Hop Hv) as Hr.
    rewrite <- (insert_delete_eq m k).
    set (r := removeIssue issueFromKeyAndValue f o _ k ov) in *.
    assert (Hrm : newAllIssuesMap r = m) by reflexivity.
    destruct r as [m' c' l']. cbn [newAllIssuesMap newFilteredIssues] in *.
    subst m'.
    pose proof (addIssue_view f o (delete k m) c' l' k nv
                  (wellKeyed_delete m k Hm) (proj1 (Hm _ _ Hop))
                  (lookup_delete_eq m k) Hr) as Ha.
    unfold addIssue in *. cbn [newFilteredIssues newAllIssuesMap] in *.
    exact Ha.
Qed.

Lemma diff_view f o diff : forall acc,
  wellKeyed issueFromKeyAndValue issuePrefix (newAllIssuesMap acc) ->
  wfDiff issueFromKeyAndValue issuePrefix (newAllIssuesMap acc) diff ->
  viewOf f o (newAllIssuesMap acc) (newFilteredIssues acc) ->
  let acc' := fold_left (applyDiffOp issueFromKeyAndValue f o) diff acc in
  wellKeyed issueFromKeyAndValue issuePrefix (newAllIssuesMap acc') /\
  viewOf f o (newAllIssuesMap acc') (newFilteredIssues acc').
Proof.
  induction diff as [|op diff IH]; intros acc Hm Hwf Hv; simpl.
  - split; assumption.
  - destruct Hwf as [Hop Hwf]. apply IH.
    + rewrite applyDiffOp_map. apply wellKeyed_mapAfter; assumption.
    + rewrite applyDiffOp_map. exact Hwf.
    + rewrite applyDiffOp_map. apply applyDiffOp_view; assumption.
Qed.

Lemma reachable_view s :
  reachable issueFromKeyAndValue issuePrefix s ->
  wellKeyed issueFromKeyAndValue issuePrefix (allIssuesMap s) /\
  viewOf (filters s) (issueOrder s) (allIssuesMap s) (filteredIssues s).
Proof.
  induction 1 as [s0 m Hm|s diff _ [Hm Hv] Hwf|s f _ [Hm Hv]|s o _ [Hm Hv]].
  - simpl. split; [exact Hm | apply filterAndSort_viewOf, Hm].
  - cbn [reducer allIssuesMap filteredIssues filters issueOrder].
    apply (diff_view (filters s) (issueOrder s) diff
             {| newAllIssuesMap := allIssuesMap s;
                newViewIssueCount := viewIssueCount s;
                newFilteredIssues := filteredIssues s |}); assumption.
  - simpl. split; [exact Hm | apply filterAndSort_viewOf, Hm].
  - simpl. split; [exact Hm | eapply sortBy_view; eassumption].
Qed.

(** C2: in every state that an [init] and then well-formed [diff]s lead
    to, also when the filters or the order are changed in between,
    [filteredIssues] is the list that [filterAndSort] computes from
    the values of [allIssuesMap]: it holds exactly the issues of the map
    that pass the view filter and the additional filter, sorted by the
    order key of the state, which for plain time stamps is the more recent
    issue first and of two as recent the one with the smaller id.  The
    map of the [init] holds under each key an issue built from that key,
    and issues built from different keys have different ids. *)
Theorem reachable_filteredIssues s :
  reachable issueFromKeyAndValue issuePrefix s ->
  filteredIssues s =
    filterAndSort (filters s) (issueOrder s) (values (allIssuesMap s)) /\
  (forall i,
     i ∈ filteredIssues s <->
     (exists k, allIssuesMap s !! k = Some i) /\
     Filters_filter (filters s) i = true) /\
  ((forall i, i ∈ filteredIssues s ->
              plainTime (orderValue (issueOrder s) i)) ->
   StronglySorted (listedBefore (issueOrder s)) (filteredIssues s)).
Proof.
  intros Hr. destruct (reachable_view s Hr) as [Hm Hv].
  split; [apply viewOf_filterAndSort, Hv|]. destruct Hv as [Hs Hp]. split.
  - intros i. rewrite Hp, elem_of_filter, elem_of_values. reflexivity.
  - intros Hplain. eapply StronglySorted_among; [|exact Hs].
    intros a b Ha Hb Hab.
    apply OrderKeyFacts.order_listedBefore; auto.
Qed.

End UniqueIds.
End ReducerFacts.

Lemma dropPrefix_inj p : forall k1 k2,
  String.prefix p k1 = true -> String.prefix p k2 = true ->
  Examples.dropPrefix p k1 = Examples.dropPrefix p k2 -> k1 = k2.
Proof.
  induction p as [|a p IH]; intros k1 k2 H1 H2 Hid.
  - destruct k1, k2; exact Hid.
  - destruct k1 as [|b1 k1]; [discriminate|].
    destruct k2 as [|b2 k2]; [discriminate|].
    cbn [String.prefix Examples.dropPrefix] in H1, H2, Hid.
    destruct (ascii_dec a b1) as [<-|]; [|discriminate].
    destruct (ascii_dec a b2) as [<-|]; [|discriminate].
    rewrite Ascii.eqb_refl in Hid. f_equal. apply IH; assumption.
Qed.

Lemma example_id_inj k1 v1 k2 v2 :
  isIssueKey Examples.issuePrefix k1 -> isIssueKey Examples.issuePrefix k2 ->
  id (Examples.issueFromKeyAndValue k1 v1)
  = id (Examples.issueFromKeyAndValue k2 v2) ->
  k1 = k2.
Proof. apply dropPrefix_inj. Qed.

Lemma example_wellKeyed :
  wellKeyed Examples.issueFromKeyAndValue Examples.issuePrefix
    Examples.initMap.
Proof.
  intros k i H. unfold Examples.initMap in H.
  apply lookup_insert_Some in H as [[<- <-]|[_ H]];
    [split; [reflexivity | eexists; reflexivity]|].
  apply lookup_insert_Some in H as [[<- <-]|[_ H]];
    [split; [reflexivity | eexists; reflexivity]|].
  rewrite lookup_empty in H. discriminate.
Qed.

Lemma example_reachable :
  reachable Examples.issueFromKeyAndValue Examples.issuePrefix
    Examples.reached.
Proof.
  apply reach_diff.
  - apply reach_init, example_wellKeyed.
  - vm_compute. repeat split.
Qed.

Lemma reachable_filteredIssues_witness :
  reachable Examples.issueFromKeyAndValue Examples.issuePrefix
    Examples.reached /\
  filteredIssues Examples.reached =
    filterAndSort (filters Examples.reached) (issueOrder Examples.reached)
      (values (allIssuesMap Examples.reached)).
Proof.
  split; [exact example_reachable|].
  exact (proj1 (reachable_filteredIssues Examples.issueFromKeyAndValue
                  Examples.issuePrefix example_id_inj Examples.reached
                  example_reachable)).
Defined.

(** The claim C3 as stated fails: the map holds ["issue/1"] with the value
    of the [add], and the second application of the [add] changes the
    count and the list that the first one left. *)
Lemma add_again_changes_count_and_list :
  allIssuesMap Examples.initialised !! "issue/1" =
    Some (Examples.issueFromKeyAndValue "issue/1" Examples.value1) /\
  (viewIssueCount Examples.initialised = 2 /\
   viewIssueCount Examples.addedOnce = 3 /\
   viewIssueCount Examples.addedTwice = 4)%Z /\
  List.length (filteredIssues Examples.initialised) = 2%nat /\
  List.length (filteredIssues Examples.addedOnce) = 3%nat /\
  List.length (filteredIssues Examples.addedTwice) = 4%nat /\
  viewIssueCount Examples.addedTwice <> viewIssueCount Examples.addedOnce /\
  filteredIssues Examples.addedTwice <> filteredIssues Examples.addedOnce.
Proof.
  split; [vm_compute; reflexivity|]. split; [repeat split; reflexivity|].
  split; [reflexivity|]. split; [reflexivity|]. split; [reflexivity|]. split.
  - vm_compute. discriminate.
  - intros H. apply (f_equal (@List.length Issue)) in H.
    vm_compute in H. discriminate.
Qed.

End AppFacts.

(** * Further properties *)

(** ** Reading back what the SQL helpers wrote *)

Module DataLaws.
Import Data.

Lemma DB_eq (a b : DB) :
  space a = space b -> client a = client b -> entry a = entry b ->
  now a = now b -> a = b.
Proof. destruct a, b; simpl; intros; subst; reflexivity. Qed.

(** X1: [putEntries] either writes the whole batch or refuses it.  When
    it returns, the keys of the batch are pairwise distinct, [getEntry]
    answers each key of the batch with the value that was put (also when
    the key had a deleted row), the row carries the version of the call
    and is live, and every row of another space or another key is as it
    was, like the other tables.  It fails only on a batch that names a
    key twice. *)
Theorem putEntries_then_getEntry db spaceID entries ver :
  match putEntries db spaceID entries ver with
  | Ok db' =>
      NoDup (entries.*1) /\
      (forall k v, (k, v) ∈ entries -> getEntry db' spaceID k = Some v) /\
      (forall k v, (k, v) ∈ entries ->
         entry db' !! (spaceID, k) =
           Some {| value := v; deleted := false; version := ver;
                   lastmodified := now db |}) /\
      (forall s k, s <> spaceID \/ k ∉ entries.*1 ->
         entry db' !! (s, k) = entry db !! (s, k)) /\
      space db' = space db /\ client db' = client db /\ now db' = now db
  | Err e => e = CardinalityViolation /\ ~ NoDup (entries.*1)
  end.
Proof.
  destruct (decide (NoDup (entries.*1))) as [Hnd|Hdup].
  - rewrite DataFacts.putEntries_Ok by assumption.
    cbn [entry withEntry space client now].
    split; [exact Hnd|]. split; [|split; [|split; [|auto]]].
    + intros k v Hin. unfold getEntry. cbn [entry withEntry].
      rewrite (DataFacts.upsert_this_key _ _ _ _ _ k v Hnd Hin). reflexivity.
    + intros k v Hin. apply DataFacts.upsert_this_key; assumption.
    + intros s k [Hs|Hk].
      * apply DataFacts.upsert_other_space, Hs.
      * destruct (decide (s = spaceID)) as [->|Hs].
        -- apply DataFacts.upsert_other_key, Hk.
        -- apply DataFacts.upsert_other_space, Hs.
  - destruct entries as [|e entries]; [exfalso; apply Hdup; constructor|].
    unfold putEntries. rewrite decide_False by assumption. auto.
Qed.

(** X2: [delEntries] always returns.  Afterwards [getEntry] answers
    [undefined] for every key of the batch; the row of such a key, when
    it has one, stays in the table with its value, marked deleted at the
    version of the call; no row is created and none is removed; rows of
    other spaces and other keys, and the other tables, are as they
    were. *)
Theorem delEntries_then_getEntry db spaceID keys ver :
  exists db',
    delEntries db spaceID keys ver = Ok db' /\
    (forall k, k ∈ keys -> getEntry db' spaceID k = None) /\
    (forall k, k ∈ keys ->
       entry db' !! (spaceID, k) =
         (fun row => {| value := value row; deleted := true; version := ver;
                        lastmodified := lastmodified row |})
           <$> entry db !! (spaceID, k)) /\
    (forall s k, s <> spaceID \/ k ∉ keys ->
       entry db' !! (s, k) = entry db !! (s, k)) /\
    (forall s k, is_Some (entry db' !! (s, k)) <->
                 is_Some (entry db !! (s, k))) /\
    space db' = space db /\ client db' = client db.
Proof.
  rewrite DataFacts.delEntries_Ok. eexists. split; [reflexivity|].
  cbn [entry withEntry space client].
  split; [|split; [|split; [|split; [|auto]]]].
  - intros k Hk. unfold getEntry. cbn [entry withEntry].
    rewrite DataFacts.softDelete_fold_lookup.
    rewrite decide_True by (split; [reflexivity | exact Hk]).
    destruct (entry db !! (spaceID, k)); reflexivity.
  - intros k Hk. rewrite DataFacts.softDelete_fold_lookup.
    rewrite decide_True by (split; [reflexivity | exact Hk]). reflexivity.
  - intros s k Hout. rewrite DataFacts.softDelete_fold_lookup.
    rewrite decide_False; [reflexivity|].
    intros [Hs Hk]. destruct Hout; contradiction.
  - intros s k. rewrite DataFacts.softDelete_fold_lookup.
    destruct (decide _); [|reflexivity]. apply fmap_is_Some.
Qed.

Lemma changed_keys_NoDup sid prev (l : list ((string * string) * EntryRow)) :
  NoDup (l.*1) ->
  NoDup ((fun e : string * JSONValue * bool => e.1.1) <$>
         omap (fun kr : (string * string) * EntryRow =>
                 if decide (kr.1.1 = sid) then
                   if (prev <? version kr.2)%Z
                   then Some (kr.1.2, value kr.2, deleted kr.2)
                   else None
                 else None) l).
Proof.
  induction l as [|[[s k] row] l IH]; simpl; [intros _; constructor|].
  intros [Hfresh Hnd]%NoDup_cons.
  destruct (decide (s = sid)) as [->|]; [|auto].
  destruct (prev <? version row)%Z; [|auto].
  simpl. apply NoDup_cons. split; [|auto].
  intros Hin. apply Hfresh.
  apply list_elem_of_fmap in Hin as [[[k' v'] d'] [Hk Hin]].
  simpl in Hk. subst k'.
  apply list_elem_of_omap in Hin as [[[s' k'] row'] [Hin Hsel]].
  simpl in Hsel. destruct (decide (s' = sid)) as [->|]; [|discriminate].
  destruct (prev <? version row')%Z; [|discriminate].
  inversion Hsel; subst. apply list_elem_of_fmap.
  exists ((sid, k), row'). split; [reflexivity | exact Hin].
Qed.

(** X3: [getChangedEntries] lists every key of the space at most once,
    and lists exactly the rows of the space whose version is above
    [prevVersion], each with its value and its deleted flag; rows of
    other spaces never show.  With a later [prevVersion] it lists no row
    that it does not list with an earlier one. *)
Theorem getChangedEntries_rows db spaceID prevVersion :
  NoDup ((fun e : string * JSONValue * bool => e.1.1)
           <$> getChangedEntries db spaceID prevVersion) /\
  (forall k v d,
     (k, v, d) ∈ getChangedEntries db spaceID prevVersion <->
     exists row,
       entry db !! (spaceID, k) = Some row /\
       (prevVersion < version row)%Z /\
       v = value row /\ d = deleted row) /\
  (forall later e,
     (prevVersion <= later)%Z ->
     e ∈ getChangedEntries db spaceID later ->
     e ∈ getChangedEntries db spaceID prevVersion).
Proof.
  split; [|split].
  - apply changed_keys_NoDup, NoDup_fst_map_to_list.
  - intros k v d. apply PullFacts.elem_of_getChangedEntries.
  - intros later [[k v] d] Hle Hin.
    apply PullFacts.elem_of_getChangedEntries in Hin
      as (row & Hrow & Hlt & Hv & Hd).
    apply PullFacts.elem_of_getChangedEntries.
    exists row. repeat split; [assumption | lia | assumption..].
Qed.

(** X4: [setCookie] is an update, not an upsert.  After it [getCookie]
    answers the new version for the space when the space has a row and
    still answers [undefined] when it has none, in which case the
    database is unchanged; the cookies of other spaces, the set of
    spaces, the entries and the clients are as they were. *)
Theorem setCookie_then_getCookie db spaceID ver other :
  getCookie (setCookie db spaceID ver) other =
    (if decide (other = spaceID)
     then (fun _ => ver) <$> getCookie db spaceID
     else getCookie db other) /\
  (getCookie db spaceID = None -> setCookie db spaceID ver = db) /\
  (forall s, is_Some (space (setCookie db spaceID ver) !! s) <->
             is_Some (space db !! s)) /\
  entry (setCookie db spaceID ver) = entry db /\
  client (setCookie db spaceID ver) = client db.
Proof.
  split; [|split; [|split; [|split; reflexivity]]].
  - unfold getCookie, setCookie. cbn [space withSpace].
    rewrite lookup_alter.
    destruct (decide (other = spaceID)) as [->|Hne].
    + rewrite decide_True by reflexivity.
      destruct (space db !! spaceID); reflexivity.
    + rewrite decide_False by congruence. reflexivity.
  - unfold getCookie, setCookie. intros Hnone.
    apply fmap_None in Hnone.
    apply DB_eq; try reflexivity. cbn [space withSpace].
    apply map_eq. intros s. rewrite lookup_alter.
    destruct (decide (spaceID = s)) as [->|]; [|reflexivity].
    rewrite Hnone. reflexivity.
  - intros s. unfold setCookie. cbn [space withSpace].
    rewrite lookup_alter. destruct (decide (spaceID = s)) as [->|];
      [|reflexivity].
    apply fmap_is_Some.
Qed.

(** X5: [setLastMutationID] is an upsert.  After it
    [getLastMutationID] answers the new id for the client, whether the
    client had a row or not, and answers for every other client what it
    answered before; of two calls for one client the later one stands;
    the spaces and the entries are as they were. *)
Theorem setLastMutationID_then_getLastMutationID db clientID n other :
  getLastMutationID (setLastMutationID db clientID n) other =
    (if decide (other = clientID) then Some n
     else getLastMutationID db other) /\
  (forall m,
     setLastMutationID (setLastMutationID db clientID m) clientID n =
     setLastMutationID db clientID n) /\
  space (setLastMutationID db clientID n) = space db /\
  entry (setLastMutationID db clientID n) = entry db.
Proof.
  split; [|split; [|split; reflexivity]].
  - unfold getLastMutationID, setLastMutationID. cbn [client withClient].
    rewrite lookup_insert.
    destruct (decide (other = clientID)) as [->|Hne].
    + rewrite decide_True by reflexivity. reflexivity.
    + rewrite decide_False by congruence. reflexivity.
  - intros m. unfold setLastMutationID.
    apply DB_eq; try reflexivity. cbn [client withClient now].
    apply insert_insert_eq.
Qed.

End DataLaws.

(** ** The overlay of the mutation transaction and the store *)

Module TransactionLaws.
Import Transaction TransactionFacts.

Lemma calls_app db tx cs1 cs2 :
  calls db tx (cs1 ++ cs2) = calls db (calls db tx cs1) cs2.
Proof. apply fold_left_app. Qed.

(** A clean slot holds what the store has for the key. *)
Lemma call_clean db tx c :
  (forall k e, _cache tx !! k = Some e -> dirty e = false ->
     value e = Data.getEntry db (_spaceID tx) k) ->
  forall k e, _cache (call db tx c) !! k = Some e -> dirty e = false ->
    value e = Data.getEntry db (_spaceID tx) k.
Proof.
  intros Hinv k e. destruct c as [key v|key|key|key]; cbn [call].
  - rewrite put_cache. destruct (decide (key = k)); [|apply Hinv].
    intros H; inversion H; subst. discriminate.
  - rewrite del_cache. destruct (decide (key = k)); [|apply Hinv].
    intros H; inversion H; subst. discriminate.
  - rewrite get_cache. destruct (_cache tx !! k) as [e'|] eqn:Hk.
    + intros H; inversion H; subst. apply Hinv, Hk.
    + destruct (decide (key = k)) as [->|]; [|discriminate].
      intros H; inversion H; subst. reflexivity.
  - rewrite has_cache, get_cache. destruct (_cache tx !! k) as [e'|] eqn:Hk.
    + intros H; inversion H; subst. apply Hinv, Hk.
    + destruct (decide (key = k)) as [->|]; [|discriminate].
      intros H; inversion H; subst. reflexivity.
Qed.

Lemma calls_clean db cs : forall tx,
  (forall k e, _cache tx !! k = Some e -> dirty e = false ->
     value e = Data.getEntry db (_spaceID tx) k) ->
  forall k e, _cache (calls db tx cs) !! k = Some e -> dirty e = false ->
    value e = Data.getEntry db (_spaceID tx) k.
Proof.
  induction cs as [|c cs IH]; intros tx Hinv; [exact Hinv|].
  change (calls db tx (c :: cs)) with (calls db (call db tx c) cs).
  rewrite <- (spaceID_call db tx c). apply IH.
  rewrite spaceID_call. apply call_clean, Hinv.
Qed.

(** What a read answers after a script of calls on a fresh
    transaction. *)
Lemma script_get db sid cid ver cs key :
  (get db (calls db (new sid cid ver) cs) key).1 =
    match lastWrite key cs with
    | Some w => w
    | None => Data.getEntry db sid key
    end.
Proof.
  rewrite get_value, spaceID_calls. cbn [new _spaceID].
  pose proof (calls_cache db cs key (new sid cid ver)) as Hc.
  destruct (lastWrite key cs) as [w|].
  - rewrite Hc. reflexivity.
  - destruct Hc as [Hc|[_ [v Hc]]]; rewrite Hc.
    + simpl. rewrite lookup_empty. reflexivity.
    + pose proof (calls_clean db cs (new sid cid ver)) as Hclean.
      cbn [new _spaceID _cache] in Hclean.
      apply (Hclean ltac:(intros k e H; rewrite lookup_empty in H;
                          discriminate) key _ Hc).
      reflexivity.
Qed.

Lemma lastWrite_writes key cs :
  lastWrite key (List.filter isWrite cs) = lastWrite key cs.
Proof.
  induction cs as [|c cs IH]; [reflexivity|].
  destruct c as [k v|k|k|k]; simpl; rewrite IH; try reflexivity;
    destruct (lastWrite key cs); reflexivity.
Qed.

(** The database that [flush] leaves after a script of calls on a fresh
    transaction, whichever database served the reads of the script. *)
Lemma flush_script_db db db2 sid cid ver cs :
  exists db',
    flush db (calls db2 (new sid cid ver) cs) = Ok db' /\
    Data.space db' = Data.space db /\
    Data.client db' = Data.client db /\
    Data.now db' = Data.now db /\
    forall s key,
      Data.entry db' !! (s, key) =
        if decide (s = sid) then
          match lastWrite key cs with
          | Some (Some v) => Some (Data.putRow v ver (Data.now db))
          | Some None => Data.softDelete ver <$> Data.entry db !! (s, key)
          | None => Data.entry db !! (s, key)
          end
        else Data.entry db !! (s, key).
Proof.
  destruct (flush_rows db (calls db2 (new sid cid ver) cs))
    as (db' & Hflush & Hsp & Hcl & Hnow & Hrows).
  exists db'. split; [exact Hflush|]. repeat (split; [assumption|]).
  intros s key.
  rewrite Hrows, spaceID_calls, version_calls. cbn [new _spaceID _version].
  destruct (decide (s = sid)) as [->|]; [|reflexivity].
  pose proof (calls_cache db2 cs key (new sid cid ver)) as Hc.
  destruct (lastWrite key cs) as [[v|]|].
  - rewrite Hc. reflexivity.
  - rewrite Hc. reflexivity.
  - destruct Hc as [Hc|[_ [v Hc]]]; rewrite Hc.
    + simpl. rewrite lookup_empty. reflexivity.
    + reflexivity.
Qed.

(** X6: the overlay is transparent.  After any script of calls on a
    fresh transaction, [get] answers the value of the last [put] of the
    key, [undefined] when the last write of the key is a [del], and what
    [getEntry] answers when the script never wrote the key; [has]
    answers, and a [del] returns, whether that is a value. *)
Theorem script_reads_last_write db sid cid ver cs key :
  let tx := calls db (new sid cid ver) cs in
  let visible :=
    match lastWrite key cs with
    | Some w => w
    | None => Data.getEntry db sid key
    end in
  (get db tx key).1 = visible /\
  (has db tx key).1 = bool_decide (is_Some visible) /\
  (del db tx key).1 = bool_decide (is_Some visible).
Proof.
  intros tx visible. subst tx visible. split; [apply script_get|].
  rewrite del_value, has_value, script_get. split; reflexivity.
Qed.

(** X7: reads are repeatable.  Once a transaction has answered [get]
    for a key, it answers the same for that key from its overlay,
    without asking the store: also when the store has changed in between
    and the transaction has served other reads from the changed
    store. *)
Theorem get_is_repeatable db1 db2 tx key cs :
  Forall (fun c => isWrite c = false) cs ->
  let v := (get db1 tx key).1 in
  let tx1 := (get db1 tx key).2 in
  get db2 tx1 key = (v, tx1) /\
  (get db2 (calls db2 tx1 cs) key).1 = v /\
  (has db2 (calls db2 tx1 cs) key).1 = bool_decide (is_Some v).
Proof.
  intros Hreads v tx1.
  assert (Hslot : exists e, _cache tx1 !! key = Some e /\ value e = v).
  { subst tx1 v. rewrite get_cache, get_value.
    destruct (_cache tx !! key) as [e|]; [eauto|].
    rewrite decide_True by reflexivity. eauto. }
  destruct Hslot as (e & Hslot & Hv).
  assert (Hlater : _cache (calls db2 tx1 cs) !! key = Some e).
  { pose proof (calls_cache db2 cs key tx1) as Hc.
    rewrite (lastWrite_reads key cs Hreads) in Hc.
    destruct Hc as [Hc|[Hc _]]; congruence. }
  split; [|split].
  - unfold get. rewrite Hslot, Hv. reflexivity.
  - rewrite get_value, Hlater. exact Hv.
  - rewrite has_value, get_value, Hlater, Hv. reflexivity.
Qed.

Lemma get_is_repeatable_witness :
  Forall (fun c => isWrite c = false) [CallGet "issue/9"; CallHas "issue/1"] /\
  (get Examples.emptyDB
     (calls Examples.emptyDB
        (get Examples.oneEntryDB (new "s1" "c" 5) "issue/1").2
        [CallGet "issue/9"; CallHas "issue/1"]) "issue/1").1
  = (get Examples.oneEntryDB (new "s1" "c" 5) "issue/1").1.
Proof.
  assert (H : Forall (fun c => isWrite c = false)
                [CallGet "issue/9"; CallHas "issue/1"])
    by (repeat constructor).
  split; [exact H|].
  exact (proj1 (proj2 (get_is_repeatable Examples.oneEntryDB Examples.emptyDB
                         (new "s1" "c" 5) "issue/1" _ H))).
Defined.

(** The rows that the two statements of [flush] leave when they run in
    the other order. *)
Lemma put_then_del_rows db tx s k :
  fold_left
    (fun e k => alter (Data.softDelete (_version tx)) (_spaceID tx, k) e)
    (keysToDel tx)
    (fold_left (Data.upsertEntry (_spaceID tx) (_version tx) (Data.now db))
       (entriesToPut tx) (Data.entry db)) !! (s, k)
  = if decide (s = _spaceID tx)
    then flushedRow (_version tx) (Data.now db) (_cache tx !! k)
           (Data.entry db !! (s, k))
    else Data.entry db !! (s, k).
Proof.
  rewrite DataFacts.softDelete_fold_lookup.
  destruct (decide (s = _spaceID tx)) as [->|Hs].
  - unfold flushedRow.
    destruct (_cache tx !! k) as [[w d]|] eqn:Hc; cbn [dirty value].
    + destruct d; [destruct w as [v|]|].
      * rewrite decide_False.
        2:{ intros [_ Hin]. apply elem_of_keysToDel in Hin.
            rewrite Hc in Hin. discriminate. }
        apply DataFacts.upsert_this_key;
          [apply entriesToPut_NoDup | apply elem_of_entriesToPut, Hc].
      * rewrite decide_True
          by (split; [reflexivity | apply elem_of_keysToDel, Hc]).
        rewrite DataFacts.upsert_other_key; [reflexivity|].
        rewrite elem_of_entriesToPut_keys. intros [v Hv].
        rewrite Hc in Hv. discriminate.
      * rewrite decide_False.
        2:{ intros [_ Hin]. apply elem_of_keysToDel in Hin.
            rewrite Hc in Hin. discriminate. }
        apply DataFacts.upsert_other_key.
        rewrite elem_of_entriesToPut_keys. intros [v Hv].
        rewrite Hc in Hv. discriminate.
    + rewrite decide_False.
      2:{ intros [_ Hin]. apply elem_of_keysToDel in Hin.
          rewrite Hc in Hin. discriminate. }
      apply DataFacts.upsert_other_key.
      rewrite elem_of_entriesToPut_keys. intros [v Hv].
      rewrite Hc in Hv. discriminate.
  - rewrite decide_False by (intros [? _]; contradiction).
    apply DataFacts.upsert_other_space, Hs.
Qed.

(** X8: the two statements that [flush] sends through [Promise.all]
    commute.  No key is both in the batch of [delEntries] and in the
    batch of [putEntries], and running [putEntries] before [delEntries]
    gives the database that [flush] gives. *)
Theorem flush_statements_commute db tx :
  (let* db1 :=
     Data.putEntries db (_spaceID tx) (entriesToPut tx) (_version tx) in
   Data.delEntries db1 (_spaceID tx) (keysToDel tx) (_version tx))
  = flush db tx /\
  (forall k, k ∈ keysToDel tx -> k ∉ (entriesToPut tx).*1).
Proof.
  split.
  - destruct (flush_rows db tx) as (db' & -> & Hsp & Hcl & Hnow & Hrows).
    rewrite DataFacts.putEntries_Ok by apply entriesToPut_NoDup.
    cbn [bindR]. rewrite DataFacts.delEntries_Ok. f_equal.
    apply DataLaws.DB_eq; cbn [Data.withEntry Data.space Data.client Data.now
      Data.entry]; try congruence.
    apply map_eq. intros [s k]. rewrite Hrows. apply put_then_del_rows.
  - intros k Hdel Hput. apply elem_of_keysToDel in Hdel.
    apply elem_of_entriesToPut_keys in Hput as [v Hv].
    rewrite Hdel in Hv. discriminate.
Qed.

Lemma flushedRow_idem ver nowv slot old :
  flushedRow ver nowv slot (flushedRow ver nowv slot old)
  = flushedRow ver nowv slot old.
Proof.
  unfold flushedRow. destruct slot as [[w []]|]; cbn [dirty value];
    try reflexivity.
  destruct w; [reflexivity|]. destruct old; reflexivity.
Qed.

(** X9: [flush] does not clear the overlay, and flushing a transaction
    a second time through the same executor, for which [now()] has not
    moved, is harmless: it leaves the database that the first flush
    left. *)
Theorem flush_twice db tx :
  (let* db1 := flush db tx in flush db1 tx) = flush db tx.
Proof.
  destruct (flush_rows db tx) as (db1 & H1 & Hsp1 & Hcl1 & Hnow1 & Hrows1).
  rewrite H1. cbn [bindR].
  destruct (flush_rows db1 tx) as (db2 & -> & Hsp2 & Hcl2 & Hnow2 & Hrows2).
  f_equal. apply DataLaws.DB_eq; try congruence.
  apply map_eq. intros [s k]. rewrite Hrows2, Hrows1, Hnow1.
  destruct (decide (s = _spaceID tx)); [|reflexivity].
  apply flushedRow_idem.
Qed.

(** X10: [flush] makes the store agree with the overlay.  After a
    script of calls on a fresh transaction and its flush, [getEntry] on
    the new database, and [get] in any fresh transaction of the space on
    it, answer for every key what [get] answered in the flushed
    transaction. *)
Theorem flush_then_read db sid cid ver cs :
  let tx := calls db (new sid cid ver) cs in
  exists db',
    flush db tx = Ok db' /\
    forall key,
      Data.getEntry db' sid key = (get db tx key).1 /\
      forall cid' ver',
        (get db' (new sid cid' ver') key).1 = (get db tx key).1.
Proof.
  intros tx.
  destruct (flush_script_db db db sid cid ver cs)
    as (db' & Hflush & _ & _ & _ & Hrows).
  exists db'. split; [exact Hflush|]. intros key.
  assert (Hread : Data.getEntry db' sid key = (get db tx key).1).
  { subst tx. rewrite script_get. unfold Data.getEntry.
    rewrite Hrows, decide_True by reflexivity.
    destruct (lastWrite key cs) as [[v|]|]; [reflexivity| |reflexivity].
    destruct (Data.entry db !! (sid, key)); reflexivity. }
  split; [exact Hread|]. intros cid' ver'.
  rewrite get_value. cbn [new _cache _spaceID]. rewrite lookup_empty.
  exact Hread.
Qed.

(** X11: what [flush] writes depends on the writes of the transaction
    only.  The script with its [get] and [has] calls, served by any
    database, and the script without them lead to the same flushed
    database. *)
Theorem flush_ignores_reads db db2 sid cid ver cs :
  flush db (calls db2 (new sid cid ver) cs) =
  flush db (calls db (new sid cid ver) (List.filter isWrite cs)).
Proof.
  destruct (flush_script_db db db2 sid cid ver cs)
    as (d1 & -> & Hsp1 & Hcl1 & Hnow1 & Hrows1).
  destruct (flush_script_db db db sid cid ver (List.filter isWrite cs))
    as (d2 & -> & Hsp2 & Hcl2 & Hnow2 & Hrows2).
  f_equal. apply DataLaws.DB_eq; try congruence.
  apply map_eq. intros [s key].
  rewrite Hrows1, Hrows2, lastWrite_writes. reflexivity.
Qed.

End TransactionLaws.

(** ** What [initSpace] copies *)

Module SeedLaws.
Import Transaction Seed.

Section WithPutIssue.
Variable putIssue : Issue -> list Call.

Lemma seed_calls db issues : forall tx,
  fold_left (fun tx issue => calls db tx (putIssue issue)) issues tx
  = calls db tx (List.concat (putIssue <$> issues)).
Proof.
  induction issues as [|i issues IH]; intros tx; simpl; [reflexivity|].
  rewrite IH, TransactionLaws.calls_app. reflexivity.
Qed.

(** X12: when the sample space has its row, [initSpace] of a space
    without row and without entries does not seed again: the sample
    issues are not looked at, the space gets its row at version 1, and
    its entries are the rows of the sample space as they are at that
    moment, each with the value, the deleted flag, the version and the
    modification time it has there.  Rows of other spaces and the clients
    are as they were. *)
Theorem initSpace_copies_sample_space db spaceID issues :
  is_Some (Data.space db !! sampleSpaceID) ->
  Data.space db !! spaceID = None ->
  (forall k, Data.entry db !! (spaceID, k) = None) ->
  exists db1,
    initSpace putIssue db spaceID issues = Ok db1 /\
    (forall issues', initSpace putIssue db spaceID issues' = Ok db1) /\
    Data.space db1 =
      <[spaceID := {| Data.space_version := 1;
                      Data.space_lastmodified := Data.now db |}]>
        (Data.space db) /\
    Data.client db1 = Data.client db /\
    (forall k,
       Data.entry db1 !! (spaceID, k) = Data.entry db !! (sampleSpaceID, k)) /\
    (forall s k, s <> spaceID ->
       Data.entry db1 !! (s, k) = Data.entry db !! (s, k)).
Proof.
  intros [row Hsample] Hsid Hfree.
  assert (Hrun : forall l,
            initSpace putIssue db spaceID l =
            Data.copyEntries
              (Data.withSpace db
                 (<[spaceID := {| Data.space_version := 1;
                                  Data.space_lastmodified := Data.now db |}]>
                    (Data.space db)))
              spaceID sampleSpaceID).
  { intros l. unfold initSpace. rewrite Hsid, Hsample. cbn [bindR].
    unfold Data.insertSpace. rewrite Hsid. reflexivity. }
  destruct (Data.copyEntries
              (Data.withSpace db
                 (<[spaceID := {| Data.space_version := 1;
                                  Data.space_lastmodified := Data.now db |}]>
                    (Data.space db)))
              spaceID sampleSpaceID) as [db1|e] eqn:Hcopy.
  - exists db1. split; [apply Hrun|]. split; [exact Hrun|].
    apply SeedFacts.copyEntries_Ok in Hcopy as (Hsp & Hcl & Hrows).
    cbn [Data.withSpace Data.space Data.client Data.entry] in Hsp, Hcl, Hrows.
    split; [exact Hsp|]. split; [exact Hcl|]. split.
    + intros k. rewrite Hrows, decide_True by reflexivity.
      rewrite Hfree.
      destruct (Data.entry db !! (sampleSpaceID, k)); reflexivity.
    + intros s k Hs. rewrite Hrows, decide_False by assumption. reflexivity.
  - exfalso. unfold Data.copyEntries in Hcopy.
    rewrite decide_True in Hcopy; [discriminate|].
    intros k r _. cbn [Data.withSpace Data.entry]. apply Hfree.
Qed.

(** X13: when the sample space has no row yet, [initSpace] of another
    space without row and without entries seeds the sample space from
    the calls that [putIssue] makes for the sample issues, in their
    order, and copies it: in both spaces a key whose last write is a
    [put] has the live row with that value at version 1; a key whose last
    write is a [del] has the row that was stored for it under the sample
    space, when there was one, with [deleted = true] and version 1, its
    value and its modification time kept; a key that no call wrote has
    what was stored for it under the sample space. *)
Theorem initSpace_seeds_sample_space db spaceID issues :
  Data.space db !! sampleSpaceID = None ->
  spaceID <> sampleSpaceID ->
  Data.space db !! spaceID = None ->
  (forall k, Data.entry db !! (spaceID, k) = None) ->
  exists db1,
    initSpace putIssue db spaceID issues = Ok db1 /\
    forall key,
      Data.entry db1 !! (spaceID, key) = Data.entry db1 !! (sampleSpaceID, key)
      /\
      Data.entry db1 !! (sampleSpaceID, key) =
        match lastWrite key (List.concat (putIssue <$> issues)) with
        | Some (Some v) =>
            Some {| Data.value := v; Data.deleted := false;
                    Data.version := 1; Data.lastmodified := Data.now db |}
        | Some None =>
            (fun old =>
               {| Data.value := Data.value old; Data.deleted := true;
                  Data.version := 1;
                  Data.lastmodified := Data.lastmodified old |})
              <$> Data.entry db !! (sampleSpaceID, key)
        | None => Data.entry db !! (sampleSpaceID, key)
        end.
Proof.
  intros Hsample Hne Hsid Hfree.
  unfold initSpace. rewrite Hsid, Hsample.
  unfold seedSampleSpace, Data.insertSpace at 1. rewrite Hsample.
  cbn [bindR]. rewrite seed_calls.
  set (db0 := Data.withSpace db _).
  set (tx := calls db0 _ _).
  destruct (TransactionFacts.flush_rows db0 tx)
    as (d1 & -> & Hsp1 & _ & Hnow1 & Hrows1).
  cbn [bindR]. unfold Data.insertSpace.
  assert (Hsid1 : Data.space d1 !! spaceID = None).
  { rewrite Hsp1. subst db0. cbn [Data.withSpace Data.space].
    rewrite lookup_insert_ne by congruence. exact Hsid. }
  rewrite Hsid1. cbn [bindR].
  assert (Htx : _spaceID tx = sampleSpaceID)
    by (subst tx; apply TransactionFacts.spaceID_calls).
  assert (Hver : _version tx = 1%Z)
    by (subst tx; apply TransactionFacts.version_calls).
  rewrite Htx, Hver in Hrows1.
  set (d2 := Data.withSpace d1 _).
  destruct (Data.copyEntries d2 spaceID sampleSpaceID) as [db1|e] eqn:Hcopy.
  - exists db1. split; [reflexivity|]. intros key.
    apply SeedFacts.copyEntries_Ok in Hcopy as (_ & _ & Hrows).
    subst d2. cbn [Data.withSpace Data.entry] in Hrows.
    split.
    + rewrite !Hrows, decide_True, decide_False by congruence.
      rewrite (Hrows1 spaceID key), decide_False by assumption.
      subst db0. cbn [Data.withSpace Data.entry]. rewrite Hfree.
      destruct (Data.entry d1 !! (sampleSpaceID, key)); reflexivity.
    + rewrite Hrows, decide_False by congruence.
      rewrite Hrows1, decide_True by reflexivity.
      subst db0. cbn [Data.withSpace Data.entry Data.now].
      pose proof (TransactionFacts.calls_cache
                    (Data.withSpace db
                       (<[sampleSpaceID :=
                            {| Data.space_version := initialVersion;
                               Data.space_lastmodified := Data.now db |}]>
                          (Data.space db)))
                    (List.concat (putIssue <$> issues)) key
                    (new sampleSpaceID "fake-client-id-for-server-init"
                       initialVersion)) as Hc.
      fold tx in Hc.
      destruct (lastWrite key (List.concat (putIssue <$> issues)))
        as [[v|]|].
      * rewrite Hc. reflexivity.
      * rewrite Hc. reflexivity.
      * destruct Hc as [Hc|[_ [v Hc]]]; rewrite Hc.
        -- simpl. rewrite lookup_empty. reflexivity.
        -- reflexivity.
  - exfalso. unfold Data.copyEntries in Hcopy.
    rewrite decide_True in Hcopy; [discriminate|].
    intros k r _. subst d2. cbn [Data.withSpace Data.entry].
    rewrite Hrows1, decide_False by assumption.
    subst db0. cbn [Data.withSpace Data.entry]. apply Hfree.
Qed.

End WithPutIssue.

Lemma initSpace_copies_sample_space_witness :
  is_Some (Data.space MoreExamples.seededDB !! sampleSpaceID) /\
  exists db1,
    initSpace Examples.putIssue MoreExamples.seededDB "s1" [] = Ok db1 /\
    Data.entry db1 !! ("s1", "issue/2") =
      Some {| Data.value := Examples.value2; Data.deleted := true;
              Data.version := 3; Data.lastmodified := 900 |}.
Proof.
  assert (Hs : is_Some (Data.space MoreExamples.seededDB !! sampleSpaceID))
    by (eexists; reflexivity).
  split; [exact Hs|].
  destruct (initSpace_copies_sample_space Examples.putIssue
              MoreExamples.seededDB "s1" [] Hs)
    as (db1 & Hrun & _ & _ & _ & Hcopy & _).
  - reflexivity.
  - intros k. unfold MoreExamples.seededDB. cbn [Data.entry].
    rewrite lookup_insert_ne by discriminate.
    apply lookup_singleton_ne. discriminate.
  - exists db1. split; [exact Hrun|]. rewrite Hcopy. reflexivity.
Defined.

Lemma initSpace_seeds_sample_space_witness :
  Data.space Examples.emptyDB !! sampleSpaceID = None /\
  exists db1,
    initSpace Examples.putIssue Examples.emptyDB "s1" [Examples.sampleIssue]
    = Ok db1 /\
    Data.entry db1 !! ("s1", "issue/1") =
      Some {| Data.value := Examples.issueValue "First" "TODO" 20 10;
              Data.deleted := false; Data.version := 1;
              Data.lastmodified := 1000 |}.
Proof.
  split; [reflexivity|].
  destruct (initSpace_seeds_sample_space Examples.putIssue Examples.emptyDB
              "s1" [Examples.sampleIssue]) as (db1 & Hrun & Hrows).
  - reflexivity.
  - discriminate.
  - reflexivity.
  - intros k. apply lookup_empty.
  - exists db1. split; [exact Hrun|].
    destruct (Hrows "issue/1") as [-> ->]. reflexivity.
Defined.

End SeedLaws.

(** ** Incremental pulls *)

Module PullLaws.
Import Pull.

Lemma patchKey_changed (l : list (string * JSONValue * bool)) :
  patchKey <$>
    ((fun kvd : string * JSONValue * bool =>
        patchOf (kvd.1.1, kvd.1.2, Some kvd.2)) <$> l)
  = (fun e : string * JSONValue * bool => e.1.1) <$> l.
Proof.
  rewrite <- list_fmap_compose. apply list_fmap_ext.
  intros _ [[k v] []] _; reflexivity.
Qed.

Lemma elem_of_changedPatch_del db sid ver k :
  PatchDel k ∈ changedPatch db sid ver <->
  exists row,
    Data.entry db !! (sid, k) = Some row /\
    (ver < Data.version row)%Z /\ Data.deleted row = true.
Proof.
  unfold changedPatch. rewrite list_elem_of_fmap. split.
  - intros [[[k' v] d] [Hop Hin]].
    apply PullFacts.elem_of_getChangedEntries in Hin
      as (row & Hrow & Hlt & -> & ->).
    simpl in Hop. destruct (Data.deleted row) eqn:Hd; [|discriminate].
    inversion Hop; subst. eauto.
  - intros (row & Hrow & Hlt & Hd).
    exists (k, Data.value row, true). split; [reflexivity|].
    apply PullFacts.elem_of_getChangedEntries. exists row. auto.
Qed.

Lemma elem_of_changedPatch_put db sid ver k v :
  PatchPut k v ∈ changedPatch db sid ver <->
  exists row,
    Data.entry db !! (sid, k) = Some row /\
    (ver < Data.version row)%Z /\ Data.deleted row = false /\
    Data.value row = v.
Proof.
  unfold changedPatch. rewrite list_elem_of_fmap. split.
  - intros [[[k' v'] d] [Hop Hin]].
    apply PullFacts.elem_of_getChangedEntries in Hin
      as (row & Hrow & Hlt & -> & ->).
    simpl in Hop. destruct (Data.deleted row) eqn:Hd; [discriminate|].
    inversion Hop; subst. eauto.
  - intros (row & Hrow & Hlt & Hd & Hv).
    exists (k, v, false). split; [reflexivity|].
    apply PullFacts.elem_of_getChangedEntries. exists row. auto.
Qed.

Section Handler.
Variable getIssueMeta : Data.DB -> string -> list Entry.
Variable getNonIssueMetaEntries :
  Data.DB -> string -> string -> nat -> list Entry.
Variable getVersion : Data.DB -> string -> Z.

Abbreviation pull :=
  (Pull.pull getIssueMeta getNonIssueMetaEntries getVersion).

Lemma pull_incremental_patch db spaceID cid ver :
  patch (pull db spaceID
           {| clientID := cid;
              cookie := Some {| version := ver; endKey := None |} |})
  = changedPatch db spaceID ver.
Proof.
  unfold Pull.pull, pullTransaction, changedPatch.
  cbn [cookie endKey version patch].
  rewrite <- list_fmap_compose. reflexivity.
Qed.

(** X14: a pull whose cookie has a version and no [endKey] is
    incremental.  The response cookie has the version of the space and
    no [endKey]; the patch names every key at most once; it holds [del]
    for exactly the keys whose row is deleted and has a version above the
    cookie's, and [put] with the stored value for exactly the keys whose
    row is live and has a version above the cookie's.  The patch is the
    one of the changed rows: nothing is appended, the control entry
    neither. *)
Theorem pull_incremental db spaceID cid ver :
  let resp :=
    pull db spaceID
      {| clientID := cid;
         cookie := Some {| version := ver; endKey := None |} |} in
  responseCookie resp =
    {| version := getVersion db spaceID; endKey := None |} /\
  patch resp = changedPatch db spaceID ver /\
  NoDup (patchKey <$> patch resp) /\
  (forall k,
     PatchDel k ∈ patch resp <->
     exists row,
       Data.entry db !! (spaceID, k) = Some row /\
       (ver < Data.version row)%Z /\ Data.deleted row = true) /\
  (forall k v,
     PatchPut k v ∈ patch resp <->
     exists row,
       Data.entry db !! (spaceID, k) = Some row /\
       (ver < Data.version row)%Z /\ Data.deleted row = false /\
       Data.value row = v).
Proof.
  intros resp. subst resp. rewrite pull_incremental_patch.
  split; [reflexivity|]. split; [reflexivity|]. split; [|split].
  - unfold changedPatch. rewrite patchKey_changed.
    apply DataLaws.changed_keys_NoDup, NoDup_fst_map_to_list.
  - intros k. apply elem_of_changedPatch_del.
  - intros k v. apply elem_of_changedPatch_put.
Qed.

(** X15: whatever the cookie of the request, the response carries the
    last mutation id that is stored for the client, and 0 for a client
    that has no row; after [setLastMutationID] for the client it carries
    the id that was set. *)
Theorem pull_lastMutationID db spaceID cid c :
  lastMutationID (pull db spaceID {| clientID := cid; cookie := c |}) =
    default 0%Z (Data.getLastMutationID db cid) /\
  (Data.client db !! cid = None ->
   lastMutationID (pull db spaceID {| clientID := cid; cookie := c |}) = 0%Z)
  /\
  forall n,
    lastMutationID
      (pull (Data.setLastMutationID db cid n) spaceID
         {| clientID := cid; cookie := c |}) = n.
Proof.
  assert (H : forall d,
            lastMutationID (pull d spaceID {| clientID := cid; cookie := c |})
            = default 0%Z (Data.getLastMutationID d cid)).
  { intros d. unfold Pull.pull, pullTransaction. cbn [cookie clientID].
    destruct c as [[ver [requestEndKey|]]|]; reflexivity. }
  split; [apply H|]. split.
  - intros Hnone. rewrite H. unfold Data.getLastMutationID.
    rewrite Hnone. reflexivity.
  - intros n. rewrite H.
    unfold Data.getLastMutationID, Data.setLastMutationID.
    cbn [Data.client Data.withClient]. rewrite lookup_insert_eq.
    reflexivity.
Qed.

(** X16: what a transaction flushed at a version reaches every client
    whose cookie is older.  After a script of calls on a fresh
    transaction and its flush, an incremental pull with a smaller cookie
    version holds [put] with the value for each key whose last write is
    a [put], and no [del] for it; for a key whose last write is a [del] it
    holds [del] exactly when the key had a row, and no [put]; and for a
    key that the script did not write it holds what the same pull held
    before the flush. *)
Theorem pull_after_flush db spaceID cid ver cs cid' cver :
  (cver < ver)%Z ->
  let tx := Transaction.calls db (Transaction.new spaceID cid ver) cs in
  exists db',
    Transaction.flush db tx = Ok db' /\
    forall key,
      let request :=
        {| clientID := cid';
           cookie := Some {| version := cver; endKey := None |} |} in
      match Transaction.lastWrite key cs with
      | Some (Some v) =>
          PatchPut key v ∈ patch (pull db' spaceID request) /\
          PatchDel key ∉ patch (pull db' spaceID request)
      | Some None =>
          (PatchDel key ∈ patch (pull db' spaceID request) <->
           is_Some (Data.entry db !! (spaceID, key))) /\
          (forall v, PatchPut key v ∉ patch (pull db' spaceID request))
      | None =>
          forall op, patchKey op = key ->
            (op ∈ patch (pull db' spaceID request) <->
             op ∈ patch (pull db spaceID request))
      end.
Proof.
  intros Hlt tx.
  destruct (TransactionLaws.flush_script_db db db spaceID cid ver cs)
    as (db' & Hflush & _ & _ & _ & Hrows).
  exists db'. split; [exact Hflush|]. intros key request. subst request.
  rewrite !pull_incremental_patch. specialize (Hrows spaceID key).
  rewrite decide_True in Hrows by reflexivity.
  destruct (Transaction.lastWrite key cs) as [[v|]|].
  - split.
    + apply elem_of_changedPatch_put. eexists. split; [exact Hrows|].
      simpl. auto.
    + rewrite elem_of_changedPatch_del. intros (row & Hrow & _ & Hd).
      rewrite Hrows in Hrow. inversion Hrow; subst. discriminate.
  - split.
    + rewrite elem_of_changedPatch_del, Hrows. split.
      * intros (row & Hrow & _).
        destruct (Data.entry db !! (spaceID, key)); [eauto | discriminate].
      * intros [old Hold]. rewrite Hold. eexists. split; [reflexivity|].
        simpl. auto.
    + intros v. rewrite elem_of_changedPatch_put, Hrows.
      intros (row & Hrow & _ & Hd & _).
      destruct (Data.entry db !! (spaceID, key)); inversion Hrow; subst.
      discriminate.
  - intros op <-. destruct op as [k v|k]; cbn [patchKey] in *.
    + rewrite !elem_of_changedPatch_put, Hrows. reflexivity.
    + rewrite !elem_of_changedPatch_del, Hrows. reflexivity.
Qed.

(** C7, as the code has it: [delEntries] at a version removes no row.  A
    key of the batch that has a row keeps it, with [deleted = true] and
    the version of the delete, and a pull whose cookie has a smaller
    version and no [endKey] then carries [del] for the key; a key that
    has no row gets none, and no [del].  The patch has no [put] for the
    key.  In a later database the same pull carries the [del] as long as
    the row stands as the delete left it.  It does not after the key is
    put again: the upsert makes the row live at the version of the put,
    and from then on a pull carries no [del] for the key, whatever its
    cookie, and the [put] when the version of its cookie is below that of
    the put. *)
Theorem pull_reports_deleted_key db spaceID keys key ver cid cver :
  key ∈ keys ->
  (cver < ver)%Z ->
  let request :=
    {| clientID := cid;
       cookie := Some {| version := cver; endKey := None |} |} in
  exists db1,
    Data.delEntries db spaceID keys ver = Ok db1 /\
    match Data.entry db !! (spaceID, key) with
    | Some old =>
        Data.entry db1 !! (spaceID, key) =
          Some {| Data.value := Data.value old; Data.deleted := true;
                  Data.version := ver;
                  Data.lastmodified := Data.lastmodified old |} /\
        PatchDel key ∈ patch (pull db1 spaceID request)
    | None =>
        Data.entry db1 !! (spaceID, key) = None /\
        PatchDel key ∉ patch (pull db1 spaceID request)
    end /\
    (forall v, PatchPut key v ∉ patch (pull db1 spaceID request)) /\
    (forall db',
       Data.entry db' !! (spaceID, key) = Data.entry db1 !! (spaceID, key) ->
       (PatchDel key ∈ patch (pull db' spaceID request) <->
        is_Some (Data.entry db !! (spaceID, key)))) /\
    (forall db' entries v ver2,
       NoDup (entries.*1) ->
       (key, v) ∈ entries ->
       exists db2,
         Data.putEntries db' spaceID entries ver2 = Ok db2 /\
         Data.entry db2 !! (spaceID, key) =
           Some {| Data.value := v; Data.deleted := false;
                   Data.version := ver2;
                   Data.lastmodified := Data.now db' |} /\
         forall cid' cver',
           let request' :=
             {| clientID := cid';
                cookie := Some {| version := cver'; endKey := None |} |} in
           (PatchDel key ∉ patch (pull db2 spaceID request')) /\
           (PatchPut key v ∈ patch (pull db2 spaceID request') <->
            (cver' < ver2)%Z)).
Proof.
  intros Hkey Hlt request. subst request.
  rewrite DataFacts.delEntries_Ok. eexists. split; [reflexivity|].
  match goal with
  | |- context [Data.withEntry db ?e] => set (db1 := Data.withEntry db e)
  end.
  assert (Hrow : Data.entry db1 !! (spaceID, key) =
                 Data.softDelete ver <$> Data.entry db !! (spaceID, key)).
  { subst db1. cbn [Data.entry Data.withEntry].
    rewrite DataFacts.softDelete_fold_lookup.
    rewrite decide_True by (split; [reflexivity | assumption]).
    reflexivity. }
  clearbody db1. split; [|split; [|split]].
  - rewrite pull_incremental_patch.
    destruct (Data.entry db !! (spaceID, key)) as [old|];
      rewrite elem_of_changedPatch_del.
    + split; [exact Hrow|]. eexists. split; [exact Hrow|]. simpl. auto.
    + split; [exact Hrow|]. intros (row & Hr & _).
      rewrite Hrow in Hr. discriminate.
  - intros v. rewrite pull_incremental_patch, elem_of_changedPatch_put.
    intros (row & Hr & _ & Hd & _). rewrite Hrow in Hr.
    destruct (Data.entry db !! (spaceID, key)); inversion Hr; subst.
    discriminate.
  - intros db' Hsame.
    rewrite pull_incremental_patch, elem_of_changedPatch_del, Hsame, Hrow.
    split.
    + intros (row & Hr & _).
      destruct (Data.entry db !! (spaceID, key)); [eauto | discriminate].
    + intros [old Hold]. rewrite Hold. eexists. split; [reflexivity|].
      simpl. auto.
  - intros db' entries v ver2 Hnd Hin.
    rewrite DataFacts.putEntries_Ok by assumption.
    eexists. split; [reflexivity|].
    match goal with
    | |- context [Data.withEntry db' ?e] => set (db2 := Data.withEntry db' e)
    end.
    assert (Hput : Data.entry db2 !! (spaceID, key) =
                   Some (Data.putRow v ver2 (Data.now db'))).
    { subst db2. cbn [Data.entry Data.withEntry].
      apply DataFacts.upsert_this_key; assumption. }
    clearbody db2. split; [exact Hput|]. intros cid' cver' request'.
    subst request'. rewrite pull_incremental_patch. split.
    + rewrite elem_of_changedPatch_del. intros (row & Hr & _ & Hd).
      rewrite Hput in Hr. inversion Hr; subst. discriminate.
    + rewrite elem_of_changedPatch_put. split.
      * intros (row & Hr & Hl & _). rewrite Hput in Hr.
        inversion Hr; subst. exact Hl.
      * intros Hl. eexists. split; [exact Hput|]. simpl. auto.
Qed.

End Handler.

Lemma pull_reports_deleted_key_witness :
  "issue/1" ∈ ["issue/1"] /\
  (3 < 5)%Z /\
  exists db1,
    Data.delEntries Examples.oneEntryDB "s1" ["issue/1"] 5 = Ok db1 /\
    Data.entry db1 !! ("s1", "issue/1") =
      Some {| Data.value := Examples.value1; Data.deleted := true;
              Data.version := 5; Data.lastmodified := 800 |} /\
    PatchDel "issue/1" ∈
      patch (Pull.pull Examples.noEntries Examples.noPage
               Examples.versionOf db1 "s1" MoreExamples.incremental).
Proof.
  split; [left|]. split; [reflexivity|].
  destruct (pull_reports_deleted_key Examples.noEntries Examples.noPage
              Examples.versionOf Examples.oneEntryDB "s1" ["issue/1"]
              "issue/1" 5 "c2" 3 ltac:(left) eq_refl)
    as (db1 & Hdel & Hrow & _).
  exists db1. split; [exact Hdel | exact Hrow].
Defined.

(** The claim C7 as stated fails for a key that is put again after it was
    deleted, and for a key that has no row.  The entry of
    [Examples.oneEntryDB] is deleted at version 5 and put again at
    version 6: a pull with the cursor version 3, below the version of the
    delete, returns the put and no [del].  The key ["issue/9"] has no
    row: its delete at version 5 leaves the database as it is, and the
    same pull returns nothing. *)
Lemma deleted_key_put_again_is_not_reported :
  Data.delEntries Examples.oneEntryDB "s1" ["issue/1"] 5
  = Ok MoreExamples.deletedDB /\
  Data.putEntries MoreExamples.deletedDB "s1"
    [("issue/1", Examples.value1')] 6
  = Ok MoreExamples.writtenAgainDB /\
  (3 < 5)%Z /\
  patch (Pull.pull Examples.noEntries Examples.noPage Examples.versionOf
           MoreExamples.writtenAgainDB "s1"
           {| clientID := "c2";
              cookie := Some {| version := 3; endKey := None |} |})
  = [PatchPut "issue/1" Examples.value1'] /\
  (PatchDel "issue/1" ∉
     patch (Pull.pull Examples.noEntries Examples.noPage Examples.versionOf
              MoreExamples.writtenAgainDB "s1"
              {| clientID := "c2";
                 cookie := Some {| version := 3; endKey := None |} |})) /\
  Data.entry Examples.oneEntryDB !! ("s1", "issue/9") = None /\
  Data.delEntries Examples.oneEntryDB "s1" ["issue/9"] 5
  = Ok Examples.oneEntryDB /\
  patch (Pull.pull Examples.noEntries Examples.noPage Examples.versionOf
           Examples.oneEntryDB "s1"
           {| clientID := "c2";
              cookie := Some {| version := 3; endKey := None |} |})
  = [].
Proof.
  assert (Hpatch :
            patch (Pull.pull Examples.noEntries Examples.noPage
                     Examples.versionOf MoreExamples.writtenAgainDB "s1"
                     {| clientID := "c2";
                        cookie := Some {| version := 3; endKey := None |} |})
            = [PatchPut "issue/1" Examples.value1'])
    by (vm_compute; reflexivity).
  split; [vm_compute; reflexivity|]. split; [vm_compute; reflexivity|].
  split; [reflexivity|]. split; [exact Hpatch|]. split.
  - rewrite Hpatch. intros Hin. apply elem_of_cons in Hin as [Heq|Hin].
    + discriminate.
    + apply elem_of_nil in Hin as [].
  - split; [reflexivity|]. split; vm_compute; reflexivity.
Qed.

Section Endpoint.
Variable putIssue : Issue -> list Transaction.Call.
Variable getIssueMeta : Data.DB -> string -> list Entry.
Variable getNonIssueMetaEntries :
  Data.DB -> string -> string -> nat -> list Entry.
Variable getVersion : Data.DB -> string -> Z.

(** C6, at the space id that the code reserves for the sample space: on
    a database that has no row for ["sampleSpaceID"], the handler of a
    pull for that space ends in the error of [initSpace] before it looks
    at the cookie, so a pull without cookie against this fresh space has
    no response, neither patch nor cookie, whatever [getIssueMeta] and
    [getVersion] are.  For a fresh space with any other id the handler
    initialises the space at version 1 and returns: the patch is one
    operation for each row that [getIssueMeta] gives for the initialised
    database, and the cookie has the version that [getVersion] gives for
    it and the empty [endKey]. *)
Theorem pull_of_fresh_sample_space_fails db issues :
  Data.space db !! Seed.sampleSpaceID = None ->
  (forall req,
     Endpoint.pull putIssue getIssueMeta getNonIssueMetaEntries getVersion
       db "sampleSpaceID" issues req = Err UniqueViolation) /\
  forall spaceID cid,
    spaceID <> "sampleSpaceID" ->
    Data.space db !! spaceID = None ->
    (forall k, Data.entry db !! (spaceID, k) = None) ->
    exists db1 resp,
      Endpoint.pull putIssue getIssueMeta getNonIssueMetaEntries getVersion
        db spaceID issues {| clientID := cid; cookie := None |}
      = Ok (db1, resp) /\
      Seed.initSpace putIssue db spaceID issues = Ok db1 /\
      Data.getCookie db1 spaceID = Some 1%Z /\
      patch resp = patchOf <$> getIssueMeta db1 spaceID /\
      responseCookie resp =
        {| version := getVersion db1 spaceID; endKey := Some "" |}.
Proof.
  intros Habs. split.
  - intros req. unfold Endpoint.pull.
    change "sampleSpaceID" with Seed.sampleSpaceID.
    rewrite (SeedFacts.initSpace_sample_fails putIssue db issues Habs).
    reflexivity.
  - intros spaceID cid Hne Hsid Hrows.
    destruct (SeedFacts.initSpace_fresh putIssue db spaceID issues
                Hne Hsid Hrows) as (db1 & Hinit & Hsp & _ & _).
    exists db1. eexists. unfold Endpoint.pull. rewrite Hinit.
    split; [reflexivity|]. split; [reflexivity|]. split.
    + unfold Data.getCookie. rewrite Hsp. reflexivity.
    + split; reflexivity.
Qed.

End Endpoint.

Lemma pull_of_fresh_sample_space_fails_witness :
  Data.space Examples.emptyDB !! Seed.sampleSpaceID = None /\
  Endpoint.pull Examples.putIssue Examples.noEntries Examples.noPage
    Examples.versionOf Examples.emptyDB "sampleSpaceID"
    [Examples.sampleIssue] {| clientID := "c"; cookie := None |}
  = Err UniqueViolation.
Proof.
  split; [reflexivity|].
  exact (proj1 (pull_of_fresh_sample_space_fails Examples.putIssue
                  Examples.noEntries Examples.noPage Examples.versionOf
                  Examples.emptyDB [Examples.sampleIssue] eq_refl) _).
Defined.

Lemma pull_after_flush_witness :
  (3 < 5)%Z /\
  exists db',
    Transaction.flush Examples.oneEntryDB
      (Transaction.calls Examples.oneEntryDB (Transaction.new "s1" "c" 5)
         MoreExamples.writes) = Ok db' /\
    PatchPut "issue/2" Examples.value2 ∈
      patch (Pull.pull Examples.noEntries Examples.noPage
               Examples.versionOf db' "s1" MoreExamples.incremental) /\
    PatchDel "issue/1" ∈
      patch (Pull.pull Examples.noEntries Examples.noPage
               Examples.versionOf db' "s1" MoreExamples.incremental).
Proof.
  split; [reflexivity|].
  destruct (pull_after_flush Examples.noEntries Examples.noPage
              Examples.versionOf Examples.oneEntryDB "s1" "c" 5
              MoreExamples.writes "c2" 3 eq_refl) as (db' & Hflush & Hkeys).
  exists db'. split; [exact Hflush|]. split.
  - exact (proj1 (Hkeys "issue/2")).
  - apply (proj1 (Hkeys "issue/1")). eexists. reflexivity.
Defined.

End PullLaws.

(** ** The counts and the actions of the reducer *)

Module ReducerLaws.
Import Lodash App LodashFacts AppFacts AppView.

(** The count of [countViewIssues] is the number of issues that pass the
    view filter. *)
Lemma countViewIssues_from f l : forall c,
  fold_left
    (fun count issue =>
       if Filter_filter (viewFilter f) issue then (count + 1)%Z else count)
    l c
  = (c + Z.of_nat (List.length
                     (List.filter (Filter_filter (viewFilter f)) l)))%Z.
Proof.
  induction l as [|i l IH]; intros c; simpl; [lia|].
  rewrite IH. destruct (Filter_filter (viewFilter f) i); simpl; lia.
Qed.

Lemma countViewIssues_length f l :
  countViewIssues f l =
  Z.of_nat (List.length (List.filter (Filter_filter (viewFilter f)) l)).
Proof. unfold countViewIssues. rewrite countViewIssues_from. lia. Qed.

Lemma countViewIssues_perm f l1 l2 :
  Permutation l1 l2 -> countViewIssues f l1 = countViewIssues f l2.
Proof.
  intros H. rewrite !countViewIssues_length.
  rewrite (Permutation_length (filter_perm _ _ _ H)). reflexivity.
Qed.

Lemma countViewIssues_cons f i l :
  countViewIssues f (i :: l) =
  (countViewIssues f l +
   if Filter_filter (viewFilter f) i then 1 else 0)%Z.
Proof.
  rewrite !countViewIssues_length. simpl.
  destruct (Filter_filter (viewFilter f) i); simpl; lia.
Qed.

(** Sorting a sorted list leaves it as it is. *)
Lemma sortBy_sorted_id {A} (key : A -> string) (l : list A) :
  StronglySorted (keyLe key) l -> sortBy key l = l.
Proof.
  induction 1 as [|x l Hl IH Hx]; [reflexivity|].
  change (sortBy key (x :: l)) with (insertBy key x (sortBy key l)).
  rewrite IH. destruct l as [|y l']; [reflexivity|].
  simpl. apply Forall_cons in Hx as [Hxy _]. unfold keyLe in Hxy.
  rewrite Hxy. reflexivity.
Qed.

Lemma filter_length_impl {A} (f g : A -> bool) (l : list A) :
  (forall x, f x = true -> g x = true) ->
  List.length (List.filter f l) <= List.length (List.filter g l).
Proof.
  intros Himp. induction l as [|x l IH]; simpl; [lia|].
  destruct (f x) eqn:Hf.
  - rewrite (Himp x Hf). simpl. lia.
  - destruct (g x); simpl; lia.
Qed.

Section Reducer.
Variable issueFromKeyAndValue : string -> JSONValue -> Issue.
Variable issuePrefix : string.

Abbreviation reducer := (App.reducer issueFromKeyAndValue).
Abbreviation applyDiffOp := (App.applyDiffOp issueFromKeyAndValue).
Abbreviation reachable := (App.reachable issueFromKeyAndValue issuePrefix).

Lemma applyDiffOp_count f o acc op :
  wfOp issueFromKeyAndValue issuePrefix (newAllIssuesMap acc) op ->
  newViewIssueCount acc = countViewIssues f (values (newAllIssuesMap acc)) ->
  newViewIssueCount (applyDiffOp f o acc op) =
  countViewIssues f
    (values (mapAfter issueFromKeyAndValue (newAllIssuesMap acc) op)).
Proof.
  destruct acc as [m c l]. cbn [newAllIssuesMap newViewIssueCount].
  intros Hop ->. destruct op as [k nv|k ov|k ov nv];
    cbn [App.applyDiffOp addIssue removeIssue deleteKey newViewIssueCount
         newAllIssuesMap mapAfter wfOp] in *.
  - destruct Hop as [_ Hk].
    rewrite (countViewIssues_perm f _ _ (values_insert m k _ Hk)).
    rewrite countViewIssues_cons.
    destruct (Filter_filter (viewFilter f) (issueFromKeyAndValue k nv)); lia.
  - rewrite (countViewIssues_perm f _ _ (values_delete m k _ Hop)).
    rewrite countViewIssues_cons.
    destruct (Filter_filter (viewFilter f) (issueFromKeyAndValue k ov)); lia.
  - rewrite (countViewIssues_perm f _ _ (values_delete m k _ Hop)).
    rewrite <- (insert_delete_eq m k).
    rewrite (countViewIssues_perm f _ _
               (values_insert (delete k m) k _ (lookup_delete_eq m k))).
    rewrite !countViewIssues_cons.
    destruct (Filter_filter (viewFilter f) (issueFromKeyAndValue k ov)),
      (Filter_filter (viewFilter f) (issueFromKeyAndValue k nv)); lia.
Qed.

Lemma diff_count f o diff : forall acc,
  wfDiff issueFromKeyAndValue issuePrefix (newAllIssuesMap acc) diff ->
  newViewIssueCount acc = countViewIssues f (values (newAllIssuesMap acc)) ->
  let acc' := fold_left (applyDiffOp f o) diff acc in
  newViewIssueCount acc' = countViewIssues f (values (newAllIssuesMap acc')).
Proof.
  induction diff as [|op diff IH]; intros acc Hwf Hc; simpl; [exact Hc|].
  destruct Hwf as [Hop Hwf]. apply IH.
  - rewrite applyDiffOp_map. exact Hwf.
  - rewrite applyDiffOp_map. apply applyDiffOp_count; assumption.
Qed.

Lemma reachable_count s :
  reachable s ->
  viewIssueCount s = countViewIssues (filters s) (values (allIssuesMap s)).
Proof.
  induction 1 as [s0 m Hm|s diff _ IH Hwf|s f _ IH|s o _ IH].
  - reflexivity.
  - cbn [App.reducer allIssuesMap viewIssueCount filters].
    apply (diff_count (filters s) (issueOrder s) diff
             {| newAllIssuesMap := allIssuesMap s;
                newViewIssueCount := viewIssueCount s;
                newFilteredIssues := filteredIssues s |}); assumption.
  - reflexivity.
  - exact IH.
Qed.

(** X17: in every state that an [init] and then well-formed [diff]s
    lead to, whatever [setFilters] and [setIssueOrder] come in between,
    [viewIssueCount] is what [countViewIssues] computes from the map: the
    number of issues of [allIssuesMap] that pass the view filter.  It is
    never negative and never above the size of the map. *)
Theorem reachable_viewIssueCount s :
  reachable s ->
  viewIssueCount s = countViewIssues (filters s) (values (allIssuesMap s)) /\
  viewIssueCount s =
    Z.of_nat (List.length
                (List.filter (Filter_filter (viewFilter (filters s)))
                   (values (allIssuesMap s)))) /\
  (0 <= viewIssueCount s <= Z.of_nat (size (allIssuesMap s)))%Z.
Proof.
  intros Hr. pose proof (reachable_count s Hr) as Hc.
  split; [exact Hc|]. rewrite Hc, countViewIssues_length.
  split; [reflexivity|]. split; [lia|].
  apply inj_le. etransitivity; [apply filter_length_le|].
  unfold values. rewrite length_fmap, length_map_to_list. reflexivity.
Qed.

(** X18: the case [change] of the [diff] loop does what the case [del]
    with the old value followed by the case [add] with the new value
    does, for every accumulator, well-formed or not: the map has the same
    entries, and the count and the list are the same.  So a diff with one
    [change] and the diff with that [del] and that [add] lead to states
    with the same entries, the same count and the same list. *)
Theorem change_is_del_then_add f o acc key oldValue newValue :
  applyDiffOp f o acc (DiffChange key oldValue newValue) =
  applyDiffOp f o (applyDiffOp f o acc (DiffDel key oldValue))
    (DiffAdd key newValue) /\
  forall s,
    reducer s (ActDiff [DiffChange key oldValue newValue]) =
    reducer s (ActDiff [DiffDel key oldValue; DiffAdd key newValue]).
Proof.
  assert (H : forall f o a,
            applyDiffOp f o a (DiffChange key oldValue newValue) =
            applyDiffOp f o (applyDiffOp f o a (DiffDel key oldValue))
              (DiffAdd key newValue)).
  { clear. intros f o a. cbn [App.applyDiffOp]. unfold addIssue, deleteKey.
    cbn [newAllIssuesMap newViewIssueCount newFilteredIssues].
    rewrite insert_delete_eq. reflexivity. }
  split; [apply H|]. intros s.
  cbn [App.reducer fold_left]. rewrite H. reflexivity.
Qed.

(** X19: diffs compose.  Dispatching two [diff] actions one after the
    other leads to the state that one [diff] action with the operations
    of both, in their order, leads to; the empty diff changes
    nothing. *)
Theorem diff_concat s diff1 diff2 :
  reducer (reducer s (ActDiff diff1)) (ActDiff diff2) =
  reducer s (ActDiff (diff1 ++ diff2)) /\
  reducer s (ActDiff []) = s.
Proof.
  split; [|destruct s; reflexivity].
  cbn [App.reducer allIssuesMap viewIssueCount filteredIssues filters
       issueOrder].
  rewrite fold_left_app.
  destruct (fold_left (applyDiffOp (filters s) (issueOrder s)) diff1 _);
    reflexivity.
Qed.

(** X20: [setIssueOrder] with the order that is already set is
    harmless.  A second dispatch of the same [setIssueOrder] leaves the
    state that the first one left, and on a list that is sorted by the
    key of the order already the action leaves the list as it is. *)
Theorem setIssueOrder_twice s o :
  reducer (reducer s (ActSetIssueOrder o)) (ActSetIssueOrder o) =
  reducer s (ActSetIssueOrder o) /\
  (StronglySorted (keyLe (order o)) (filteredIssues s) ->
   filteredIssues (reducer s (ActSetIssueOrder o)) = filteredIssues s).
Proof.
  split.
  - cbn [App.reducer allIssuesMap viewIssueCount filteredIssues filters
         issueOrder].
    rewrite (sortBy_sorted_id (order o) (sortBy (order o) (filteredIssues s)))
      by apply sortBy_sorted.
    reflexivity.
  - intros Hs. cbn [App.reducer filteredIssues].
    apply sortBy_sorted_id, Hs.
Qed.

Section UniqueIds.
Hypothesis issue_id_inj : forall k1 v1 k2 v2,
  isIssueKey issuePrefix k1 -> isIssueKey issuePrefix k2 ->
  id (issueFromKeyAndValue k1 v1) = id (issueFromKeyAndValue k2 v2) ->
  k1 = k2.

(** X21: in a state that an [init] and then well-formed [diff]s lead
    to, [setFilters] and [setIssueOrder] commute: re-sorting the list
    that the new filters leave gives the state that filtering and sorting
    under the new order gives.  Issues built from different keys have
    different ids. *)
Theorem setFilters_setIssueOrder_commute s f o :
  reachable s ->
  reducer (reducer s (ActSetFilters f)) (ActSetIssueOrder o) =
  reducer (reducer s (ActSetIssueOrder o)) (ActSetFilters f).
Proof.
  intros Hr.
  destruct (reachable_view issueFromKeyAndValue issuePrefix issue_id_inj s Hr)
    as [Hm _].
  cbn [App.reducer allIssuesMap viewIssueCount filteredIssues filters
       issueOrder].
  f_equal.
  apply viewOf_filterAndSort.
  apply (sortBy_view issueFromKeyAndValue issuePrefix issue_id_inj
           f (issueOrder s) o); [exact Hm|].
  apply (filterAndSort_viewOf issueFromKeyAndValue issuePrefix issue_id_inj),
    Hm.
Qed.

(** X22: the two counts that [App] hands [TopFilter] fit together.  In
    a state that an [init] and then well-formed [diff]s lead to, the
    length of [filteredIssues] is at most [issuesCount]; when the
    additional filter has no constraints, so that [filteredIssuesCount]
    is left [undefined], the two are equal.  Issues built from different
    keys have different ids. *)
Theorem filteredIssuesCount_within_issuesCount s :
  reachable s ->
  (Z.of_nat (List.length (filteredIssues s)) <= issuesCount s)%Z /\
  match filteredIssuesCount s with
  | Some n => (Z.of_nat n <= issuesCount s)%Z
  | None => Z.of_nat (List.length (filteredIssues s)) = issuesCount s
  end.
Proof.
  intros Hr.
  destruct (reachable_view issueFromKeyAndValue issuePrefix issue_id_inj s Hr)
    as [_ [_ Hp]].
  unfold issuesCount, filteredIssuesCount.
  rewrite (reachable_count s Hr), countViewIssues_length.
  rewrite (Permutation_length Hp).
  assert (Hle : List.length
                  (List.filter (Filters_filter (filters s))
                     (values (allIssuesMap s)))
                <= List.length
                     (List.filter (Filter_filter (viewFilter (filters s)))
                        (values (allIssuesMap s)))).
  { apply filter_length_impl. intros i Hi.
    apply andb_prop in Hi as [Hi _]. exact Hi. }
  split; [lia|].
  destruct (Filter_hasConstraints (additionalFilter (filters s))) eqn:Hcons;
    [lia|].
  f_equal. f_equal. apply filter_ext. intros i.
  unfold Filter_hasConstraints in Hcons.
  unfold Filters_filter.
  unfold Filter_filter at 2.
  destruct (filter_status (additionalFilter (filters s)));
    [discriminate|].
  destruct (filter_priority (additionalFilter (filters s)));
    [discriminate|].
  apply andb_true_r.
Qed.

(** X23: what the [diff] case maintains step by step is what [init]
    computes from scratch.  A state that an [init] and then well-formed
    [diff]s lead to is left as it is by an [init] with its own map, by
    [setFilters] with its own filters and by [setIssueOrder] with its own
    order; and a well-formed [diff] leads to the state that an [init]
    with the map after the diff leads to.  Issues built from different
    keys have different ids. *)
Theorem reachable_is_recomputed s :
  reachable s ->
  reducer s (ActInit (allIssuesMap s)) = s /\
  reducer s (ActSetFilters (filters s)) = s /\
  reducer s (ActSetIssueOrder (issueOrder s)) = s /\
  forall diff,
    wfDiff issueFromKeyAndValue issuePrefix (allIssuesMap s) diff ->
    reducer s (ActDiff diff) =
    reducer s (ActInit (allIssuesMap (reducer s (ActDiff diff)))).
Proof.
  assert (Hfix : forall s0,
            reachable s0 ->
            countViewIssues (filters s0) (values (allIssuesMap s0))
            = viewIssueCount s0 /\
            filterAndSort (filters s0) (issueOrder s0)
              (values (allIssuesMap s0)) = filteredIssues s0 /\
            sortBy (order (issueOrder s0)) (filteredIssues s0)
            = filteredIssues s0).
  { intros s0 Hr0.
    destruct (reachable_view issueFromKeyAndValue issuePrefix issue_id_inj
                s0 Hr0) as [_ Hv].
    split; [symmetry; apply reachable_count, Hr0|].
    split; [symmetry; apply viewOf_filterAndSort, Hv|].
    apply sortBy_sorted_id, strict_sorted_le, Hv. }
  intros Hr. destruct (Hfix s Hr) as (Hc & Hl & Hs).
  split; [|split; [|split]].
  - destruct s as [m c l f o]. cbn in *. rewrite Hc, Hl. reflexivity.
  - destruct s as [m c l f o]. cbn in *. rewrite Hc, Hl. reflexivity.
  - destruct s as [m c l f o]. cbn in *. rewrite Hs. reflexivity.
  - intros diff Hwf.
    destruct (Hfix (reducer s (ActDiff diff))) as (Hc' & Hl' & _);
      [apply reach_diff; assumption|].
    set (s' := reducer s (ActDiff diff)) in *.
    assert (Hf : filters s' = filters s) by reflexivity.
    assert (Ho : issueOrder s' = issueOrder s) by reflexivity.
    rewrite Hf, Ho in Hl'. rewrite Hf in Hc'.
    cbn [App.reducer]. rewrite Hc', Hl'.
    rewrite <- Hf, <- Ho. destruct s'; reflexivity.
Qed.

Lemma reachable_ids_NoDup s :
  reachable s -> NoDup (id <$> filteredIssues s).
Proof.
  intros Hr.
  destruct (reachable_view issueFromKeyAndValue issuePrefix issue_id_inj s Hr)
    as [Hm [_ Hp]].
  rewrite Hp. apply NoDup_fmap_filter.
  unfold values. rewrite <- list_fmap_compose.
  apply (NoDup_fmap_coarser fst); [|apply NoDup_fst_map_to_list].
  intros [k1 i1] [k2 i2] H1%elem_of_map_to_list H2%elem_of_map_to_list Hid.
  simpl in *.
  apply (wellKeyed_same_id issueFromKeyAndValue issuePrefix issue_id_inj
           (allIssuesMap s) k1 k2 i1 i2 Hm H1 H2 Hid).
Qed.

(** X24: the rows of the issue list have keys of their own.  When
    [IssueList] is handed the [filteredIssues] of a state that an [init]
    and then well-formed [diff]s lead to, [itemKey] answers for every
    index below [itemCount], fails for every other index, and answers
    different keys for different indices.  Issues built from different
    keys have different ids. *)
Theorem itemKey_distinct s :
  reachable s ->
  let data := IssueList.itemData (filteredIssues s) in
  (forall index,
     index < IssueList.itemCount (filteredIssues s) ->
     is_Some (IssueList.itemKey index data)) /\
  (forall index,
     IssueList.itemCount (filteredIssues s) <= index ->
     IssueList.itemKey index data = None) /\
  (forall i j key,
     IssueList.itemKey i data = Some key ->
     IssueList.itemKey j data = Some key -> i = j).
Proof.
  intros Hr data. subst data.
  unfold IssueList.itemKey, IssueList.itemCount, IssueList.itemData.
  cbn [IssueList.issues]. split; [|split].
  - intros index Hlt. apply fmap_is_Some, lookup_lt_is_Some, Hlt.
  - intros index Hge. rewrite lookup_ge_None_2 by exact Hge. reflexivity.
  - intros i j key Hi Hj.
    rewrite <- list_lookup_fmap in Hi, Hj.
    exact (NoDup_lookup _ i j key (reachable_ids_NoDup s Hr) Hi Hj).
Qed.

End UniqueIds.
End Reducer.

Lemma reachable_viewIssueCount_witness :
  App.reachable Examples.issueFromKeyAndValue Examples.issuePrefix
    Examples.reached /\
  viewIssueCount Examples.reached =
    countViewIssues (filters Examples.reached)
      (values (allIssuesMap Examples.reached)).
Proof.
  split; [exact example_reachable|].
  exact (proj1 (reachable_viewIssueCount Examples.issueFromKeyAndValue
                  Examples.issuePrefix Examples.reached example_reachable)).
Defined.

Lemma setFilters_setIssueOrder_commute_witness :
  App.reachable Examples.issueFromKeyAndValue Examples.issuePrefix
    Examples.reached /\
  App.reducer Examples.issueFromKeyAndValue
    (App.reducer Examples.issueFromKeyAndValue Examples.reached
       (ActSetFilters MoreExamples.activeFilters))
    (ActSetIssueOrder CREATED) =
  App.reducer Examples.issueFromKeyAndValue
    (App.reducer Examples.issueFromKeyAndValue Examples.reached
       (ActSetIssueOrder CREATED))
    (ActSetFilters MoreExamples.activeFilters).
Proof.
  split; [exact example_reachable|].
  exact (setFilters_setIssueOrder_commute
           Examples.issueFromKeyAndValue Examples.issuePrefix example_id_inj
           Examples.reached MoreExamples.activeFilters CREATED
           example_reachable).
Defined.

Lemma filteredIssuesCount_within_issuesCount_witness :
  App.reachable Examples.issueFromKeyAndValue Examples.issuePrefix
    Examples.reached /\
  (Z.of_nat (List.length (filteredIssues Examples.reached))
   <= issuesCount Examples.reached)%Z.
Proof.
  split; [exact example_reachable|].
  exact (proj1 (filteredIssuesCount_within_issuesCount
                  Examples.issueFromKeyAndValue Examples.issuePrefix
                  example_id_inj Examples.reached example_reachable)).
Defined.

Lemma reachable_is_recomputed_witness :
  App.reachable Examples.issueFromKeyAndValue Examples.issuePrefix
    Examples.reached /\
  App.reducer Examples.issueFromKeyAndValue Examples.reached
    (ActInit (allIssuesMap Examples.reached))
  = Examples.reached.
Proof.
  split; [exact example_reachable|].
  exact (proj1 (reachable_is_recomputed
                  Examples.issueFromKeyAndValue Examples.issuePrefix
                  example_id_inj Examples.reached example_reachable)).
Defined.

Lemma itemKey_distinct_witness :
  App.reachable Examples.issueFromKeyAndValue Examples.issuePrefix
    Examples.reached /\
  is_Some
    (IssueList.itemKey 1
       (IssueList.itemData (filteredIssues Examples.reached))) /\
  IssueList.itemKey 2 (IssueList.itemData (filteredIssues Examples.reached))
  = None.
Proof.
  split; [exact example_reachable|].
  destruct (itemKey_distinct Examples.issueFromKeyAndValue
              Examples.issuePrefix example_id_inj Examples.reached
              example_reachable) as (Hsome & Hnone & _).
  split.
  - apply Hsome. apply Nat.ltb_lt. vm_compute. reflexivity.
  - apply Hnone. apply Nat.leb_le. vm_compute. reflexivity.
Defined.

End ReducerLaws.

(** ** Sets, the filters of the query string and the filter menu *)

Module JsSetFacts.
Import JsSet.

Section WithEq.
Context {A : Type} `{EqDecision A}.

Lemma elem_of_add (set : list A) x y : y ∈ add set x <-> y ∈ set \/ y = x.
Proof.
  unfold add. destruct (decide (x ∈ set)) as [Hin|Hout].
  - split; [auto|]. intros [?| ->]; assumption.
  - rewrite elem_of_app, list_elem_of_singleton. reflexivity.
Qed.

Lemma add_NoDup (set : list A) x : NoDup set -> NoDup (add set x).
Proof.
  intros Hnd. unfold add. destruct (decide (x ∈ set)) as [Hin|Hout];
    [exact Hnd|].
  apply NoDup_app. split; [exact Hnd|]. split.
  - intros y Hy Hyx. apply list_elem_of_singleton in Hyx. subst. contradiction.
  - apply NoDup_singleton.
Qed.

Lemma elem_of_fold_add (l : list A) : forall set y,
  y ∈ fold_left add l set <-> y ∈ set \/ y ∈ l.
Proof.
  induction l as [|x l IH]; intros set y; simpl.
  - rewrite elem_of_nil. tauto.
  - rewrite IH, elem_of_add, elem_of_cons. tauto.
Qed.

Lemma fold_add_NoDup (l : list A) : forall set,
  NoDup set -> NoDup (fold_left add l set).
Proof.
  induction l as [|x l IH]; intros set Hnd; simpl; [exact Hnd|].
  apply IH, add_NoDup, Hnd.
Qed.

Lemma fold_add_fresh (l : list A) : forall set,
  NoDup (set ++ l) -> fold_left add l set = set ++ l.
Proof.
  induction l as [|x l IH]; intros set Hnd; simpl.
  - rewrite List.app_nil_r. reflexivity.
  - assert (Hx : x ∉ set).
    { apply NoDup_app in Hnd as (_ & Hdisj & _). intros Hin.
      apply (Hdisj x Hin). left. }
    unfold add at 2. rewrite decide_False by exact Hx.
    rewrite IH; rewrite <- List.app_assoc; [reflexivity | exact Hnd].
Qed.

Lemma new_snoc (l : list A) x : new (l ++ [x]) = add (new l) x.
Proof. unfold new. rewrite fold_left_app. reflexivity. Qed.

Lemma new_NoDup_id (l : list A) : NoDup l -> new l = l.
Proof. intros Hnd. unfold new. apply (fold_add_fresh l []), Hnd. Qed.

(** What [[...new Set([...selected, x])]] is. *)
Lemma select_once (selected : list A) x :
  NoDup (new (selected ++ [x])) /\
  (forall y, y ∈ new (selected ++ [x]) <-> y ∈ selected \/ y = x) /\
  (NoDup selected -> x ∈ selected -> new (selected ++ [x]) = selected) /\
  (NoDup selected -> x ∉ selected ->
   new (selected ++ [x]) = selected ++ [x]).
Proof.
  split; [|split; [|split]].
  - apply fold_add_NoDup, NoDup_nil_2.
  - intros y. unfold new. rewrite elem_of_fold_add, elem_of_nil, elem_of_app,
      list_elem_of_singleton. tauto.
  - intros Hnd Hin. rewrite new_snoc, (new_NoDup_id _ Hnd).
    unfold add. rewrite decide_True by exact Hin. reflexivity.
  - intros Hnd Hout. rewrite new_snoc, (new_NoDup_id _ Hnd).
    unfold add. rewrite decide_False by exact Hout. reflexivity.
Qed.

End WithEq.

End JsSetFacts.

Module ViewLaws.
Import App AppView.

(** A loop that adds to a set what a partial function makes of each
    name. *)
Section Loop.
Context {A : Type} `{EqDecision A}.
Variable f : string -> option A.
Variable step : list A -> string -> list A.
Hypothesis step_add : forall chosen name,
  step chosen name =
    match f name with
    | Some data => JsSet.add chosen data
    | None => chosen
    end.

Lemma loop_elem names : forall chosen x,
  x ∈ fold_left step names chosen <->
  x ∈ chosen \/ exists name, name ∈ names /\ f name = Some x.
Proof.
  induction names as [|name names IH]; intros chosen x; simpl.
  - split; [auto|]. intros [H|(n & Hn & _)]; [exact H|].
    apply elem_of_nil in Hn as [].
  - rewrite IH, step_add. split.
    + intros [Hin|(n & Hn & Hf)].
      * destruct (f name) as [data|] eqn:Hname; [|auto].
        apply JsSetFacts.elem_of_add in Hin as [Hin| ->]; [auto|].
        right. exists name. split; [left | exact Hname].
      * right. exists n. split; [right; exact Hn | exact Hf].
    + intros [Hin|(n & Hn & Hf)].
      * left. destruct (f name); [|exact Hin].
        apply JsSetFacts.elem_of_add. auto.
      * apply elem_of_cons in Hn as [->|Hn].
        -- left. rewrite Hf. apply JsSetFacts.elem_of_add. auto.
        -- right. eauto.
Qed.

Lemma loop_NoDup names : forall chosen,
  NoDup chosen -> NoDup (fold_left step names chosen).
Proof.
  induction names as [|name names IH]; intros chosen Hnd; simpl;
    [exact Hnd|].
  apply IH. rewrite step_add. destruct (f name); [|exact Hnd].
  apply JsSetFacts.add_NoDup, Hnd.
Qed.

Lemma loop_nil names :
  (forall name, name ∈ names -> f name = None) ->
  fold_left step names [] = [].
Proof.
  intros Hnone. destruct (fold_left step names []) as [|x l] eqn:Hl;
    [reflexivity|].
  assert (Hx : x ∈ fold_left step names []) by (rewrite Hl; left).
  apply loop_elem in Hx as [Hx|(n & Hn & Hf)].
  - apply elem_of_nil in Hx as [].
  - rewrite (Hnone n Hn) in Hf. discriminate.
Qed.

End Loop.

Section GetFilters.
Variable toLowerCase : string -> string.
Variable statusEnumSchema : string -> option Status.
Variable priorityEnumSchema : string -> option Priority.

Abbreviation getFilters :=
  (AppView.getFilters toLowerCase statusEnumSchema priorityEnumSchema).

Lemma viewFilter_priority view pf sf :
  filter_priority (viewFilter (getFilters view pf sf)) = None.
Proof.
  unfold AppView.getFilters. cbn [viewFilter].
  destruct (toLowerCase <$> view) as [v|]; [|reflexivity].
  repeat destruct (decide _); reflexivity.
Qed.

(** Whether the view filter lets a status pass. *)
Lemma viewFilter_allows view pf sf st :
  (forall issue, status issue = st ->
     Filter_filter (viewFilter (getFilters view pf sf)) issue = true) <->
  match filter_status (viewFilter (getFilters view pf sf)) with
  | None => true
  | Some allowed => bool_decide (st ∈ allowed)
  end = true.
Proof.
  pose proof (viewFilter_priority view pf sf) as Hprio.
  unfold Filter_filter. rewrite Hprio.
  destruct (filter_status (viewFilter (getFilters view pf sf))) as [l|].
  - split.
    + intros H.
      specialize (H {| id := ""; title := ""; priority := NONE; status := st;
                       modified := 0; created := 0 |} eq_refl).
      cbn [status] in H. destruct (bool_decide (st ∈ l)); [reflexivity|].
      discriminate.
    + intros H issue ->. rewrite H. reflexivity.
  - split; reflexivity.
Qed.

(** The set that the loop over the names of [statusFilter] builds. *)
Lemma additionalFilter_status view pf sf :
  filter_status (additionalFilter (getFilters view pf sf)) =
  match sf with
  | Some statusFilter =>
      if decide (statusFilter = "") then None
      else
        Some (fold_left
                (fun status s =>
                   match statusEnumSchema s with
                   | Some data =>
                       if match filter_status
                                  (viewFilter (getFilters view pf sf)) with
                          | None => true
                          | Some allowed => bool_decide (data ∈ allowed)
                          end
                       then JsSet.add status data
                       else status
                   | None => status
                   end)
                (split "," statusFilter) [])
  | None => None
  end.
Proof. reflexivity. Qed.

(** The loop over the names of [statusFilter] adds what [usable] makes
    of a name. *)
Lemma status_step (allowed : option (list Status)) chosen name :
  match statusEnumSchema name with
  | Some data =>
      if match allowed with
         | None => true
         | Some allowed => bool_decide (data ∈ allowed)
         end
      then JsSet.add chosen data
      else chosen
  | None => chosen
  end =
  match
    match statusEnumSchema name with
    | Some data =>
        if match allowed with
           | None => true
           | Some allowed => bool_decide (data ∈ allowed)
           end
        then Some data
        else None
    | None => None
    end
  with
  | Some data => JsSet.add chosen data
  | None => chosen
  end.
Proof.
  destruct (statusEnumSchema name) as [data|]; [|reflexivity].
  destruct (match allowed with
            | Some l => bool_decide (data ∈ l)
            | None => true
            end); reflexivity.
Qed.

(** X25: the status filter of the query string stays inside the view.
    The view filter of [getFilters] never constrains the priority.  When
    [statusFilter] is not empty, the status set of the additional filter
    has no repeated member and holds exactly the statuses that the schema
    parsed from one of the comma-separated names and that the view filter
    lets pass, so that the combined filter is the additional filter
    alone; and the additional filter has no status set only when
    [statusFilter] is [null] or empty. *)
Theorem getFilters_status_within_view view priorityFilter statusFilter :
  let filters := getFilters view priorityFilter statusFilter in
  let names :=
    match statusFilter with
    | Some statusFilter => split "," statusFilter
    | None => []
    end in
  filter_priority (viewFilter filters) = None /\
  match filter_status (additionalFilter filters) with
  | Some chosen =>
      NoDup chosen /\
      (forall st,
         st ∈ chosen <->
         (exists name, name ∈ names /\ statusEnumSchema name = Some st) /\
         (forall issue, status issue = st ->
            Filter_filter (viewFilter filters) issue = true)) /\
      (forall issue,
         Filters_filter filters issue =
         Filter_filter (additionalFilter filters) issue)
  | None => statusFilter = None \/ statusFilter = Some ""
  end.
Proof.
  intros filters names. split; [apply viewFilter_priority|].
  pose proof (additionalFilter_status view priorityFilter statusFilter)
    as Hstatus.
  pose proof (viewFilter_allows view priorityFilter statusFilter) as Hallow.
  fold filters in Hstatus, Hallow.
  destruct statusFilter as [sf|]; [|rewrite Hstatus; auto].
  destruct (decide (sf = "")) as [->|Hne]; [rewrite Hstatus; auto|].
  rewrite Hstatus. subst names. cbv beta iota.
  set (allowed := filter_status (viewFilter filters)) in *.
  assert (Hchosen : forall st,
            st ∈ fold_left
                   (fun status s =>
                      match statusEnumSchema s with
                      | Some data =>
                          if match allowed with
                             | None => true
                             | Some allowed => bool_decide (data ∈ allowed)
                             end
                          then JsSet.add status data
                          else status
                      | None => status
                      end)
                   (split "," sf) [] <->
            (exists name, name ∈ split "," sf /\
                          statusEnumSchema name = Some st) /\
            (forall issue, status issue = st ->
               Filter_filter (viewFilter filters) issue = true)).
  { intros st. rewrite (loop_elem _ _ (status_step allowed)), Hallow.
    split.
    - intros [Hin|(name & Hin & Hf)]; [apply elem_of_nil in Hin as []|].
      destruct (statusEnumSchema name) as [data|] eqn:Hparse;
        [|discriminate].
      destruct (match allowed with
                | Some l => bool_decide (data ∈ l)
                | None => true
                end) eqn:Hok; [|discriminate].
      inversion Hf; subst data. split; [eauto | exact Hok].
    - intros [(name & Hin & Hparse) Hok]. right. exists name.
      split; [exact Hin|]. rewrite Hparse, Hok. reflexivity. }
  split; [|split; [exact Hchosen|]].
  - apply (loop_NoDup _ _ (status_step allowed)), NoDup_nil_2.
  - intros issue. unfold Filters_filter.
    destruct (Filter_filter (additionalFilter filters) issue) eqn:Hadd;
      [|apply andb_false_r].
    rewrite andb_true_r. unfold Filter_filter in Hadd.
    rewrite Hstatus in Hadd.
    destruct (bool_decide (status issue ∈ _)) eqn:Hin in Hadd;
      [|discriminate].
    apply bool_decide_eq_true in Hin.
    apply (proj2 (proj1 (Hchosen _) Hin)). reflexivity.
Qed.

(** X26: a status filter without a usable name hides every issue.  When
    [statusFilter] is not empty and each of its names either is no member
    of the schema or is a status that the view filter rejects, the
    additional filter gets the empty status set, not an absent one, and
    the combined filter rejects every issue. *)
Theorem getFilters_status_names_rejected view priorityFilter statusFilter :
  statusFilter <> "" ->
  (forall name st,
     name ∈ split "," statusFilter -> statusEnumSchema name = Some st ->
     forall issue, status issue = st ->
       Filter_filter
         (viewFilter (getFilters view priorityFilter (Some statusFilter)))
         issue = false) ->
  filter_status
    (additionalFilter (getFilters view priorityFilter (Some statusFilter)))
  = Some [] /\
  forall issue,
    Filters_filter (getFilters view priorityFilter (Some statusFilter)) issue
    = false.
Proof.
  intros Hne Hrej.
  pose proof (viewFilter_priority view priorityFilter (Some statusFilter))
    as Hprio.
  pose proof (additionalFilter_status view priorityFilter (Some statusFilter))
    as Hstatus.
  set (filters := getFilters view priorityFilter (Some statusFilter)) in *.
  cbv beta iota in Hstatus. rewrite decide_False in Hstatus by exact Hne.
  assert (Hempty : filter_status (additionalFilter filters) = Some []).
  { rewrite Hstatus. f_equal.
    apply (loop_nil _ _ (status_step (filter_status (viewFilter filters)))).
    intros name Hin.
    destruct (statusEnumSchema name) as [st|] eqn:Hparse; [|reflexivity].
    specialize (Hrej name st Hin Hparse
                  {| id := ""; title := ""; priority := NONE; status := st;
                     modified := 0; created := 0 |} eq_refl).
    unfold Filter_filter in Hrej. rewrite Hprio in Hrej. cbn [status] in Hrej.
    destruct (filter_status (viewFilter filters)) as [l|]; [|discriminate].
    destruct (bool_decide (st ∈ l)); [discriminate | reflexivity]. }
  split; [exact Hempty|]. intros issue. unfold Filters_filter.
  assert (Hadd : Filter_filter (additionalFilter filters) issue = false).
  { unfold Filter_filter. rewrite Hempty.
    rewrite bool_decide_eq_false_2 by apply not_elem_of_nil. reflexivity. }
  rewrite Hadd. apply andb_false_r.
Qed.

(** X27: the priority filter of the query string holds the priorities
    that were named, and is absent when none was.  When the additional
    filter has a priority set, the set is not empty, has no repeated
    member and holds exactly the priorities that the schema parsed from
    one of the comma-separated names of [priorityFilter].  It has none
    exactly when [priorityFilter] is [null], empty, or without a name
    that the schema parses, and then [getFilters] answers what it answers
    without the parameter: unknown names are ignored. *)
Theorem getFilters_priority_set view priorityFilter statusFilter :
  let filters := getFilters view priorityFilter statusFilter in
  let names :=
    match priorityFilter with
    | Some priorityFilter =>
        if decide (priorityFilter = "") then []
        else split "," priorityFilter
    | None => []
    end in
  match filter_priority (additionalFilter filters) with
  | Some chosen =>
      chosen <> [] /\ NoDup chosen /\
      forall p,
        p ∈ chosen <->
        exists name, name ∈ names /\ priorityEnumSchema name = Some p
  | None =>
      (forall name, name ∈ names -> priorityEnumSchema name = None) /\
      filters = getFilters view None statusFilter
  end.
Proof.
  intros filters names.
  assert (Hprio :
    filter_priority (additionalFilter filters) =
    match priorityFilter with
    | Some priorityFilter =>
        if decide (priorityFilter = "") then None
        else
          match fold_left
                  (fun priority p =>
                     match priorityEnumSchema p with
                     | Some data => JsSet.add priority data
                     | None => priority
                     end)
                  (split "," priorityFilter) [] with
          | [] => None
          | priority => Some priority
          end
    | None => None
    end) by reflexivity.
  assert (Habsent : filter_priority (additionalFilter filters) = None ->
                    filters = getFilters view None statusFilter).
  { subst filters. unfold AppView.getFilters.
    cbn [additionalFilter filter_priority]. intros ->. reflexivity. }
  destruct (filter_priority (additionalFilter filters)) as [chosen|] eqn:Hp.
  - destruct priorityFilter as [pf|]; [|discriminate].
    subst names. cbv beta iota.
    destruct (decide (pf = "")); [discriminate|].
    destruct (fold_left _ (split "," pf) []) as [|p0 l] eqn:Hloop;
      [discriminate|].
    inversion Hprio; subst chosen. split; [discriminate|].
    rewrite <- Hloop. split.
    + apply (loop_NoDup priorityEnumSchema _ (fun _ _ => eq_refl)),
        NoDup_nil_2.
    + intros p.
      rewrite (loop_elem priorityEnumSchema _ (fun _ _ => eq_refl)). split.
      * intros [Hin|H]; [apply elem_of_nil in Hin as [] | exact H].
      * auto.
  - split; [|apply Habsent; reflexivity].
    intros name Hin. subst names.
    destruct priorityFilter as [pf|]; [|apply elem_of_nil in Hin as []].
    destruct (decide (pf = "")); [apply elem_of_nil in Hin as []|].
    destruct (priorityEnumSchema name) as [p|] eqn:Hparse; [|reflexivity].
    exfalso.
    assert (Hp' : p ∈ fold_left
                        (fun priority p =>
                           match priorityEnumSchema p with
                           | Some data => JsSet.add priority data
                           | None => priority
                           end)
                        (split "," pf) []).
    { apply (loop_elem priorityEnumSchema _ (fun _ _ => eq_refl)).
      right. eauto. }
    destruct (fold_left _ (split "," pf) []) as [|p0 l];
      [apply elem_of_nil in Hp' as [] | discriminate].
Qed.

End GetFilters.

Lemma getFilters_status_names_rejected_witness :
  "TODO,bogus" <> "" /\
  forall issue,
    Filters_filter
      (MoreExamples.parsedFilters (Some "Backlog") None (Some "TODO,bogus"))
      issue
    = false.
Proof.
  assert (Hne : "TODO,bogus" <> "") by discriminate.
  split; [exact Hne|].
  refine (proj2 (getFilters_status_names_rejected MoreExamples.toLowerCase
                   MoreExamples.statusEnumSchema
                   MoreExamples.priorityEnumSchema
                   (Some "Backlog") None "TODO,bogus" Hne _)).
  intros name st Hin Hparse issue Hst.
  change (split "," "TODO,bogus") with ["TODO"; "bogus"] in Hin.
  apply elem_of_cons in Hin as [->|Hin].
  - injection Hparse as <-. unfold Filter_filter. cbn.
    rewrite Hst. reflexivity.
  - apply list_elem_of_singleton in Hin as ->. discriminate.
Defined.

(** X28: selecting in the filter menu adds the selection once.  The
    array that [onSelectPriority] hands on has no repeated member and
    holds the priorities selected before and the new one; when the
    selection has no repeated member, selecting a priority that is in it
    leaves it as it is, and selecting another one appends it.  The same
    holds of [onSelectStatus]. *)
Theorem onSelect_adds_once priorityFilters priority statusFilters status :
  let priorities := default [] priorityFilters in
  let statuses := default [] statusFilters in
  let newPriorities := TopFilter.onSelectPriority priorityFilters priority in
  let newStatuses := TopFilter.onSelectStatus statusFilters status in
  (NoDup newPriorities /\
   (forall p, p ∈ newPriorities <-> p ∈ priorities \/ p = priority) /\
   (NoDup priorities -> priority ∈ priorities ->
    newPriorities = priorities) /\
   (NoDup priorities -> priority ∉ priorities ->
    newPriorities = priorities ++ [priority])) /\
  (NoDup newStatuses /\
   (forall s, s ∈ newStatuses <-> s ∈ statuses \/ s = status) /\
   (NoDup statuses -> status ∈ statuses -> newStatuses = statuses) /\
   (NoDup statuses -> status ∉ statuses ->
    newStatuses = statuses ++ [status])).
Proof.
  intros priorities statuses newPriorities newStatuses. split.
  - apply (JsSetFacts.select_once priorities priority).
  - apply (JsSetFacts.select_once statuses status).
Qed.

End ViewLaws.

(** ** When two issues have the same sort key *)

Module OrderKeyLaws.
Import App AppFacts.

Lemma digits_dash_split d1 : forall d2 r1 r2,
  allDigits d1 = true -> allDigits d2 = true ->
  (d1 ++ "-" ++ r1)%string = (d2 ++ "-" ++ r2)%string ->
  d1 = d2 /\ r1 = r2.
Proof.
  induction d1 as [|c d1 IH]; intros [|c2 d2] r1 r2 H1 H2 Heq;
    repeat first [rewrite append_nil_l in Heq | rewrite append_cons_l in Heq];
    simpl in H1, H2.
  - inversion Heq. split; reflexivity.
  - inversion Heq; subst c2. discriminate.
  - inversion Heq; subst c. discriminate.
  - inversion Heq; subst.
    apply andb_prop in H1 as [_ H1]. apply andb_prop in H2 as [_ H2].
    destruct (IH d2 r1 r2 H1 H2) as [-> ->]; [assumption|].
    split; reflexivity.
Qed.

Lemma numberToString_inj a b : numberToString a = numberToString b -> a = b.
Proof.
  unfold numberToString. intros Heq.
  assert (Hnn : forall n, Z.to_int n <> Decimal.Pos Decimal.Nil /\
                          Z.to_int n <> Decimal.Neg Decimal.Nil).
  { intros [|p|p]; simpl; split; try discriminate;
      intros H; inversion H as [Hp];
      apply (DecimalPos.Unsigned.to_uint_nonnil p Hp). }
  apply (f_equal NilZero.int_of_string) in Heq.
  rewrite !NilZero.isi in Heq by apply Hnn.
  inversion Heq as [Hint]. apply DecimalZ.to_int_inj, Hint.
Qed.

Lemma order_split o a b :
  order o a = order o b ->
  numberToString (MAX_SAFE_INTEGER - orderValue o a) =
  numberToString (MAX_SAFE_INTEGER - orderValue o b) /\
  id a = id b.
Proof.
  unfold order.
  set (na := (MAX_SAFE_INTEGER - _)%Z). set (nb := (MAX_SAFE_INTEGER - _)%Z).
  destruct (numberToString_shape na) as (da & Hna & Hda & [->| ->]);
    destruct (numberToString_shape nb) as (db & Hnb & Hdb & [->| ->]);
    intros Heq.
  - destruct (digits_dash_split da db _ _ Hda Hdb Heq) as [Hd Hid].
    split; [exact Hd | exact Hid].
  - destruct da as [|c da]; [congruence|].
    rewrite !append_cons_l in Heq. simpl in Hda.
    inversion Heq; subst c. discriminate.
  - destruct db as [|c db]; [congruence|].
    rewrite !append_cons_l in Heq. simpl in Hdb.
    inversion Heq; subst c. discriminate.
  - rewrite !append_cons_l in Heq. inversion Heq as [Heq'].
    destruct (digits_dash_split da db _ _ Hda Hdb Heq') as [Hd Hid].
    split; [congruence | exact Hid].
Qed.

(** X29: the sort key tells issues apart.  For time stamps from 0 to
    [Number.MAX_SAFE_INTEGER], for which the difference in the key is
    computed exactly, two issues have the same key of [order] exactly
    when they have the same time stamp of the order and the same id: the
    dash between the number and the id leaves no room for a clash. *)
Theorem order_key_same o a b :
  (0 <= orderValue o a <= MAX_SAFE_INTEGER)%Z ->
  (0 <= orderValue o b <= MAX_SAFE_INTEGER)%Z ->
  (order o a = order o b <->
   orderValue o a = orderValue o b /\ id a = id b).
Proof.
  intros _ _. split.
  - intros Heq. apply order_split in Heq as [Hn Hid].
    apply numberToString_inj in Hn. split; [lia | exact Hid].
  - intros [Hv Hid]. unfold order. rewrite Hv, Hid. reflexivity.
Qed.

Lemma order_key_same_witness :
  (0 <= orderValue MODIFIED Examples.sampleIssue <= MAX_SAFE_INTEGER)%Z /\
  (order MODIFIED Examples.sampleIssue = order MODIFIED Examples.epochIssue
   <->
   orderValue MODIFIED Examples.sampleIssue =
   orderValue MODIFIED Examples.epochIssue /\
   id Examples.sampleIssue = id Examples.epochIssue).
Proof.
  assert (Ha : (0 <= orderValue MODIFIED Examples.sampleIssue
                <= MAX_SAFE_INTEGER)%Z) by (vm_compute; split; discriminate).
  split; [exact Ha|].
  apply (order_key_same MODIFIED Examples.sampleIssue Examples.epochIssue Ha).
  vm_compute; split; discriminate.
Defined.

End OrderKeyLaws.
